(** * Settings validation and merging of the project converter

    A shallow embedding of [DataConverter.verify_data] and
    [DataConverter.merge_data_settings] (file
    [cmake_converter/data_converter.py]) together with the properties the
    specification states about them. *)

From stdpp Require Import base option list gmap strings sets.
From stdpp Require Import sorting.

Local Open Scope list_scope.
Set Warnings "-clear-no-such-hyp".
Set Default Proof Using "Type".

(** * Data model *)

(** A configuration key is the Python tuple [(configuration, architecture)];
    [None] in a slot is the wildcard. *)
Abbreviation ConfigKey := (option string * option string)%type.
Abbreviation Arch := (option string)%type.

(** One entry of [context.settings]: the scalar ['target_type'] entry (absent
    when the dictionary has no such key) and the list-valued entries. *)
Record SettingsRecord := mkRecord {
  target_type : option string;
  lists : gmap string (list string)
}.

#[global] Instance SettingsRecord_eq_dec : EqDecision SettingsRecord.
Proof. solve_decision. Defined.

(** [record[key] = value] for a list-valued key. *)
Definition set_list (key : string) (l : list string) (r : SettingsRecord) : SettingsRecord :=
  {| target_type := target_type r; lists := <[key := l]> (lists r) |}.

(** The text of a diagnostic. The error of the completeness check is built
    with [str.format] from the project path and the set of absent keys; it is
    kept structured here. *)
Inductive message_text :=
  | Text (s : string)
  | AbsentSettingsText (vcxproj_path : string) (absent_settings : gset ConfigKey).

Record diagnostic := mkDiag {
  diag_text : message_text;
  diag_status : string
}.

(** The fields of the conversion context that validation and merging use.
    [sln_configurations_map] is a dictionary iterated in insertion order: an
    association list whose keys are pairwise distinct. [settings] is only
    looked up, tested for membership and assigned to by the merger, so a
    finite map stands for it; its records are values, that is, the store is
    taken not to hold one dictionary object under two keys (the merger itself
    adds records by [copy.deepcopy] only). *)
Record CtxData := mkCtx {
  vcxproj_path : string;
  settings : gmap ConfigKey SettingsRecord;
  sln_configurations_map : list (ConfigKey * ConfigKey);
  configurations_to_parse : gset ConfigKey;
  current_setting : ConfigKey;
  diagnostics : list diagnostic
}.

(** A context with its per-file contexts ([context.file_contexts], [None] or a
    dictionary from file name to context). *)
#[warnings="-register-all"]
Inductive Context :=
  | mkContext (data : CtxData) (file_contexts : option (list (string * Context))).

Definition with_settings (s : gmap ConfigKey SettingsRecord) (c : CtxData) : CtxData :=
  {| vcxproj_path := vcxproj_path c; settings := s;
     sln_configurations_map := sln_configurations_map c;
     configurations_to_parse := configurations_to_parse c;
     current_setting := current_setting c; diagnostics := diagnostics c |}.

Definition with_map (m : list (ConfigKey * ConfigKey)) (c : CtxData) : CtxData :=
  {| vcxproj_path := vcxproj_path c; settings := settings c;
     sln_configurations_map := m;
     configurations_to_parse := configurations_to_parse c;
     current_setting := current_setting c; diagnostics := diagnostics c |}.

Definition with_to_parse (p : gset ConfigKey) (c : CtxData) : CtxData :=
  {| vcxproj_path := vcxproj_path c; settings := settings c;
     sln_configurations_map := sln_configurations_map c;
     configurations_to_parse := p;
     current_setting := current_setting c; diagnostics := diagnostics c |}.

Definition with_current (k : ConfigKey) (c : CtxData) : CtxData :=
  {| vcxproj_path := vcxproj_path c; settings := settings c;
     sln_configurations_map := sln_configurations_map c;
     configurations_to_parse := configurations_to_parse c;
     current_setting := k; diagnostics := diagnostics c |}.

(** Modelled from the spec: the diagnostics sink [utils.message], which is not
    part of the sources at hand; it accepts a text and a severity and records
    them, in order of emission. *)
Definition message (text : message_text) (status : string) (c : CtxData) : CtxData :=
  {| vcxproj_path := vcxproj_path c; settings := settings c;
     sln_configurations_map := sln_configurations_map c;
     configurations_to_parse := configurations_to_parse c;
     current_setting := current_setting c;
     diagnostics := diagnostics c ++ [mkDiag text status] |}.

(** * Exceptions *)

Inductive exn := KeyError | LoopBound.

Inductive result (A : Type) :=
  | Ok (a : A)
  | Raise (e : exn).
Arguments Ok {A} a.
Arguments Raise {A} e.

#[global] Instance result_bind : MBind result :=
  λ A B (f : A → result B) (r : result A),
    match r with Ok a => f a | Raise e => Raise e end.

(** [d[k]] on a value that may be missing. *)
Definition getitem {A} (o : option A) : result A :=
  match o with Some a => Ok a | None => Raise KeyError end.

(** A loop over a list whose body may raise. *)
Fixpoint for_each {A S} (body : S → A → result S) (l : list A) (s : S) : result S :=
  match l with
  | [] => Ok s
  | a :: l' => s' ← body s a; for_each body l' s'
  end.

(** * Insertion-ordered dictionaries *)

Section dict.
Context {K V : Type} `{EqDecision K}.

Fixpoint dict_get (k : K) (d : list (K * V)) : option V :=
  match d with
  | [] => None
  | (k', v) :: d' => if decide (k = k') then Some v else dict_get k d'
  end.

(** [d[k] = v]: an existing key keeps its position, a new one goes last. *)
Fixpoint dict_set (k : K) (v : V) (d : list (K * V)) : list (K * V) :=
  match d with
  | [] => [(k, v)]
  | (k', v') :: d' =>
      if decide (k = k') then (k, v) :: d' else (k', v') :: dict_set k v d'
  end.
End dict.

(** * The validator *)

(** [None in setting] for a key tuple. *)
Definition has_none (setting : ConfigKey) : bool :=
  match setting with (Some _, Some _) => false | _ => true end.

(** [__verify_target_types]: the loop over [context.settings]. The set it
    builds does not depend on the order of the loop; a record without
    ['target_type'] raises [KeyError]. *)
Definition collect_target_types (s : gmap ConfigKey SettingsRecord) : result (gset string) :=
  for_each
    (λ (target_types : gset string) (entry : ConfigKey * SettingsRecord),
       if has_none entry.1 then Ok target_types
       else t ← getitem (target_type entry.2); Ok (target_types ∪ {[t]}))
    (map_to_list s) ∅.

Definition target_types_warning : message_text :=
  Text "Target has more than one output binary type. CMake does not support it!".

Definition verify_target_types (c : CtxData) : CtxData * result unit :=
  match collect_target_types (settings c) with
  | Raise e => (c, Raise e)
  | Ok target_types =>
      if decide (1 < size target_types)
      then (message target_types_warning "warn" c, Ok ())
      else (c, Ok ())
  end.

(** [__verify_configurations_to_parse] *)
Definition absent_settings (c : CtxData) : gset ConfigKey :=
  filter (λ setting, setting ∉ dom (settings c)) (configurations_to_parse c).

Definition verify_configurations_to_parse (c : CtxData) : CtxData * bool :=
  let absent := absent_settings c in
  if decide (0 < size absent) then
    (message (AbsentSettingsText (vcxproj_path c) absent) "error"
       (with_to_parse (configurations_to_parse c ∖ absent) c), false)
  else (c, true).

(** [verify_data] *)
Definition verify_data (c : CtxData) : CtxData * result bool :=
  match verify_target_types c with
  | (c1, Raise e) => (c1, Raise e)
  | (c1, Ok _) =>
      let '(c2, b) := verify_configurations_to_parse c1 in (c2, Ok b)
  end.

(** * The merger *)

Abbreviation Group := (list (ConfigKey * list string))%type.
Abbreviation ItemsToMerge := (list (Arch * list (ConfigKey * list string)))%type.
Abbreviation SetsOfItems := (gmap (option string) (gset string))%type.

Section merger.
(** The keys returned by [context.utils.lists_of_settings_to_merge()] and
    the baseline record of the default-initialization hook; both live
    outside the sources at hand and are parameters here. *)
Variable lists_of_settings_to_merge : list string.
Variable init_record : ConfigKey → SettingsRecord.

(** Modelled from the spec: the hook [utils.init_context_current_setting],
    which is not part of the sources at hand; given the new wildcard key in
    [context.current_setting] it stores a baseline record under it. *)
Definition init_context_current_setting (c : CtxData) : CtxData :=
  with_settings
    (<[current_setting c := init_record (current_setting c)]> (settings c)) c.

(** Body of the "get intersection pass" loop of [merge_data_settings]; the
    loop runs over the items of [context.sln_configurations_map]. *)
Definition intersection_step (key : string)
    (st : CtxData * ItemsToMerge * SetsOfItems)
    (item : ConfigKey * ConfigKey) : result (CtxData * ItemsToMerge * SetsOfItems) :=
  let '(c, lists_of_items_to_merge, set_of_items) := st in
  let '(sln_setting, mapped_setting) := item in
  let mapped_arch := sln_setting.2 in
  let lists_of_items_to_merge :=
    if decide (mapped_arch ≠ None ∧ mapped_arch ∉ lists_of_items_to_merge.*1)
    then dict_set mapped_arch [] lists_of_items_to_merge
    else lists_of_items_to_merge in
  let c :=
    if decide ((None, mapped_arch) ∉ dom (settings c))
    then init_context_current_setting (with_current (None, mapped_arch) c)
    else c in
  record ← getitem (settings c !! mapped_setting);
  match lists record !! key with
  | None => Ok (c, lists_of_items_to_merge, set_of_items)
  | Some settings_list =>
      if decide (mapped_setting.1 = None)
      then Ok (c, lists_of_items_to_merge, set_of_items)
      else
        group ← getitem (dict_get mapped_arch lists_of_items_to_merge);
        let set_of_items :=
          if decide (group = [])
          then <[mapped_arch := list_to_set settings_list]> set_of_items
          else set_of_items in
        let lists_of_items_to_merge :=
          dict_set mapped_arch (dict_set sln_setting settings_list group)
            lists_of_items_to_merge in
        getitem (set_of_items !! mapped_arch) ≫= λ items : gset string,
        Ok (c, lists_of_items_to_merge,
            <[mapped_arch := items ∩ list_to_set settings_list]> set_of_items)
  end.

(** [__update_settings_at_context]; [copy.deepcopy] of an immutable value is
    the value. *)
Definition update_settings_at_context (c : CtxData) (sln_setting : ConfigKey)
    (key : string) (settings_to_set : list string) : result CtxData :=
  c ← (if decide (sln_setting ∉ dom (settings c)) then
         mapped ← getitem (dict_get sln_setting (sln_configurations_map c));
         record ← getitem (settings c !! mapped);
         Ok (with_settings (<[sln_setting := record]> (settings c)) c)
       else Ok c);
  let c := with_map (dict_set sln_setting sln_setting (sln_configurations_map c)) c in
  record ← getitem (settings c !! sln_setting);
  Ok (with_settings (<[sln_setting := set_list key settings_to_set record]> (settings c)) c).

(** The list comprehension loop of [__remove_common_settings_from_context]. *)
Definition result_settings_list (set_of_items : SetsOfItems) (arch : Arch)
    (elements : list string) : result (list string) :=
  for_each
    (λ (acc : list string) (element : string),
       getitem (set_of_items !! arch) ≫= λ items : gset string,
       Ok (if decide (element ∈ items) then acc else acc ++ [element]))
    elements [].

(** [__remove_common_settings_from_context] *)
Definition remove_common_settings_from_context (c : CtxData)
    (lists_of_items_to_merge : ItemsToMerge) (set_of_items : SetsOfItems)
    (key : string) : result CtxData :=
  for_each
    (λ (c : CtxData) (arch_group : Arch * Group),
       for_each
         (λ (c : CtxData) (entry : ConfigKey * list string),
            l ← result_settings_list set_of_items arch_group.1 entry.2;
            update_settings_at_context c entry.1 key l)
         arch_group.2 c)
    lists_of_items_to_merge c.

(** One pass of the [for setting in lists_of_items_to_merge] loop of
    [__get_order_of_common_settings] at index [i]. *)
Definition order_sweep (i : nat) (group : Group) (merged : list string) : list string * nat :=
  foldl
    (λ (st : list string * nat) (entry : ConfigKey * list string),
       match entry.2 !! i with
       | Some x => (st.1 ++ [x], st.2)
       | None => (st.1, S st.2)
       end)
    (merged, 0) group.

(** The [while True] loop; [fuel] bounds the number of iterations. *)
Fixpoint order_loop (fuel i : nat) (group : Group) (merged : list string) : result (list string) :=
  match fuel with
  | 0 => Raise LoopBound
  | S fuel' =>
      let '(merged', out_of_bounds) := order_sweep i group merged in
      if decide (out_of_bounds = length group) then Ok merged'
      else order_loop fuel' (S i) group merged'
  end.

Definition max_len (group : Group) : nat := max_list (length <$> group.*2).

(** [__get_order_of_common_settings] *)
Definition get_order_of_common_settings (lists_of_items_to_merge_arch : ItemsToMerge)
    : result (list (Arch * list string)) :=
  for_each
    (λ (merged_order_lists : list (Arch * list string)) (arch_group : Arch * Group),
       merged ← order_loop (S (max_len arch_group.2)) 0 arch_group.2 [];
       Ok (dict_set arch_group.1 merged merged_order_lists))
    lists_of_items_to_merge_arch [].

(** The [for element in merged_order_list] loop of
    [__get_common_ordered_settings], with its [break]. *)
Fixpoint common_ordered_loop (arch : Arch) (elements : list string)
    (common : list string) (set_of_items : SetsOfItems)
    : result (list string * SetsOfItems) :=
  match elements with
  | [] => Ok (common, set_of_items)
  | element :: rest =>
      getitem (set_of_items !! arch) ≫= λ items : gset string,
      if decide (element ∈ items) then
        let common := common ++ [element] in
        let set_of_items := <[arch := items ∖ {[element]}]> set_of_items in
        if decide (set_of_items = ∅) then Ok (common, set_of_items)
        else common_ordered_loop arch rest common set_of_items
      else common_ordered_loop arch rest common set_of_items
  end.

(** [__get_common_ordered_settings]; the second component is the state in
    which the call leaves its argument [set_of_items]. *)
Definition get_common_ordered_settings (merged_order_list_arch : list (Arch * list string))
    (set_of_items : SetsOfItems) : result (list (Arch * list string) * SetsOfItems) :=
  for_each
    (λ (st : list (Arch * list string) * SetsOfItems) (arch_list : Arch * list string),
       '(common, set_of_items) ← common_ordered_loop arch_list.1 arch_list.2 [] st.2;
       Ok (dict_set arch_list.1 common st.1, set_of_items))
    merged_order_list_arch ([], set_of_items).

(** The last loop of the body: the common list goes under the wildcard key. *)
Definition commit_merged_settings (key : string) (c : CtxData)
    (arch_list : Arch * list string) : result CtxData :=
  let '(arch, merged_setting) := arch_list in
  record ← getitem (settings c !! (None, arch));
  let c := with_settings (<[(None, arch) := set_list key merged_setting record]> (settings c)) c in
  Ok (with_map (dict_set (None, arch) (None, arch) (sln_configurations_map c)) c).

(** Body of [for key in context.utils.lists_of_settings_to_merge()]. *)
Definition merge_key (c : CtxData) (key : string) : result CtxData :=
  '(c, lists_of_items_to_merge, set_of_items) ←
    for_each (intersection_step key) (sln_configurations_map c) (c, [], ∅);
  c ← remove_common_settings_from_context c lists_of_items_to_merge set_of_items key;
  merged_order_lists ← get_order_of_common_settings lists_of_items_to_merge;
  merged_settings ← get_common_ordered_settings merged_order_lists set_of_items;
  for_each (commit_merged_settings key) merged_settings.1 c.

Definition merge_keys (c : CtxData) : result CtxData :=
  for_each merge_key lists_of_settings_to_merge c.

(** [merge_data_settings], with the recursion into the per-file contexts. *)
Fixpoint merge_data_settings (context : Context) : result Context :=
  match context with
  | mkContext data file_contexts =>
      data ← merge_keys data;
      match file_contexts with
      | None => Ok (mkContext data None)
      | Some files =>
          files ←
            (fix merge_files (fs : list (string * Context)) : result (list (string * Context)) :=
               match fs with
               | [] => Ok []
               | (file, fc) :: rest =>
                   fc ← merge_data_settings fc;
                   rest ← merge_files rest;
                   Ok ((file, fc) :: rest)
               end) files;
          Ok (mkContext data (Some files))
      end
  end.

End merger.

(** * Vocabulary of the specification *)

(** The list stored for [key] in the record of [k], when there is one. *)
Definition stored_list (c : CtxData) (k : ConfigKey) (key : string) : option (list string) :=
  settings c !! k ≫= λ r, lists r !! key.

(** A solution configuration contributes to the merge of [key] for [arch]
    when it belongs to [arch], resolves to a concrete (non-wildcard) key and
    the record of that key has a list for [key]: its original list. *)
Definition contributes (c : CtxData) (key : string) (arch : Arch)
    (sln_setting : ConfigKey) (original : list string) : Prop :=
  ∃ mapped_setting record,
    (sln_setting, mapped_setting) ∈ sln_configurations_map c ∧
    sln_setting.2 = arch ∧ mapped_setting.1 ≠ None ∧
    settings c !! mapped_setting = Some record ∧
    lists record !! key = Some original.

(** The same, as a function of one item of the configuration map. *)
Definition contribution (σ : gmap ConfigKey SettingsRecord) (key : string)
    (item : ConfigKey * ConfigKey) : option (list string) :=
  if decide (item.2.1 = None) then None
  else σ !! item.2 ≫= λ r : SettingsRecord, lists r !! key.

(** The contributing configurations of one architecture with their lists, in
    the order of the configuration map. *)
Definition group_of (σ : gmap ConfigKey SettingsRecord) (key : string)
    (m : list (ConfigKey * ConfigKey)) (arch : Arch) : Group :=
  omap (λ item : ConfigKey * ConfigKey,
          if decide (item.1.2 = arch)
          then pair item.1 <$> contribution σ key item else None) m.

(** The values present in every list of a group. *)
Definition common_set (g : Group) : gset string :=
  match g with
  | [] => ∅
  | e :: g' => foldl (λ (S : gset string) (e' : ConfigKey * list string),
                        S ∩ list_to_set e'.2) (list_to_set e.2) g'
  end.

(** The elements at index [i] of the lists that reach it. *)
Definition round (i : nat) (g : Group) : list string :=
  omap (λ e : ConfigKey * list string, e.2 !! i) g.

(** The round-robin candidate sequence of a group. *)
Definition candidates (g : Group) : list string :=
  mjoin ((λ i, round i g) <$> seq 0 (max_len g)).

(** Filtering a sequence to the first occurrence of each member of [S]. *)
Fixpoint first_occurrences (S : gset string) (elements : list string) : list string :=
  match elements with
  | [] => []
  | e :: rest =>
      if decide (e ∈ S) then e :: first_occurrences (S ∖ {[e]}) rest
      else first_occurrences S rest
  end.

(** [__get_common_ordered_settings] without the [break]. *)
Fixpoint common_ordered_loop_simple (arch : Arch) (elements : list string)
    (common : list string) (set_of_items : SetsOfItems)
    : result (list string * SetsOfItems) :=
  match elements with
  | [] => Ok (common, set_of_items)
  | element :: rest =>
      getitem (set_of_items !! arch) ≫= λ items : gset string,
      if decide (element ∈ items) then
        common_ordered_loop_simple arch rest (common ++ [element])
          (<[arch := items ∖ {[element]}]> set_of_items)
      else common_ordered_loop_simple arch rest common set_of_items
  end.

Definition get_common_ordered_settings_simple
    (merged_order_list_arch : list (Arch * list string))
    (set_of_items : SetsOfItems) : result (list (Arch * list string) * SetsOfItems) :=
  for_each
    (λ (st : list (Arch * list string) * SetsOfItems) (arch_list : Arch * list string),
       '(common, set_of_items) ←
         common_ordered_loop_simple arch_list.1 arch_list.2 [] st.2;
       Ok (dict_set arch_list.1 common st.1, set_of_items))
    merged_order_list_arch ([], set_of_items).

(** Well-formed input of the merger: the configuration map is a dictionary,
    every key it resolves to has a record, every solution configuration names
    an architecture, wildcard keys are reserved for common data, and a
    solution configuration with a record of its own resolves to itself. *)
Definition wf_item (σ : gmap ConfigKey SettingsRecord) (item : ConfigKey * ConfigKey) : Prop :=
  is_Some (σ !! item.2) ∧ is_Some item.1.2 ∧
  (item.1.1 = None → item.2.1 = None) ∧
  (is_Some (σ !! item.1) → item.2 = item.1).

Definition wf_ctx (c : CtxData) : Prop :=
  NoDup (sln_configurations_map c).*1 ∧
  Forall (wf_item (settings c)) (sln_configurations_map c).

#[global] Instance wf_item_dec σ item : Decision (wf_item σ item).
Proof. unfold wf_item. apply _. Defined.

#[global] Instance wf_ctx_dec c : Decision (wf_ctx c).
Proof. unfold wf_ctx. apply _. Defined.

(** The settings store after the lazy initialisation of the wildcard keys of
    the items of [pre]. *)
Definition lazy_settings (init_record : ConfigKey → SettingsRecord)
    (σ : gmap ConfigKey SettingsRecord) (pre : list (ConfigKey * ConfigKey))
    : gmap ConfigKey SettingsRecord :=
  foldl (λ (σ : gmap ConfigKey SettingsRecord) (item : ConfigKey * ConfigKey),
           if decide ((None, item.1.2) ∈ dom σ) then σ
           else <[(None, item.1.2) := init_record (None, item.1.2)]> σ) σ pre.

(** The fields the merger never touches. *)
Definition same_frame (c c' : CtxData) : Prop :=
  vcxproj_path c' = vcxproj_path c ∧
  configurations_to_parse c' = configurations_to_parse c ∧
  diagnostics c' = diagnostics c.

(** [m[s] = s] for every [s] of a list, in order. *)
Definition self_map (m : list (ConfigKey * ConfigKey)) (l : list ConfigKey)
    : list (ConfigKey * ConfigKey) :=
  foldl (λ (m : list (ConfigKey * ConfigKey)) (s : ConfigKey), dict_set s s m) m l.

(** The state of the intersection pass of [merge_data_settings] for [key]
    once the items [pre] of the configuration map of [c] are visited. *)
Definition intersection_inv (init_record : ConfigKey → SettingsRecord)
    (key : string) (c : CtxData) (pre : list (ConfigKey * ConfigKey))
    (st : CtxData * ItemsToMerge * SetsOfItems) : Prop :=
  settings st.1.1 = lazy_settings init_record (settings c) pre ∧
  sln_configurations_map st.1.1 = sln_configurations_map c ∧
  same_frame c st.1.1 ∧
  NoDup st.1.2.*1 ∧
  (∀ a : Arch, a ∈ st.1.2.*1 ↔ a ≠ None ∧ a ∈ (λ item : ConfigKey * ConfigKey, item.1.2) <$> pre) ∧
  (∀ a : Arch, a ∈ st.1.2.*1 →
     dict_get a st.1.2 = Some (group_of (settings c) key pre a)) ∧
  (∀ a : Arch, st.2 !! a =
     if decide (group_of (settings c) key pre a = []) then None
     else Some (common_set (group_of (settings c) key pre a))).

(** What the residual rewrite stores for a contributing item: its list
    without the common values of its architecture. *)
Definition residual_of (σ : gmap ConfigKey SettingsRecord) (key : string)
    (m : list (ConfigKey * ConfigKey)) (item : ConfigKey * ConfigKey) : option (list string) :=
  (λ l : list string,
     filter (λ v, v ∉ common_set (group_of σ key m item.1.2)) l) <$> contribution σ key item.

(** The record a contributing solution configuration ends up with. *)
Definition rewritten_record (σ : gmap ConfigKey SettingsRecord) (key : string)
    (m : list (ConfigKey * ConfigKey)) (x : ConfigKey) : option SettingsRecord :=
  M ← dict_get x m;
  r ← σ !! M;
  l ← residual_of σ key m (x, M);
  Some (set_list key l r).

(** The configuration map in which the keys of [D] resolve to themselves. *)
Definition mark (D : gset ConfigKey) (m : list (ConfigKey * ConfigKey))
    : list (ConfigKey * ConfigKey) :=
  (λ item : ConfigKey * ConfigKey,
     if decide (item.1 ∈ D) then (item.1, item.1) else item) <$> m.

(** The state of the residual rewrite once the contributing configurations
    of [D] are rewritten. *)
Definition remove_inv (init_record : ConfigKey → SettingsRecord) (key : string)
    (c : CtxData) (D : gset ConfigKey) (c2 : CtxData) : Prop :=
  sln_configurations_map c2 = mark D (sln_configurations_map c) ∧
  same_frame c c2 ∧
  (∀ x : ConfigKey, x ∈ D →
     is_Some (rewritten_record (settings c) key (sln_configurations_map c) x)) ∧
  (∀ x : ConfigKey, settings c2 !! x =
     if decide (x ∈ D)
     then rewritten_record (settings c) key (sln_configurations_map c) x
     else lazy_settings init_record (settings c) (sln_configurations_map c) !! x).

(** The solution configurations of the groups of a dictionary of groups. *)
Definition group_keys (l : ItemsToMerge) : gset ConfigKey :=
  ⋃ ((λ ag : Arch * Group, list_to_set ag.2.*1) <$> l).

(** The architectures of the solution configurations, in order. *)
Definition archs (m : list (ConfigKey * ConfigKey)) : list Arch :=
  (λ item : ConfigKey * ConfigKey, item.1.2) <$> m.

(** The common list of an architecture: the common values in the order of
    their first occurrence in the round-robin candidate sequence. *)
Definition common_list (σ : gmap ConfigKey SettingsRecord) (key : string)
    (m : list (ConfigKey * ConfigKey)) (a : Arch) : list string :=
  first_occurrences (common_set (group_of σ key m a)) (candidates (group_of σ key m a)).

Definition wildcard_keys (A : list Arch) : list ConfigKey :=
  (λ a : Arch, (None, a)) <$> A.

(** The settings store after one pass of the merger for [key]. *)
Definition merged_lookup (init_record : ConfigKey → SettingsRecord)
    (σ : gmap ConfigKey SettingsRecord) (key : string)
    (m : list (ConfigKey * ConfigKey)) (x : ConfigKey) : option SettingsRecord :=
  if decide (x.1 = None ∧ x.2 ≠ None ∧ x.2 ∈ archs m)
  then Some (set_list key (common_list σ key m x.2) (default (init_record x) (σ !! x)))
  else match rewritten_record σ key m x with
       | Some r => Some r
       | None => σ !! x
       end.

(** What one pass of the merger for [key] makes of a well-formed context. *)
Definition pass_post (init_record : ConfigKey → SettingsRecord) (key : string)
    (c c' : CtxData) : Prop :=
  ∃ (D : gset ConfigKey) (A : list Arch),
    sln_configurations_map c' =
      self_map (mark D (sln_configurations_map c)) (wildcard_keys A) ∧
    NoDup A ∧
    (∀ a, a ∈ A ↔ a ≠ None ∧ a ∈ archs (sln_configurations_map c)) ∧
    (∀ x, x ∈ D ↔ ∃ (M : ConfigKey) (l : list string),
            (x, M) ∈ sln_configurations_map c ∧
            contribution (settings c) key (x, M) = Some l) ∧
    same_frame c c' ∧
    ∀ x : ConfigKey,
      settings c' !! x =
      merged_lookup init_record (settings c) key (sln_configurations_map c) x.

(** The list that a solution configuration brings to the merge of [key]:
    the list of the record it resolves to, unless that is a wildcard. *)
Definition resolved_list (c : CtxData) (s : ConfigKey) (key : string) : option (list string) :=
  M ← dict_get s (sln_configurations_map c);
  contribution (settings c) key (s, M).

(** A context is in merged form for [key] when the contributing
    configurations resolve to themselves and, per architecture, share no
    value. *)
Definition merged_form (c : CtxData) (key : string) : Prop :=
  (∀ s : ConfigKey, is_Some (resolved_list c s key) →
     dict_get s (sln_configurations_map c) = Some s) ∧
  (∀ (a : Arch) (v : string),
     (∃ s : ConfigKey, s.2 = a ∧ is_Some (resolved_list c s key)) →
     ¬ ∀ (s : ConfigKey) (l : list string),
         s.2 = a → resolved_list c s key = Some l → v ∈ l).

(** The wildcard key of every architecture of the map resolves to itself. *)
Definition wild_closed (c : CtxData) : Prop :=
  ∀ a : Arch, a ≠ None → a ∈ archs (sln_configurations_map c) →
    dict_get ((None, a) : ConfigKey) (sln_configurations_map c) = Some (None, a).

(** The fields of a context and its per-file contexts. *)
Definition data (context : Context) : CtxData :=
  match context with mkContext d _ => d end.

Definition file_contexts (context : Context) : option (list (string * Context)) :=
  match context with mkContext _ f => f end.

(** Well-formedness of a context and of all its per-file contexts. *)
Fixpoint wf_context (context : Context) : Prop :=
  match context with
  | mkContext d files =>
      wf_ctx d ∧
      match files with
      | None => True
      | Some fs =>
          (fix all (fs : list (string * Context)) : Prop :=
             match fs with
             | [] => True
             | (_, fc) :: rest => wf_context fc ∧ all rest
             end) fs
      end
  end.


(** Every non-wildcard configuration declares an output-binary type. *)
Definition types_declared (s : gmap ConfigKey SettingsRecord) : Prop :=
  ∀ (k : ConfigKey) (r : SettingsRecord),
    s !! k = Some r → has_none k = false → is_Some (target_type r).

#[global] Instance types_declared_dec s : Decision (types_declared s).
Proof.
  refine (cast_if (decide (map_Forall
            (λ (k : ConfigKey) (r : SettingsRecord),
               has_none k = false → is_Some (target_type r)) s)));
    unfold types_declared, map_Forall in *; auto.
Defined.


(** * Example contexts *)

Definition debug_x64 : ConfigKey := (Some "Debug", Some "x64").
Definition release_x64 : ConfigKey := (Some "Release", Some "x64").
Definition profile_x64 : ConfigKey := (Some "Profile", Some "x64").
Definition wildcard_x64 : ConfigKey := (None, Some "x64").

Definition record_of (t : string) (ls : list (string * list string)) : SettingsRecord :=
  mkRecord (Some t) (list_to_map ls).

(** A baseline record without lists. *)
Definition baseline (k : ConfigKey) : SettingsRecord := mkRecord None ∅.

(** Two configurations of one architecture with the lists of the scenario
    of the specification. *)
Definition scenario_context : CtxData :=
  mkCtx "project.vcxproj"
    {[ debug_x64 := record_of "Application" [("defines", ["X"; "Y"; "Z"])];
       release_x64 := record_of "Application" [("defines", ["Y"; "X"; "W"])] ]}
    [(debug_x64, debug_x64); (release_x64, release_x64)]
    {[ debug_x64; release_x64 ]}
    (None, None) [].

(** Two solution configurations that resolve to each other's record: the
    solution builds the project's Release configuration as its Debug one and
    the other way round. *)
Definition crossed_context : CtxData :=
  mkCtx "project.vcxproj"
    {[ debug_x64 := record_of "Application" [("defines", ["A"]); ("cl_flags", ["D"])];
       release_x64 := record_of "Application" [("defines", ["A"]); ("cl_flags", ["B"])] ]}
    [(debug_x64, release_x64); (release_x64, debug_x64)]
    {[ debug_x64; release_x64 ]}
    (None, None) [].

(** Three requested configurations, one of which has no record. *)
Definition pruning_context : CtxData :=
  mkCtx "project.vcxproj"
    {[ debug_x64 := record_of "Application" [];
       profile_x64 := record_of "Application" [] ]}
    []
    {[ debug_x64; release_x64; profile_x64 ]}
    (None, None) [].

(** * The properties the specification states of the merger *)

(** The common list of [key] under the wildcard key of [arch] holds exactly
    the values of every contributing list, once each, and each contributing
    configuration keeps its list without them. *)
Definition hoisting_property (c c' : CtxData) (key : string) (arch : Arch) : Prop :=
  ∃ common : list string,
    stored_list c' (None, arch) key = Some common ∧
    NoDup common ∧
    (∀ v, v ∈ common ↔ ∀ s l, contributes c key arch s l → v ∈ l) ∧
    (∀ s l, contributes c key arch s l →
       ∃ residual : list string,
         stored_list c' s key = Some residual ∧
         residual = filter (λ v, v ∉ common) l ∧
         (list_to_set common ∪ list_to_set residual : gset string) = list_to_set l).

Definition merge_hoists (keys : list string) (init_record : ConfigKey → SettingsRecord)
    (context : Context) : Prop :=
  ∀ context', merge_data_settings keys init_record context = Ok context' →
    ∀ key arch, key ∈ keys →
      (∃ s l, contributes (data context) key arch s l) →
      hoisting_property (data context) (data context') key arch.

(** Where the contributing lists of [arch] share no value: the common list
    is empty, the residual lists are the original ones, and the records that
    the store held under the concrete keys of [arch] keep their list. *)
Definition nothing_hoisted (c c' : CtxData) (key : string) (arch : Arch) : Prop :=
  stored_list c' (None, arch) key = Some [] ∧
  (∀ s l, contributes c key arch s l → stored_list c' s key = Some l) ∧
  (∀ (x : ConfigKey) (r : SettingsRecord),
     x.1 ≠ None → x.2 = arch → settings c !! x = Some r →
     stored_list c' x key = lists r !! key).

Definition merge_keeps_unshared (keys : list string)
    (init_record : ConfigKey → SettingsRecord) (context : Context) : Prop :=
  ∀ context', merge_data_settings keys init_record context = Ok context' →
    ∀ key arch, key ∈ keys →
      (∃ s l, contributes (data context) key arch s l) →
      (∀ v, ¬ ∀ s l, contributes (data context) key arch s l → v ∈ l) →
      nothing_hoisted (data context) (data context') key arch.

(** A second run changes neither the settings store nor the configuration map. *)
Definition rerun_unchanged (keys : list string)
    (init_record : ConfigKey → SettingsRecord) (context : Context) : Prop :=
  ∀ context1 context2,
    merge_data_settings keys init_record context = Ok context1 →
    merge_data_settings keys init_record context1 = Ok context2 →
    settings (data context2) = settings (data context1) ∧
    sln_configurations_map (data context2) = sln_configurations_map (data context1).

(** Two configurations of one architecture that share no value. *)
Definition unshared_context : CtxData :=
  mkCtx "project.vcxproj"
    {[ debug_x64 := record_of "Application" [("defines", ["D"])];
       profile_x64 := record_of "Application" [("defines", ["E"])] ]}
    [(debug_x64, debug_x64); (profile_x64, profile_x64)]
    {[ debug_x64; profile_x64 ]}
    (None, None) [].

(** Two runs end alike: both return, with related results, or both raise the
    same exception. *)
Definition same_outcome {A : Type} (R : A → A → Prop) (r1 r2 : result A) : Prop :=
  match r1, r2 with
  | Ok a1, Ok a2 => R a1 a2
  | Raise e1, Raise e2 => e1 = e2
  | _, _ => False
  end.


(** * Further example contexts *)

(** A context whose only record has no ['target_type'] entry. *)
Definition untyped_context : CtxData :=
  mkCtx "project.vcxproj"
    {[ debug_x64 := mkRecord None ∅ ]}
    [(debug_x64, debug_x64)] {[ debug_x64; release_x64 ]} (None, None) [].

(** Every occurrence of [w] in a list comes after an occurrence of [v]. *)
Definition before (v w : string) (l : list string) : Prop :=
  ∀ l1 l2 : list string, l = l1 ++ w :: l2 → v ∈ l1.

(** Two configurations of one architecture whose lists hold the shared
    values in one and the same order. *)
Definition ordered_context : CtxData :=
  mkCtx "project.vcxproj"
    {[ debug_x64 := record_of "Application" [("defines", ["A"; "B"; "D"])];
       release_x64 := record_of "Application" [("defines", ["E"; "A"; "B"])] ]}
    [(debug_x64, debug_x64); (release_x64, release_x64)]
    {[ debug_x64; release_x64 ]}
    (None, None) [].

(** One configuration, whose list repeats a value. *)
Definition single_context : CtxData :=
  mkCtx "project.vcxproj"
    {[ debug_x64 := record_of "Application" [("defines", ["X"; "Y"; "X"])] ]}
    [(debug_x64, debug_x64)]
    {[ debug_x64 ]}
    (None, None) [].

(** A solution configuration that resolves to a key without a record. *)
Definition dangling_context : CtxData :=
  mkCtx "project.vcxproj"
    {[ debug_x64 := record_of "Application" [("defines", ["X"])] ]}
    [(debug_x64, release_x64)]
    {[ debug_x64 ]}
    (None, None) [].

(** Two solution configurations that resolve to one and the same record,
    stored under a key that is no solution configuration itself. *)
Definition base_x64 : ConfigKey := (Some "Base", Some "x64").

Definition shared_context : CtxData :=
  mkCtx "project.vcxproj"
    {[ base_x64 := record_of "Application" [("defines", ["X"; "Y"])] ]}
    [(debug_x64, base_x64); (release_x64, base_x64)]
    {[ base_x64 ]}
    (None, None) [].

(** A context with one per-file context. *)
Definition nested_context : Context :=
  mkContext scenario_context (Some [("main.cpp", mkContext ordered_context None)]).

(** Two configurations of one architecture, one of which has no list for
    the key. *)
Definition partial_context : CtxData :=
  mkCtx "project.vcxproj"
    {[ debug_x64 := record_of "Application" [("defines", ["X"])];
       release_x64 := record_of "Application" [] ]}
    [(debug_x64, debug_x64); (release_x64, release_x64)]
    {[ debug_x64; release_x64 ]}
    (None, None) [].

(** The record that [__update_settings_at_context] works on: the
    configuration's own record or, failing that, the record it resolves to. *)
Definition effective_record (c : CtxData) (sln_setting : ConfigKey) : option SettingsRecord :=
  match settings c !! sln_setting with
  | Some r => Some r
  | None => dict_get sln_setting (sln_configurations_map c) ≫= λ M, settings c !! M
  end.

(** * The target-type check as the specification states it *)




(** * Writers of the root CMake file *)

(** A file opened for writing is the sequence of the strings written to it,
    in the order of the [write] calls; its text is their concatenation. *)
Abbreviation CMakeFile := (list string).

Definition file_text (cmake_file : CMakeFile) : string :=
  foldr String.append EmptyString cmake_file.

(** The double quote and the line feed. *)
Definition dq : string := String (Ascii.ascii_of_nat 34) EmptyString.
Definition nl : string := String (Ascii.ascii_of_nat 10) EmptyString.

(** [list.sort()] and [sorted] on strings: Python compares strings by code
    point, which on UTF-8 encoded strings is the order of their bytes. *)
Definition sort_strings (l : list string) : list string := merge_sort String.le l.

(** [__write_supported_architectures_check]; [arch_list] is
    [list(context.supported_architectures)], in whatever order the collection
    yields its elements, [indent] is [context.indent]. *)
Definition platform_clause (arch : string) : string :=
  dq +:+ "${CMAKE_VS_PLATFORM_NAME}" +:+ dq +:+ " STREQUAL " +:+ dq +:+ arch +:+ dq.

Fixpoint write_architecture_clauses (indent : string) (first : bool) (arch_list : list string)
    (cmake_file : CMakeFile) : CMakeFile :=
  match arch_list with
  | [] => cmake_file
  | arch :: rest =>
      if first
      then write_architecture_clauses indent false rest (cmake_file ++ [platform_clause arch])
      else write_architecture_clauses indent false rest
             (cmake_file ++ [nl +:+ indent +:+ " OR " +:+ platform_clause arch])
  end.

Definition write_supported_architectures_check (indent : string) (arch_list : list string)
    (cmake_file : CMakeFile) : CMakeFile :=
  let arch_list := sort_strings arch_list in
  let cmake_file := cmake_file ++ ["if(NOT ("] in
  let cmake_file := write_architecture_clauses indent true arch_list cmake_file in
  let cmake_file := cmake_file ++ ["))" +:+ nl] in
  let cmake_file :=
    cmake_file ++ [indent +:+ "message(FATAL_ERROR " +:+ dq +:+
                   "${CMAKE_VS_PLATFORM_NAME} arch is not supported!" +:+ dq +:+ ")" +:+ nl] in
  cmake_file ++ ["endif()" +:+ nl +:+ nl].

Section root_writers.
(** [context.indent]; the built-in [str.upper]; and the strings that
    [utils.write_comment], which lives outside the sources at hand, writes to
    the file for a comment text. *)
Variable indent : string.
Variable upper : string → string.
Variable write_comment : string → list string.

(** [__write_global_compile_options_language] *)
Definition write_global_compile_options_language (configuration_types_list : list string)
    (lang : string) (root_cmake : CMakeFile) : CMakeFile :=
  let root_cmake :=
    root_cmake ++ [indent +:+ "set(CMAKE_" +:+ lang +:+ "_FLAGS " +:+ dq +:+ dq +:+ ")" +:+ nl] in
  foldl
    (λ (root_cmake : CMakeFile) (configuration_type : string),
       root_cmake ++ [indent +:+ "set(CMAKE_" +:+ lang +:+ "_FLAGS_" +:+
                      upper configuration_type +:+ " " +:+ dq +:+ dq +:+ ")" +:+ nl])
    root_cmake configuration_types_list.

(** [__write_global_compile_options]; [solution_languages] is the collection
    [root_context.solution_languages] as [sorted] receives it. *)
Definition write_global_compile_options (solution_languages : list string)
    (configuration_types_list : list string) (root_cmake : CMakeFile) : CMakeFile :=
  let root_cmake := root_cmake ++ write_comment "Global compiler options" in
  let root_cmake := root_cmake ++ ["if(MSVC)" +:+ nl] in
  let root_cmake :=
    root_cmake ++ [indent +:+ "# remove default flags provided with CMake for MSVC" +:+ nl] in
  let '(root_cmake, have_fortran) :=
    foldl
      (λ (st : CMakeFile * bool) (lang : string),
         if decide (lang = "Fortran") then (st.1, true)
         else (write_global_compile_options_language configuration_types_list lang st.1, st.2))
      (root_cmake, false) (sort_strings solution_languages) in
  let root_cmake := root_cmake ++ ["endif()" +:+ nl +:+ nl] in
  if have_fortran then
    let root_cmake :=
      root_cmake ++ ["if(${CMAKE_Fortran_COMPILER_ID} STREQUAL " +:+ dq +:+ "Intel" +:+ dq +:+
                     ")" +:+ nl] in
    let root_cmake :=
      root_cmake ++ [indent +:+ "# remove default flags provided with CMake for ifort" +:+ nl] in
    let root_cmake :=
      write_global_compile_options_language configuration_types_list "Fortran" root_cmake in
    root_cmake ++ ["endif()" +:+ nl +:+ nl]
  else root_cmake.
End root_writers.

(** ['.' in subdirectory[:1]]: the first character is a dot. *)
Definition starts_with_dot (subdirectory : string) : bool :=
  match subdirectory with
  | String c _ => bool_decide (c = Ascii.ascii_of_nat 46)
  | EmptyString => false
  end.

Section subdirectory_writer.
(** The built-in [str.lower]; [utils.set_unix_slash] and the strings that
    [utils.write_comment] writes, both outside the sources at hand. *)
Variable lower : string → string.
Variable set_unix_slash : string → string.
Variable write_comment : string → list string.

(** [list.sort(key=str.lower)]: the sort is stable, so that elements with
    equal keys keep the order they had. Elements are inserted from the last
    to the first, each before the first element whose key is not smaller. *)
Fixpoint insert_by_key (x : string) (l : list string) : list string :=
  match l with
  | [] => [x]
  | y :: l' =>
      if decide (String.le (lower x) (lower y)) then x :: y :: l'
      else y :: insert_by_key x l'
  end.

Definition sort_by_key (l : list string) : list string := foldr insert_by_key [] l.


(** The text of [binary_dir] for a subdirectory. *)
Definition binary_dir (subdirectories_to_project_name : gmap string string)
    (subdirectory : string) : result string :=
  if starts_with_dot subdirectory then
    name ← getitem (subdirectories_to_project_name !! subdirectory);
    Ok (" ${CMAKE_BINARY_DIR}/" +:+ name)
  else Ok EmptyString.

(** The loop of [__write_subdirectories]; what was written before an
    exception stays written. *)
Fixpoint write_subdirectory_lines (subdirectories : list string)
    (subdirectories_to_project_name : gmap string string) (root_cmake : CMakeFile)
    : CMakeFile * result unit :=
  match subdirectories with
  | [] => (root_cmake, Ok ())
  | subdirectory :: rest =>
      match binary_dir subdirectories_to_project_name subdirectory with
      | Raise e => (root_cmake, Raise e)
      | Ok dir =>
          write_subdirectory_lines rest subdirectories_to_project_name
            (root_cmake ++ ["add_subdirectory(" +:+ set_unix_slash subdirectory +:+ dir +:+
                            ")" +:+ nl])
      end
  end.

(** The line written for a subdirectory that has the project name it needs. *)
Definition subdirectory_line (subdirectories_to_project_name : gmap string string)
    (subdirectory : string) : string :=
  "add_subdirectory(" +:+ set_unix_slash subdirectory +:+
  (if starts_with_dot subdirectory
   then " ${CMAKE_BINARY_DIR}/" +:+
        default EmptyString (subdirectories_to_project_name !! subdirectory)
   else EmptyString) +:+ ")" +:+ nl.

(** A subdirectory whose name starts with a dot has a project name. *)
Definition named (subdirectories_to_project_name : gmap string string)
    (subdirectory : string) : Prop :=
  starts_with_dot subdirectory = true → is_Some (subdirectories_to_project_name !! subdirectory).

(** [__write_subdirectories]; [subdirectories] is [list(subdirectories_set)].
    The line feed after the loop is written when the loop has not raised. *)
Definition write_subdirectories (root_cmake : CMakeFile) (subdirectories : list string)
    (subdirectories_to_project_name : gmap string string) : CMakeFile * result unit :=
  let root_cmake := root_cmake ++ write_comment "Sub-projects" in
  match write_subdirectory_lines (sort_by_key subdirectories) subdirectories_to_project_name
          root_cmake with
  | (root_cmake, Ok _) => (root_cmake ++ [nl], Ok ())
  | (root_cmake, Raise e) => (root_cmake, Raise e)
  end.
End subdirectory_writer.

(** * The merger over containers with an iteration order

    The embedding above takes a Python [set] as a finite set, and the
    settings store and its records as finite maps: containers without an
    iteration order. The embedding of this module reads the same source lines
    over containers that have one: a [set] is the sequence in which iterating
    it yields its elements, the order of a hash function on strings, which
    differs from one run of the interpreter to the next; a dictionary, the
    settings store and its records included, is the sequence of its items in
    insertion order. *)
Module Hashed.

Abbreviation PySet := (list string).
Abbreviation SetsOfItems := (list (Arch * list string)).

Record SettingsRecord := mkRecord {
  target_type : option string;
  lists : list (string * list string)
}.

(** [record[key] = value] for a list-valued key. *)
Definition set_list (key : string) (l : list string) (r : SettingsRecord) : SettingsRecord :=
  {| target_type := target_type r; lists := dict_set key l (lists r) |}.

Record CtxData := mkCtx {
  vcxproj_path : string;
  settings : list (ConfigKey * SettingsRecord);
  sln_configurations_map : list (ConfigKey * ConfigKey);
  configurations_to_parse : list ConfigKey;
  current_setting : ConfigKey;
  diagnostics : list diagnostic
}.

#[warnings="-register-all"]
Inductive Context :=
  | mkContext (data : CtxData) (file_contexts : option (list (string * Context))).

Definition data (context : Context) : CtxData :=
  match context with mkContext d _ => d end.

Definition file_contexts (context : Context) : option (list (string * Context)) :=
  match context with mkContext _ f => f end.

Definition with_settings (s : list (ConfigKey * SettingsRecord)) (c : CtxData) : CtxData :=
  {| vcxproj_path := vcxproj_path c; settings := s;
     sln_configurations_map := sln_configurations_map c;
     configurations_to_parse := configurations_to_parse c;
     current_setting := current_setting c; diagnostics := diagnostics c |}.

Definition with_map (m : list (ConfigKey * ConfigKey)) (c : CtxData) : CtxData :=
  {| vcxproj_path := vcxproj_path c; settings := settings c;
     sln_configurations_map := m;
     configurations_to_parse := configurations_to_parse c;
     current_setting := current_setting c; diagnostics := diagnostics c |}.

Definition with_current (k : ConfigKey) (c : CtxData) : CtxData :=
  {| vcxproj_path := vcxproj_path c; settings := settings c;
     sln_configurations_map := sln_configurations_map c;
     configurations_to_parse := configurations_to_parse c;
     current_setting := k; diagnostics := diagnostics c |}.

(** The list stored for [key] in the record of [k], when there is one. *)
Definition stored_list (c : CtxData) (k : ConfigKey) (key : string) : option (list string) :=
  dict_get k (settings c) ≫= λ r, dict_get key (lists r).

Section layout.
(** The hash function of the run. *)
Variable hash : string → N.

(** [s.add(x)]: a new element takes its place in the order of the hash
    values, after the elements it collides with. *)
Fixpoint insert_by_hash (x : string) (s : PySet) : PySet :=
  match s with
  | [] => [x]
  | y :: s' => if (hash x <? hash y)%N then x :: s else y :: insert_by_hash x s'
  end.

Definition set_add (x : string) (s : PySet) : PySet :=
  if decide (x ∈ s) then s else insert_by_hash x s.

(** [set(l)] *)
Definition set_of_list (l : list string) : PySet :=
  foldl (λ (s : PySet) (x : string), set_add x s) [] l.

(** [s.intersection(t)]: a new set of the elements of [s] that [t] has. *)
Definition set_intersection (s t : PySet) : PySet :=
  set_of_list (filter (λ x, x ∈ t) s).

(** [s.remove(x)] for an element of [s]. *)
Definition set_remove (x : string) (s : PySet) : PySet :=
  filter (λ y, y ≠ x) s.

Variable lists_of_settings_to_merge : list string.
Variable init_record : ConfigKey → SettingsRecord.

(** Modelled from the spec: the hook [utils.init_context_current_setting],
    which is not part of the sources at hand; given the new wildcard key in
    [context.current_setting] it stores a baseline record under it. *)
Definition init_context_current_setting (c : CtxData) : CtxData :=
  with_settings
    (dict_set (current_setting c) (init_record (current_setting c)) (settings c)) c.

(** Body of the "get intersection pass" loop of [merge_data_settings]. *)
Definition intersection_step (key : string)
    (st : CtxData * ItemsToMerge * SetsOfItems)
    (item : ConfigKey * ConfigKey) : result (CtxData * ItemsToMerge * SetsOfItems) :=
  let '(c, lists_of_items_to_merge, set_of_items) := st in
  let '(sln_setting, mapped_setting) := item in
  let mapped_arch := sln_setting.2 in
  let lists_of_items_to_merge :=
    if decide (mapped_arch ≠ None ∧ mapped_arch ∉ lists_of_items_to_merge.*1)
    then dict_set mapped_arch [] lists_of_items_to_merge
    else lists_of_items_to_merge in
  let c :=
    if decide ((None, mapped_arch) ∉ (settings c).*1)
    then init_context_current_setting (with_current (None, mapped_arch) c)
    else c in
  record ← getitem (dict_get mapped_setting (settings c));
  match dict_get key (lists record) with
  | None => Ok (c, lists_of_items_to_merge, set_of_items)
  | Some settings_list =>
      if decide (mapped_setting.1 = None)
      then Ok (c, lists_of_items_to_merge, set_of_items)
      else
        group ← getitem (dict_get mapped_arch lists_of_items_to_merge);
        let set_of_items :=
          if decide (group = [])
          then dict_set mapped_arch (set_of_list settings_list) set_of_items
          else set_of_items in
        let lists_of_items_to_merge :=
          dict_set mapped_arch (dict_set sln_setting settings_list group)
            lists_of_items_to_merge in
        getitem (dict_get mapped_arch set_of_items) ≫= λ items : PySet,
        Ok (c, lists_of_items_to_merge,
            dict_set mapped_arch (set_intersection items (set_of_list settings_list))
              set_of_items)
  end.

(** [__update_settings_at_context] *)
Definition update_settings_at_context (c : CtxData) (sln_setting : ConfigKey)
    (key : string) (settings_to_set : list string) : result CtxData :=
  c ← (if decide (sln_setting ∉ (settings c).*1) then
         mapped ← getitem (dict_get sln_setting (sln_configurations_map c));
         record ← getitem (dict_get mapped (settings c));
         Ok (with_settings (dict_set sln_setting record (settings c)) c)
       else Ok c);
  let c := with_map (dict_set sln_setting sln_setting (sln_configurations_map c)) c in
  record ← getitem (dict_get sln_setting (settings c));
  Ok (with_settings (dict_set sln_setting (set_list key settings_to_set record) (settings c)) c).

(** The list comprehension loop of [__remove_common_settings_from_context]. *)
Definition result_settings_list (set_of_items : SetsOfItems) (arch : Arch)
    (elements : list string) : result (list string) :=
  for_each
    (λ (acc : list string) (element : string),
       getitem (dict_get arch set_of_items) ≫= λ items : PySet,
       Ok (if decide (element ∈ items) then acc else acc ++ [element]))
    elements [].

(** [__remove_common_settings_from_context] *)
Definition remove_common_settings_from_context (c : CtxData)
    (lists_of_items_to_merge : ItemsToMerge) (set_of_items : SetsOfItems)
    (key : string) : result CtxData :=
  for_each
    (λ (c : CtxData) (arch_group : Arch * Group),
       for_each
         (λ (c : CtxData) (entry : ConfigKey * list string),
            l ← result_settings_list set_of_items arch_group.1 entry.2;
            update_settings_at_context c entry.1 key l)
         arch_group.2 c)
    lists_of_items_to_merge c.

(** The [for element in merged_order_list] loop of
    [__get_common_ordered_settings], with its [break]. *)
Fixpoint common_ordered_loop (arch : Arch) (elements : list string)
    (common : list string) (set_of_items : SetsOfItems)
    : result (list string * SetsOfItems) :=
  match elements with
  | [] => Ok (common, set_of_items)
  | element :: rest =>
      getitem (dict_get arch set_of_items) ≫= λ items : PySet,
      if decide (element ∈ items) then
        let common := common ++ [element] in
        let set_of_items := dict_set arch (set_remove element items) set_of_items in
        if decide (set_of_items = []) then Ok (common, set_of_items)
        else common_ordered_loop arch rest common set_of_items
      else common_ordered_loop arch rest common set_of_items
  end.

(** [__get_common_ordered_settings] *)
Definition get_common_ordered_settings (merged_order_list_arch : list (Arch * list string))
    (set_of_items : SetsOfItems) : result (list (Arch * list string) * SetsOfItems) :=
  for_each
    (λ (st : list (Arch * list string) * SetsOfItems) (arch_list : Arch * list string),
       '(common, set_of_items) ← common_ordered_loop arch_list.1 arch_list.2 [] st.2;
       Ok (dict_set arch_list.1 common st.1, set_of_items))
    merged_order_list_arch ([], set_of_items).

(** The last loop of the body: the common list goes under the wildcard key. *)
Definition commit_merged_settings (key : string) (c : CtxData)
    (arch_list : Arch * list string) : result CtxData :=
  let '(arch, merged_setting) := arch_list in
  record ← getitem (dict_get (None, arch) (settings c));
  let c := with_settings (dict_set (None, arch) (set_list key merged_setting record) (settings c)) c in
  Ok (with_map (dict_set (None, arch) (None, arch) (sln_configurations_map c)) c).

(** Body of [for key in context.utils.lists_of_settings_to_merge()];
    [__get_order_of_common_settings] works on lists only and is the function
    of the first embedding. *)
Definition merge_key (c : CtxData) (key : string) : result CtxData :=
  '(c, lists_of_items_to_merge, set_of_items) ←
    for_each (intersection_step key) (sln_configurations_map c) (c, [], []);
  c ← remove_common_settings_from_context c lists_of_items_to_merge set_of_items key;
  merged_order_lists ← get_order_of_common_settings lists_of_items_to_merge;
  merged_settings ← get_common_ordered_settings merged_order_lists set_of_items;
  for_each (commit_merged_settings key) merged_settings.1 c.

Definition merge_keys (c : CtxData) : result CtxData :=
  for_each merge_key lists_of_settings_to_merge c.

(** [merge_data_settings], with the recursion into the per-file contexts. *)
Fixpoint merge_data_settings (context : Context) : result Context :=
  match context with
  | mkContext data file_contexts =>
      data ← merge_keys data;
      match file_contexts with
      | None => Ok (mkContext data None)
      | Some files =>
          files ←
            (fix merge_files (fs : list (string * Context)) : result (list (string * Context)) :=
               match fs with
               | [] => Ok []
               | (file, fc) :: rest =>
                   fc ← merge_data_settings fc;
                   rest ← merge_files rest;
                   Ok ((file, fc) :: rest)
               end) files;
          Ok (mkContext data (Some files))
      end
  end.

End layout.
End Hashed.

(** ** What the containers hold

    The content of the containers of the second embedding, their iteration
    order forgotten: the values of the first embedding. *)
Definition record_content (r : Hashed.SettingsRecord) : SettingsRecord :=
  mkRecord (Hashed.target_type r) (list_to_map (Hashed.lists r)).

Definition store_content (s : list (ConfigKey * Hashed.SettingsRecord))
    : gmap ConfigKey SettingsRecord :=
  record_content <$> (list_to_map s : gmap ConfigKey Hashed.SettingsRecord).

Definition sets_content (s : Hashed.SetsOfItems) : SetsOfItems :=
  (list_to_set : list string → gset string) <$> (list_to_map s : gmap Arch (list string)).

Definition data_content (c : Hashed.CtxData) : CtxData :=
  mkCtx (Hashed.vcxproj_path c) (store_content (Hashed.settings c))
    (Hashed.sln_configurations_map c) (list_to_set (Hashed.configurations_to_parse c))
    (Hashed.current_setting c) (Hashed.diagnostics c).

Fixpoint content (context : Hashed.Context) : Context :=
  match context with
  | Hashed.mkContext data file_contexts =>
      mkContext (data_content data)
        ((fix files_content (fs : list (string * Hashed.Context)) : list (string * Context) :=
            match fs with
            | [] => []
            | (file, fc) :: rest => (file, content fc) :: files_content rest
            end) <$> file_contexts)
  end.

(** The state of the intersection pass. *)
Definition state_content (st : Hashed.CtxData * ItemsToMerge * Hashed.SetsOfItems)
    : CtxData * ItemsToMerge * SetsOfItems :=
  (data_content st.1.1, st.1.2, sets_content st.2).

(** The state of the loops of [__get_common_ordered_settings]. *)
Definition loop_content (st : list string * Hashed.SetsOfItems) : list string * SetsOfItems :=
  (st.1, sets_content st.2).

Definition commons_content (st : list (Arch * list string) * Hashed.SetsOfItems)
    : list (Arch * list string) * SetsOfItems :=
  (st.1, sets_content st.2).

Definition result_map {A B : Type} (f : A → B) (r : result A) : result B :=
  match r with Ok a => Ok (f a) | Raise e => Raise e end.

(** Two contexts of the second embedding hold the same content: the same
    records with the same lists under the same keys of the store, whatever
    the order in which store and records were filled, the same configuration
    map in the same order, and per-file contexts that hold the same content
    under the same names. *)
Definition same_content (context1 context2 : Hashed.Context) : Prop :=
  content context1 = content context2.

(** Two runs of the merger end alike: both return, and the contexts they
    return hold the same content, the same configuration map and the same
    list under every key of every record of the store, or both raise the same
    exception. *)
Definition same_merge_outcome (r1 r2 : result Hashed.Context) : Prop :=
  same_outcome
    (λ t1 t2 : Hashed.Context,
       same_content t1 t2 ∧
       Hashed.sln_configurations_map (Hashed.data t1)
         = Hashed.sln_configurations_map (Hashed.data t2) ∧
       ∀ (k : ConfigKey) (key : string),
         Hashed.stored_list (Hashed.data t1) k key
           = Hashed.stored_list (Hashed.data t2) k key)
    r1 r2.

(** Two hash functions that order the strings of the scenario in opposite
    ways. *)
Definition first_char_hash (s : string) : N :=
  match s with
  | EmptyString => 0%N
  | String a _ => Ascii.N_of_ascii a
  end.

Definition opposite_hash (s : string) : N := (255 - first_char_hash s)%N.

(** The scenario of the specification, with the store and the records filled
    in one order and in the other. *)
Definition hashed_scenario : Hashed.Context :=
  Hashed.mkContext
    (Hashed.mkCtx "project.vcxproj"
       [(debug_x64, Hashed.mkRecord (Some "Application")
                      [("defines", ["X"; "Y"; "Z"]); ("cl_flags", ["/W4"])]);
        (release_x64, Hashed.mkRecord (Some "Application")
                        [("defines", ["Y"; "X"; "W"]); ("cl_flags", ["/W4"; "/O2"])])]
       [(debug_x64, debug_x64); (release_x64, release_x64)]
       [debug_x64; release_x64] (None, None) [])
    None.

Definition hashed_scenario_refilled : Hashed.Context :=
  Hashed.mkContext
    (Hashed.mkCtx "project.vcxproj"
       [(release_x64, Hashed.mkRecord (Some "Application")
                        [("cl_flags", ["/W4"; "/O2"]); ("defines", ["Y"; "X"; "W"])]);
        (debug_x64, Hashed.mkRecord (Some "Application")
                      [("cl_flags", ["/W4"]); ("defines", ["X"; "Y"; "Z"])])]
       [(debug_x64, debug_x64); (release_x64, release_x64)]
       [release_x64; debug_x64] (None, None) [])
    None.

Definition hashed_baseline (k : ConfigKey) : Hashed.SettingsRecord := Hashed.mkRecord None [].

(** * Facts about the containers *)

Section dict_facts.
Context {K V : Type} `{EqDecision K}.
Implicit Types (d : list (K * V)) (k : K) (v : V).

Lemma dict_get_None k d : dict_get k d = None ↔ k ∉ d.*1.
Proof.
  induction d as [|[k' v'] d IH]; csimpl.
  - split; [intros _; apply not_elem_of_nil | done].
  - rewrite not_elem_of_cons. destruct (decide (k = k')); [|tauto].
    split; [done | intros []; done].
Qed.

Lemma dict_get_Some_elem k v d : dict_get k d = Some v → (k, v) ∈ d.
Proof.
  induction d as [|[k' v'] d IH]; simpl; [done|].
  destruct (decide (k = k')) as [->|]; intros Hg.
  - injection Hg as ->. apply list_elem_of_here.
  - apply list_elem_of_further; auto.
Qed.

Lemma elem_of_dict_get k v d : NoDup d.*1 → (k, v) ∈ d → dict_get k d = Some v.
Proof.
  induction d as [|[k' v'] d IH]; simpl; intros Hnd Hin.
  - by apply elem_of_nil in Hin.
  - apply NoDup_cons in Hnd as [Hk' Hnd]. apply elem_of_cons in Hin as [Heq|Hin].
    + injection Heq as -> ->. by rewrite decide_True.
    + destruct (decide (k = k')) as [->|]; [|by auto].
      exfalso. apply Hk'. apply list_elem_of_fmap. by exists (k', v).
Qed.

Lemma dict_get_is_Some k d : is_Some (dict_get k d) ↔ k ∈ d.*1.
Proof.
  rewrite <-not_eq_None_Some, dict_get_None.
  split; [apply dec_stable | auto].
Qed.

Lemma dict_set_fresh k v d : k ∉ d.*1 → dict_set k v d = d ++ [(k, v)].
Proof.
  induction d as [|[k' v'] d IH]; simpl; [done|].
  rewrite not_elem_of_cons. intros [Hne Hk].
  rewrite decide_False by done. by rewrite IH.
Qed.

Lemma dict_set_id k v d : dict_get k d = Some v → dict_set k v d = d.
Proof.
  induction d as [|[k' v'] d IH]; simpl; [done|].
  destruct (decide (k = k')) as [->|]; intros Hg.
  - by injection Hg as ->.
  - by rewrite IH.
Qed.

Lemma dict_set_keys_present k v d : k ∈ d.*1 → (dict_set k v d).*1 = d.*1.
Proof.
  induction d as [|[k' v'] d IH]; csimpl.
  - intros Hin. by apply elem_of_nil in Hin.
  - destruct (decide (k = k')) as [->|Hne]; [done|].
    rewrite elem_of_cons. intros [?|Hin]; [done|]. csimpl. by rewrite IH.
Qed.

Lemma dict_set_keys k v d :
  (dict_set k v d).*1 = if decide (k ∈ d.*1) then d.*1 else d.*1 ++ [k].
Proof.
  destruct (decide (k ∈ d.*1)).
  - by apply dict_set_keys_present.
  - rewrite dict_set_fresh by done. by rewrite fmap_app.
Qed.

Lemma elem_of_dict_set_keys k k' v d :
  k' ∈ (dict_set k v d).*1 ↔ k' = k ∨ k' ∈ d.*1.
Proof.
  rewrite dict_set_keys. destruct (decide (k ∈ d.*1)).
  - naive_solver.
  - rewrite elem_of_app, list_elem_of_singleton. naive_solver.
Qed.

Lemma dict_set_NoDup k v d : NoDup d.*1 → NoDup (dict_set k v d).*1.
Proof.
  intros Hnd. rewrite dict_set_keys. destruct (decide (k ∈ d.*1)); [done|].
  apply NoDup_app. split_and!; [done| |apply NoDup_singleton].
  intros x Hx Hx'. apply list_elem_of_singleton in Hx'. by subst.
Qed.

Lemma dict_get_set k k' v d :
  dict_get k' (dict_set k v d) = if decide (k' = k) then Some v else dict_get k' d.
Proof.
  induction d as [|[k0 v0] d IH]; simpl.
  - destruct (decide (k' = k)); [done|]. done.
  - destruct (decide (k = k0)) as [->|Hne]; simpl.
    + destruct (decide (k' = k0)); done.
    + rewrite IH. destruct (decide (k' = k0)) as [->|]; [|done].
      by rewrite decide_False by done.
Qed.

Lemma dict_get_set_eq k v d : dict_get k (dict_set k v d) = Some v.
Proof. rewrite dict_get_set. by rewrite decide_True. Qed.

Lemma dict_get_set_ne k k' v d : k' ≠ k → dict_get k' (dict_set k v d) = dict_get k' d.
Proof. intros. rewrite dict_get_set. by rewrite decide_False. Qed.
End dict_facts.

Section for_each_facts.
Context {A S : Type}.
Implicit Types (body : S → A → result S) (l : list A).

Lemma for_each_app body l1 l2 s :
  for_each body (l1 ++ l2) s = (s' ← for_each body l1 s; for_each body l2 s').
Proof.
  revert s. induction l1 as [|a l1 IH]; intros s; simpl; [done|].
  destruct (body s a); simpl; [apply IH | done].
Qed.

(** An invariant indexed by the part of the list already visited. *)
Lemma for_each_invariant (Inv : list A → S → Prop) body l s :
  Inv [] s →
  (∀ pre a rest s, l = pre ++ a :: rest → Inv pre s →
     ∃ s', body s a = Ok s' ∧ Inv (pre ++ [a]) s') →
  ∃ s', for_each body l s = Ok s' ∧ Inv l s'.
Proof.
  intros H0 Hstep.
  assert (∀ rest pre s, l = pre ++ rest → Inv pre s →
            ∃ s', for_each body rest s = Ok s' ∧ Inv l s') as Hgen.
  { induction rest as [|a rest IH]; intros pre s0 Hl Hinv; simpl.
    - exists s0. rewrite app_nil_r in Hl. by subst.
    - destruct (Hstep pre a rest s0 Hl Hinv) as (s1 & -> & Hinv1). simpl.
      apply (IH (pre ++ [a])); [|done]. by rewrite <-app_assoc. }
  by apply (Hgen l []).
Qed.
End for_each_facts.

Section filter_facts.
Context {A : Type} (P : A → Prop) `{∀ x, Decision (P x)}.

Lemma filter_all (l : list A) : (∀ x, x ∈ l → P x) → filter P l = l.
Proof.
  induction l as [|x l IH]; intros Hall; [done|].
  rewrite filter_cons_True by (apply Hall; left).
  f_equal. apply IH. intros y Hy. apply Hall. by right.
Qed.
End filter_facts.

(** * The intersection pass *)

Section intersection_facts.
Variable init_record : ConfigKey → SettingsRecord.
Implicit Types (σ : gmap ConfigKey SettingsRecord) (m pre : list (ConfigKey * ConfigKey)).
Implicit Types (g : Group) (a : Arch) (key : string).

Lemma lazy_settings_snoc σ pre item :
  lazy_settings init_record σ (pre ++ [item]) =
  let σ' := lazy_settings init_record σ pre in
  if decide ((None, item.1.2) ∈ dom σ') then σ'
  else <[(None, item.1.2) := init_record (None, item.1.2)]> σ'.
Proof. unfold lazy_settings. by rewrite foldl_app. Qed.

Lemma lazy_settings_lookup σ pre (x : ConfigKey) :
  lazy_settings init_record σ pre !! x =
  match σ !! x with
  | Some r => Some r
  | None =>
      if decide (x ∈ (λ item : ConfigKey * ConfigKey, (None, item.1.2)) <$> pre)
      then Some (init_record x) else None
  end.
Proof.
  revert x. induction pre as [|item pre IH] using rev_ind; intros x.
  - simpl. by destruct (σ !! x).
  - rewrite lazy_settings_snoc. cbv zeta. rewrite fmap_app. csimpl.
    destruct (decide ((None, item.1.2) ∈ dom (lazy_settings init_record σ pre))) as [Hin|Hin].
    + rewrite IH. destruct (σ !! x) eqn:Hx; [done|].
      apply elem_of_dom in Hin as [r Hr]. rewrite IH in Hr.
      destruct (decide (x ∈ _ <$> pre)) as [Hp|Hp].
      * rewrite decide_True; [done | set_solver].
      * destruct (decide (x = (None, item.1.2))) as [->|Hne].
        -- rewrite Hx in Hr. by rewrite decide_False in Hr.
        -- rewrite decide_False; [done | set_solver].
    + apply not_elem_of_dom in Hin. rewrite IH in Hin.
      destruct (decide (x = (None, item.1.2))) as [->|Hne].
      * rewrite lookup_insert_eq.
        destruct (σ !! (None, item.1.2)); [done|].
        rewrite decide_True; [done|]. set_solver.
      * rewrite lookup_insert_ne by done. rewrite IH.
        destruct (σ !! x); [done|].
        repeat case_decide; try done; exfalso; set_solver.
Qed.

Lemma lazy_settings_lookup_Some σ pre (x : ConfigKey) r :
  σ !! x = Some r → lazy_settings init_record σ pre !! x = Some r.
Proof. intros Hx. by rewrite lazy_settings_lookup, Hx. Qed.

Lemma group_of_snoc σ key pre item a :
  group_of σ key (pre ++ [item]) a =
  group_of σ key pre a ++
    match (if decide (item.1.2 = a) then pair item.1 <$> contribution σ key item else None) with
    | Some e => [e]
    | None => []
    end.
Proof.
  unfold group_of. by rewrite omap_app.
Qed.

Lemma elem_of_group_of σ key m a (s : ConfigKey) (l : list string) :
  (s, l) ∈ group_of σ key m a ↔
  ∃ M : ConfigKey, (s, M) ∈ m ∧ s.2 = a ∧ contribution σ key (s, M) = Some l.
Proof.
  unfold group_of. rewrite list_elem_of_omap. split.
  - intros ([s' M] & Hin & Hf). simpl in Hf.
    destruct (decide (s'.2 = a)) as [Ha|]; [|done].
    destruct (contribution σ key (s', M)) as [l'|] eqn:Hc; [|done].
    simpl in Hf. injection Hf as -> ->. by exists M.
  - intros (M & Hin & Ha & Hc). exists (s, M). split; [done|]. simpl.
    rewrite decide_True by done. by rewrite Hc.
Qed.

Lemma group_of_keys_subseteq σ key m a : (group_of σ key m a).*1 ⊆ m.*1.
Proof.
  intros s Hs. apply list_elem_of_fmap in Hs as ([s' l] & -> & Hin).
  apply elem_of_group_of in Hin as (M & Hin & _). simpl.
  apply list_elem_of_fmap. by exists (s', M).
Qed.

Lemma group_of_NoDup σ key m a : NoDup m.*1 → NoDup (group_of σ key m a).*1.
Proof.
  induction m as [|item m IH] using rev_ind; [intros; apply NoDup_nil_2|].
  rewrite fmap_app. intros Hnd. apply NoDup_app in Hnd as (Hnd & Hdisj & _).
  rewrite group_of_snoc.
  destruct (if decide (item.1.2 = a) then _ else _) as [e|] eqn:He.
  - rewrite fmap_app. apply NoDup_app. split_and!; [by apply IH| |apply NoDup_singleton].
    intros s Hs Hs'. apply list_elem_of_singleton in Hs'.
    apply (Hdisj s); [by apply (group_of_keys_subseteq σ key m a)|].
    destruct (decide (item.1.2 = a)); [|done].
    destruct (contribution σ key item); [|done]. simpl in He. injection He as <-.
    simpl in Hs'. subst s. csimpl. apply list_elem_of_singleton. done.
  - rewrite app_nil_r. by apply IH.
Qed.

Lemma common_set_snoc g e :
  g ≠ [] → common_set (g ++ [e]) = common_set g ∩ list_to_set e.2.
Proof. destruct g as [|e0 g]; [done|]. intros _. simpl. by rewrite foldl_app. Qed.

Lemma elem_of_common_set g (v : string) :
  g ≠ [] → v ∈ common_set g ↔ ∀ e, e ∈ g → v ∈ e.2.
Proof.
  induction g as [|e g IH] using rev_ind; [done|]. intros _.
  destruct (decide (g = [])) as [->|Hne].
  - simpl. rewrite elem_of_list_to_set. split.
    + intros Hv e' He'. apply list_elem_of_singleton in He'. by subst.
    + intros Hall. apply Hall. apply list_elem_of_singleton. done.
  - rewrite common_set_snoc by done. rewrite elem_of_intersection, IH by done.
    rewrite elem_of_list_to_set. split.
    + intros [Hg He] e' He'. apply elem_of_app in He' as [?|He']; [by auto|].
      apply list_elem_of_singleton in He'. by subst.
    + intros Hall. split.
      * intros e' He'. apply Hall. apply elem_of_app. by left.
      * apply Hall. apply elem_of_app. right. by apply list_elem_of_singleton.
Qed.

Lemma group_of_snoc_skip σ key pre item a :
  item.1.2 ≠ a ∨ contribution σ key item = None →
  group_of σ key (pre ++ [item]) a = group_of σ key pre a.
Proof.
  intros Hc. rewrite group_of_snoc.
  destruct (decide (item.1.2 = a)); [|by rewrite app_nil_r].
  destruct Hc as [?| ->]; [done|]. by rewrite app_nil_r.
Qed.

Lemma group_of_snoc_contribution σ key pre item (l : list string) :
  contribution σ key item = Some l →
  group_of σ key (pre ++ [item]) item.1.2 =
  group_of σ key pre item.1.2 ++ [(item.1, l)].
Proof. intros Hc. rewrite group_of_snoc. by rewrite decide_True, Hc by done. Qed.

Lemma group_of_fresh_arch σ key pre a :
  a ∉ (λ item : ConfigKey * ConfigKey, item.1.2) <$> pre → group_of σ key pre a = [].
Proof.
  intros Ha. apply elem_of_nil_inv. intros [s l] Hin.
  apply elem_of_group_of in Hin as (M & Hin & Hs & _).
  apply Ha. apply list_elem_of_fmap. by exists (s, M).
Qed.

Lemma contribution_lookup σ key (s M : ConfigKey) (r : SettingsRecord) :
  σ !! M = Some r →
  contribution σ key (s, M) = if decide (M.1 = None) then None else lists r !! key.
Proof. intros Hr. unfold contribution. simpl. by rewrite Hr. Qed.
Lemma intersection_step_inv key c pre item rest st :
  wf_ctx c → sln_configurations_map c = pre ++ item :: rest →
  intersection_inv init_record key c pre st →
  ∃ st', intersection_step init_record key st item = Ok st' ∧
         intersection_inv init_record key c (pre ++ [item]) st'.
Proof.
  intros [Hnd Hwf] Hm Hinv.
  destruct st as [[c' lists0] sets0]. destruct item as [s M].
  destruct Hinv as (Hσ & Hmap & Hfr & Hndl & Hkeys & Hget & Hsets). simpl in *.
  rewrite Hm in Hnd, Hwf.
  apply Forall_app in Hwf as [_ Hwf]. apply Forall_cons in Hwf as [(Hr & Harch & Hwild & Hself) _].
  simpl in *. destruct Hr as [r Hr].
  rewrite fmap_app in Hnd. apply NoDup_app in Hnd as (_ & Hfresh & Hnd2).
  assert (s ∉ pre.*1) as Hs.
  { intros Hin. apply (Hfresh s Hin). csimpl. left. }
  unfold intersection_step.
  set (lists1 := if decide (s.2 ≠ None ∧ s.2 ∉ lists0.*1) then dict_set s.2 [] lists0 else lists0).
  set (c1 := if decide ((None, s.2) ∉ dom (settings c')) then _ else c').
  assert (settings c1 = lazy_settings init_record (settings c) (pre ++ [(s, M)]) ∧
          sln_configurations_map c1 = sln_configurations_map c ∧
          same_frame c c1) as (Hσ1 & Hmap1 & Hfr1).
  { rewrite lazy_settings_snoc. cbv zeta. simpl. rewrite <-Hσ. subst c1.
    destruct (decide ((None, s.2) ∉ dom (settings c'))) as [Hn|Hn].
    - by rewrite decide_False by done.
    - by rewrite decide_True by (by apply dec_stable). }
  assert (NoDup lists1.*1 ∧
          (∀ a : Arch, a ∈ lists1.*1 ↔
             a ≠ None ∧ a ∈ (λ item : ConfigKey * ConfigKey, item.1.2) <$> (pre ++ [(s, M)])) ∧
          (∀ a : Arch, a ∈ lists1.*1 →
             dict_get a lists1 = Some (group_of (settings c) key pre a)))
    as (Hndl1 & Hkeys1 & Hget1).
  { subst lists1. destruct (decide (s.2 ≠ None ∧ s.2 ∉ lists0.*1)) as [[Hne Hni]|Hn].
    - split_and!.
      + by apply dict_set_NoDup.
      + intros a. rewrite elem_of_dict_set_keys, Hkeys, fmap_app, elem_of_app. csimpl.
        rewrite list_elem_of_singleton. naive_solver.
      + intros a Ha. rewrite dict_get_set. destruct (decide (a = s.2)) as [->|Heq].
        * rewrite group_of_fresh_arch; [done|].
          intros Hin. apply Hni. by apply Hkeys.
        * apply Hget. by apply elem_of_dict_set_keys in Ha as [?|?].
    - split_and!; [done| |done].
      intros a. rewrite Hkeys, fmap_app, elem_of_app. csimpl.
      rewrite list_elem_of_singleton.
      split; [naive_solver|]. intros [Hne [Hin| ->]]; [done|].
      apply Hkeys. destruct (decide (s.2 ∈ lists0.*1)); [done|]. exfalso. by apply Hn. }
  clearbody lists1 c1. clear Hσ Hmap Hfr Hndl Hkeys Hget.
  assert (settings c1 !! M = Some r) as HM.
  { rewrite Hσ1. by apply lazy_settings_lookup_Some. }
  rewrite HM. simpl.
  pose proof (contribution_lookup (settings c) key s M r Hr) as Hc.
  assert (∀ st', st' = (c1, lists1, sets0) → contribution (settings c) key (s, M) = None →
            intersection_inv init_record key c (pre ++ [(s, M)]) st') as Hskip.
  { intros st' -> Hnone. unfold intersection_inv. simpl. split_and!; try done.
    - intros a Ha. rewrite group_of_snoc_skip by (by right). by apply Hget1.
    - intros a. rewrite group_of_snoc_skip by (by right). apply Hsets. }
  destruct (lists r !! key) as [l|] eqn:Hl.
  2: { eexists. split; [done|]. apply Hskip; [done|]. rewrite Hc. by case_decide. }
  destruct (decide (M.1 = None)) as [HM1|HM1].
  { eexists. split; [done|]. by apply Hskip. }
  assert (s.2 ∈ lists1.*1) as Hin1.
  { apply Hkeys1. split; [intros E; rewrite E in Harch; by destruct Harch|].
    rewrite fmap_app, elem_of_app. right. csimpl. left. }
  rewrite (Hget1 _ Hin1). simpl.
  set (group := group_of (settings c) key pre s.2) in *.
  assert (dict_set s l group = group ++ [(s, l)]) as Hgrp.
  { apply dict_set_fresh. intros Hin. apply Hs.
    by apply (group_of_keys_subseteq (settings c) key pre s.2). }
  rewrite Hgrp.
  assert (group ++ [(s, l)] = group_of (settings c) key (pre ++ [(s, M)]) s.2) as Hnew.
  { symmetry. by apply (group_of_snoc_contribution _ _ _ (s, M)). }
  assert (∃ S : gset string,
            (if decide (group = []) then <[s.2 := list_to_set l]> sets0 else sets0) !! s.2
              = Some S ∧
            S ∩ list_to_set l = common_set (group ++ [(s, l)])) as (S & HS & HSeq).
  { destruct (decide (group = [])) as [Hg|Hg].
    - exists (list_to_set l). rewrite lookup_insert_eq. split; [done|].
      rewrite Hg. simpl. set_solver.
    - exists (common_set group). rewrite Hsets. fold group.
      rewrite decide_False by done. split; [done|]. by rewrite common_set_snoc. }
  rewrite HS. simpl. eexists. split; [done|].
  unfold intersection_inv; simpl. split_and!; try done.
  - by rewrite dict_set_keys_present.
  - intros a. rewrite dict_set_keys_present by done. apply Hkeys1.
  - intros a. rewrite dict_set_keys_present by done. intros Ha.
    rewrite dict_get_set. destruct (decide (a = s.2)) as [->|Hne].
    + by rewrite Hnew.
    + rewrite group_of_snoc_skip by (left; simpl; congruence). by apply Hget1.
  - intros a. destruct (decide (a = s.2)) as [->|Hne].
    + rewrite lookup_insert_eq. rewrite <-Hnew.
      rewrite decide_False; [by rewrite HSeq|]. by destruct group.
    + rewrite lookup_insert_ne by done.
      rewrite group_of_snoc_skip by (left; simpl; congruence).
      rewrite <-Hsets. destruct (decide (group = [])); [by rewrite lookup_insert_ne|done].
Qed.

Lemma intersection_pass key c :
  wf_ctx c →
  ∃ st, for_each (intersection_step init_record key) (sln_configurations_map c) (c, [], ∅)
          = Ok st ∧
        intersection_inv init_record key c (sln_configurations_map c) st.
Proof.
  intros Hwf.
  apply (for_each_invariant (intersection_inv init_record key c)).
  - unfold intersection_inv, same_frame. simpl. split_and!; try done.
    + apply NoDup_nil_2.
    + intros a. split; [intros Ha; by apply elem_of_nil in Ha|].
      intros [_ Ha]. by apply elem_of_nil in Ha.
    + intros a Ha. by apply elem_of_nil in Ha.
  - intros pre a rest st Hm Hinv. by apply (intersection_step_inv key c pre a rest).
Qed.
End intersection_facts.

(** * The residual rewrite *)

Section rewrite_generic.
Implicit Types (σ : gmap ConfigKey SettingsRecord) (m : list (ConfigKey * ConfigKey)).
Implicit Types (D : gset ConfigKey) (key : string) (c : CtxData).

Lemma set_list_set_list key (l l' : list string) (r : SettingsRecord) :
  set_list key l (set_list key l' r) = set_list key l r.
Proof. unfold set_list. simpl. by rewrite insert_insert_eq. Qed.

Lemma set_list_id key (l : list string) (r : SettingsRecord) :
  lists r !! key = Some l → set_list key l r = r.
Proof. intros Hl. destruct r as [t ls]. unfold set_list. simpl in *. by rewrite insert_id. Qed.

Lemma lists_set_list key key' (l : list string) (r : SettingsRecord) :
  lists (set_list key l r) !! key' = if decide (key = key') then Some l else lists r !! key'.
Proof. unfold set_list. simpl. apply lookup_insert. Qed.

Lemma result_settings_list_filter (sets : SetsOfItems) (a : Arch) (S : gset string)
    (l : list string) :
  sets !! a = Some S →
  result_settings_list sets a l = Ok (filter (λ v, v ∉ S) l).
Proof.
  intros HS. unfold result_settings_list.
  pose (body := λ (acc : list string) (element : string),
                  getitem (sets !! a) ≫= λ items : gset string,
                  Ok (if decide (element ∈ items) then acc else acc ++ [element])).
  assert (∀ acc e, body acc e = Ok (if decide (e ∈ S) then acc else acc ++ [e])) as Hbody.
  { intros acc e. unfold body. by rewrite HS. }
  fold body. clearbody body.
  assert (∀ acc : list string,
            for_each body l acc = Ok (acc ++ filter (λ v, v ∉ S) l)) as Hgen.
  { induction l as [|e l IH]; intros acc; simpl.
    - by rewrite app_nil_r.
    - rewrite Hbody. simpl. rewrite IH. rewrite filter_cons.
      destruct (decide (e ∈ S)).
      + by rewrite decide_False by auto.
      + rewrite decide_True by done. by rewrite <-app_assoc. }
  apply (Hgen []).
Qed.

Lemma dict_get_mark D m (x : ConfigKey) :
  dict_get x (mark D m) = (λ M : ConfigKey, if decide (x ∈ D) then x else M) <$> dict_get x m.
Proof.
  induction m as [|[s M] m IH]; [done|]. unfold mark in *. csimpl.
  destruct (decide (s ∈ D)) as [Hs|Hs]; simpl;
    (destruct (decide (x = s)) as [->|]; [|done]); simpl.
  - by rewrite decide_True.
  - by rewrite decide_False.
Qed.

Lemma mark_keys D m : (mark D m).*1 = m.*1.
Proof.
  unfold mark. rewrite <-list_fmap_compose. apply list_fmap_ext.
  intros i [s M] _. simpl. by destruct (decide (s ∈ D)).
Qed.

Lemma mark_cons D (s M : ConfigKey) m :
  mark D ((s, M) :: m) = (if decide (s ∈ D) then (s, s) else (s, M)) :: mark D m.
Proof. done. Qed.

Lemma dict_set_mark D m (s : ConfigKey) :
  NoDup m.*1 → s ∈ m.*1 → dict_set s s (mark D m) = mark ({[s]} ∪ D) m.
Proof.
  induction m as [|[s' M] m IH]; intros Hnd Hin.
  - by apply elem_of_nil in Hin.
  - rewrite fmap_cons in Hnd, Hin. simpl in Hnd, Hin.
    apply NoDup_cons in Hnd as [Hs' Hnd]. rewrite !mark_cons.
    destruct (decide (s = s')) as [->|Hne].
    + rewrite (decide_True (P := s' ∈ {[s']} ∪ D)) by set_solver.
      transitivity ((s', s') :: mark D m).
      { destruct (decide (s' ∈ D)); simpl; by rewrite decide_True. }
      f_equal. apply list_fmap_ext. intros i [s2 M2] Hi. simpl.
      assert (s2 ≠ s').
      { intros ->. apply Hs'. apply list_elem_of_fmap. exists (s', M2).
        split; [done|]. by apply list_elem_of_lookup_2 in Hi. }
      destruct (decide (s2 ∈ D)).
      * rewrite decide_True by set_solver. done.
      * rewrite decide_False by set_solver. done.
    + apply elem_of_cons in Hin as [?|Hin]; [done|].
      transitivity ((if decide (s' ∈ D) then (s', s') else (s', M)) :: dict_set s s (mark D m)).
      { destruct (decide (s' ∈ D)); simpl; by rewrite decide_False. }
      rewrite IH by done. f_equal.
      destruct (decide (s' ∈ D)).
      * rewrite decide_True by set_solver. done.
      * rewrite decide_False by set_solver. done.
Qed.

Lemma update_settings_at_context_spec c2 (s : ConfigKey) key (l : list string)
    (r r2 : SettingsRecord) :
  set_list key l r2 = set_list key l r →
  (settings c2 !! s = Some r2 ∨
   (settings c2 !! s = None ∧
    ∃ M : ConfigKey, dict_get s (sln_configurations_map c2) = Some M ∧
                     settings c2 !! M = Some r2)) →
  update_settings_at_context c2 s key l =
  Ok (with_settings (<[s := set_list key l r]> (settings c2))
        (with_map (dict_set s s (sln_configurations_map c2)) c2)).
Proof.
  intros Heq Hcase. unfold update_settings_at_context.
  destruct Hcase as [Hs | (Hs & M & HM & Hr2)].
  - rewrite decide_False.
    2: { intros Hn. apply not_elem_of_dom in Hn. congruence. }
    simpl. rewrite Hs. simpl. by rewrite Heq.
  - rewrite decide_True by (by apply not_elem_of_dom).
    rewrite HM. simpl. rewrite Hr2. simpl. rewrite lookup_insert_eq. simpl.
    by rewrite insert_insert_eq, Heq.
Qed.
End rewrite_generic.

Section remove_facts.
Variable init_record : ConfigKey → SettingsRecord.
Implicit Types (σ : gmap ConfigKey SettingsRecord) (m : list (ConfigKey * ConfigKey)).
Implicit Types (D : gset ConfigKey) (key : string) (c : CtxData).

Lemma lazy_settings_lookup_concrete σ m (x : ConfigKey) :
  x.1 ≠ None → lazy_settings init_record σ m !! x = σ !! x.
Proof.
  intros Hx. rewrite lazy_settings_lookup. destruct (σ !! x); [done|].
  rewrite decide_False; [done|]. intros Hin.
  apply list_elem_of_fmap in Hin as (item & -> & _). by apply Hx.
Qed.

Lemma contribution_concrete σ key (item : ConfigKey * ConfigKey) (l : list string) :
  contribution σ key item = Some l → item.2.1 ≠ None.
Proof. unfold contribution. by destruct (decide (item.2.1 = None)). Qed.

Lemma wf_ctx_item c (s M : ConfigKey) :
  wf_ctx c → (s, M) ∈ sln_configurations_map c →
  dict_get s (sln_configurations_map c) = Some M ∧ wf_item (settings c) (s, M).
Proof.
  intros [Hnd Hwf] Hin. split; [by apply elem_of_dict_get|].
  by apply (proj1 (Forall_forall _ _) Hwf).
Qed.

Lemma rewritten_record_contribution c key (s M : ConfigKey) (l : list string) :
  wf_ctx c → (s, M) ∈ sln_configurations_map c →
  contribution (settings c) key (s, M) = Some l →
  ∃ r, settings c !! M = Some r ∧
    rewritten_record (settings c) key (sln_configurations_map c) s =
    Some (set_list key
            (filter (λ v, v ∉ common_set
                 (group_of (settings c) key (sln_configurations_map c) s.2)) l) r).
Proof.
  intros Hwf Hin Hc. destruct (wf_ctx_item c s M Hwf Hin) as (Hget & [r Hr] & _).
  simpl in Hr. exists r. split; [done|].
  unfold rewritten_record. rewrite Hget. simpl. rewrite Hr. simpl.
  unfold residual_of. rewrite Hc. done.
Qed.

Lemma remove_step key c D c2 (a : Arch) (s : ConfigKey) (l : list string) :
  wf_ctx c → remove_inv init_record key c D c2 → s ∉ D →
  (s, l) ∈ group_of (settings c) key (sln_configurations_map c) a →
  ∃ c3,
    update_settings_at_context c2 s key
      (filter (λ v, v ∉ common_set (group_of (settings c) key (sln_configurations_map c) a)) l)
      = Ok c3 ∧
    remove_inv init_record key c ({[s]} ∪ D) c3.
Proof.
  intros Hwf (Hmap & Hfr & Hsub & Hσ) HsD Hin.
  apply elem_of_group_of in Hin as (M & Hin & Ha & Hc). subst a.
  destruct (rewritten_record_contribution c key s M l Hwf Hin Hc) as (r & Hr & Hrew).
  destruct (wf_ctx_item c s M Hwf Hin) as (Hget & _ & Harch & Hwild & Hself).
  simpl in *.
  pose proof (contribution_concrete _ _ _ _ Hc) as HM1. simpl in HM1.
  assert (s.1 ≠ None) as Hs1 by (intros E; by apply HM1, Hwild).
  set (l' := filter _ l) in *.
  assert (∃ r2, set_list key l' r2 = set_list key l' r ∧
            (settings c2 !! s = Some r2 ∨
             (settings c2 !! s = None ∧
              ∃ M' : ConfigKey, dict_get s (sln_configurations_map c2) = Some M' ∧
                                settings c2 !! M' = Some r2))) as (r2 & Heq & Hcase).
  { destruct (settings c !! s) as [rs|] eqn:Hs.
    - assert (M = s) as -> by (by apply Hself).
      exists r. split; [done|]. left. rewrite Hσ, decide_False by done.
      rewrite lazy_settings_lookup_concrete by done. congruence.
    - assert (settings c2 !! s = None) as Hs2.
      { rewrite Hσ, decide_False by done. by rewrite lazy_settings_lookup_concrete. }
      assert (dict_get s (sln_configurations_map c2) = Some M) as Hget2.
      { rewrite Hmap, dict_get_mark, Hget. simpl. by rewrite decide_False. }
      destruct (decide (M ∈ D)) as [HMD|HMD].
      + destruct (Hsub M HMD) as [rM HrM].
        exists rM. split; [|right; split; [done|]; exists M; split; [done|]].
        2: { by rewrite Hσ, decide_True. }
        unfold rewritten_record in HrM.
        destruct (dict_get M (sln_configurations_map c)) as [M'|] eqn:HgM; [|done].
        simpl in HrM. apply dict_get_Some_elem in HgM.
        destruct (wf_ctx_item c M M' Hwf HgM) as (_ & _ & _ & _ & HselfM). simpl in HselfM.
        assert (M' = M) as -> by (apply HselfM; by rewrite Hr).
        rewrite Hr in HrM. simpl in HrM.
        destruct (residual_of _ _ _ _) as [lM|]; [|done]. simpl in HrM.
        injection HrM as <-. apply set_list_set_list.
      + exists r. split; [done|]. right. split; [done|]. exists M. split; [done|].
        rewrite Hσ, decide_False by done. by apply lazy_settings_lookup_Some. }
  rewrite (update_settings_at_context_spec c2 s key l' r r2 Heq Hcase).
  eexists. split; [done|]. unfold remove_inv. simpl. split_and!.
  - rewrite Hmap. destruct Hwf as [Hnd _]. apply dict_set_mark; [done|].
    apply list_elem_of_fmap. by exists (s, M).
  - done.
  - intros x Hx. apply elem_of_union in Hx as [Hx|Hx]; [|by apply Hsub].
    apply elem_of_singleton in Hx. subst x. by rewrite Hrew.
  - intros x. destruct (decide (x = s)) as [->|Hne].
    + rewrite lookup_insert_eq, decide_True by set_solver. by rewrite Hrew.
    + rewrite lookup_insert_ne by done. rewrite Hσ.
      destruct (decide (x ∈ D)).
      * by rewrite decide_True by set_solver.
      * by rewrite decide_False by set_solver.
Qed.
End remove_facts.

Section remove_loops.
Variable init_record : ConfigKey → SettingsRecord.
Implicit Types (σ : gmap ConfigKey SettingsRecord) (m : list (ConfigKey * ConfigKey)).
Implicit Types (D : gset ConfigKey) (key : string) (c : CtxData).

Lemma mark_empty m : mark ∅ m = m.
Proof.
  unfold mark. rewrite <-(list_fmap_id m) at 2. apply list_fmap_ext.
  intros i item _. by rewrite decide_False by set_solver.
Qed.

Lemma remove_group key c D c2 (a : Arch) (sets : SetsOfItems) :
  wf_ctx c → remove_inv init_record key c D c2 →
  (group_of (settings c) key (sln_configurations_map c) a ≠ [] →
   sets !! a = Some (common_set (group_of (settings c) key (sln_configurations_map c) a))) →
  (∀ s : ConfigKey,
     s ∈ (group_of (settings c) key (sln_configurations_map c) a).*1 → s ∉ D) →
  ∃ c3,
    for_each
      (λ (c : CtxData) (entry : ConfigKey * list string),
         l ← result_settings_list sets a entry.2;
         update_settings_at_context c entry.1 key l)
      (group_of (settings c) key (sln_configurations_map c) a) c2 = Ok c3 ∧
    remove_inv init_record key c
      (list_to_set (group_of (settings c) key (sln_configurations_map c) a).*1 ∪ D) c3.
Proof.
  intros Hwf Hinv Hsets Hfresh.
  set (g := group_of (settings c) key (sln_configurations_map c) a) in *.
  apply (for_each_invariant
           (λ pre c3, remove_inv init_record key c (list_to_set pre.*1 ∪ D) c3)).
  - simpl. by rewrite (left_id_L ∅ (∪)).
  - intros pre [s l] rest c3 Hg Hinv3. simpl.
    assert ((s, l) ∈ g) as Hin.
    { rewrite Hg. apply elem_of_app. right. left. }
    rewrite (result_settings_list_filter sets a (common_set g)).
    2: { apply Hsets. intros E. rewrite E in Hin. by apply elem_of_nil in Hin. }
    simpl.
    assert (s ∉ list_to_set pre.*1 ∪ D) as HsD.
    { intros Hs. apply elem_of_union in Hs as [Hs|Hs].
      - apply elem_of_list_to_set in Hs.
        pose proof (group_of_NoDup (settings c) key (sln_configurations_map c) a (proj1 Hwf))
          as Hnd.
        fold g in Hnd. rewrite Hg, fmap_app in Hnd.
        apply NoDup_app in Hnd as (_ & Hdisj & _). apply (Hdisj s Hs). csimpl. left.
      - apply (Hfresh s); [|done]. apply list_elem_of_fmap. by exists (s, l). }
    destruct (remove_step init_record key c _ c3 a s l Hwf Hinv3 HsD Hin) as (c4 & Hup & Hinv4).
    exists c4. split; [done|].
    replace (list_to_set (pre ++ [(s, l)]).*1 ∪ D)
      with ({[s]} ∪ (list_to_set pre.*1 ∪ D)); [done|].
    rewrite fmap_app, list_to_set_app_L. csimpl. set_solver.
Qed.
End remove_loops.

Section remove_pass_facts.
Variable init_record : ConfigKey → SettingsRecord.
Implicit Types (σ : gmap ConfigKey SettingsRecord) (m : list (ConfigKey * ConfigKey)).
Implicit Types (D : gset ConfigKey) (key : string) (c : CtxData).

Lemma group_keys_snoc (l : ItemsToMerge) (ag : Arch * Group) :
  group_keys (l ++ [ag]) = group_keys l ∪ list_to_set ag.2.*1.
Proof.
  unfold group_keys. rewrite fmap_app, union_list_app_L. simpl.
  by rewrite (right_id_L ∅ (∪)).
Qed.

Lemma elem_of_group_keys (l : ItemsToMerge) (s : ConfigKey) :
  s ∈ group_keys l ↔ ∃ ag, ag ∈ l ∧ s ∈ ag.2.*1.
Proof.
  unfold group_keys. rewrite elem_of_union_list. split.
  - intros (X & HX & Hs). apply list_elem_of_fmap in HX as (ag & -> & Hag).
    exists ag. split; [done|]. by apply elem_of_list_to_set in Hs.
  - intros (ag & Hag & Hs). exists (list_to_set ag.2.*1). split.
    + apply list_elem_of_fmap. by exists ag.
    + by apply elem_of_list_to_set.
Qed.

(** What the intersection pass leaves in [lists_of_items_to_merge]. *)
Lemma intersection_inv_group key c c1 (lists : ItemsToMerge) (sets : SetsOfItems)
    (a : Arch) (g : Group) :
  intersection_inv init_record key c (sln_configurations_map c) (c1, lists, sets) →
  (a, g) ∈ lists →
  g = group_of (settings c) key (sln_configurations_map c) a ∧
  (g ≠ [] → sets !! a = Some (common_set g)).
Proof.
  intros (_ & _ & _ & Hnd & _ & Hget & Hsets) Hin. simpl in *.
  assert (g = group_of (settings c) key (sln_configurations_map c) a) as ->.
  { apply (elem_of_dict_get _ _ _ Hnd) in Hin as Hg.
    rewrite Hget in Hg; [congruence|]. apply list_elem_of_fmap. by exists (a, g). }
  split; [done|]. intros Hne. by rewrite Hsets, decide_False.
Qed.

Lemma remove_pass key c c1 (lists : ItemsToMerge) (sets : SetsOfItems) :
  wf_ctx c →
  intersection_inv init_record key c (sln_configurations_map c) (c1, lists, sets) →
  ∃ c2, remove_common_settings_from_context c1 lists sets key = Ok c2 ∧
        remove_inv init_record key c (group_keys lists) c2.
Proof.
  intros Hwf Hinv. unfold remove_common_settings_from_context.
  apply (for_each_invariant (λ pre c2, remove_inv init_record key c (group_keys pre) c2)).
  - destruct Hinv as (Hσ & Hmap & Hfr & _). simpl in *.
    unfold remove_inv, group_keys. simpl. split_and!; try done.
    + by rewrite mark_empty.
    + intros x. by rewrite decide_False, Hσ by set_solver.
  - intros pre [a g] rest c2 Hl Hinv2. simpl.
    assert ((a, g) ∈ lists) as Hin by (rewrite Hl; apply elem_of_app; right; left).
    destruct (intersection_inv_group key c c1 lists sets a g Hinv Hin) as [-> Hsets].
    destruct (remove_group init_record key c (group_keys pre) c2 a sets Hwf Hinv2 Hsets)
      as (c3 & Hrun & Hinv3).
    { intros s Hs Hpre. apply elem_of_group_keys in Hpre as ([a' g'] & Hag' & Hs').
      simpl in Hs'.
      assert ((a', g') ∈ lists) as Hin' by (rewrite Hl; apply elem_of_app; by left).
      destruct (intersection_inv_group key c c1 lists sets a' g' Hinv Hin') as [-> _].
      apply list_elem_of_fmap in Hs as ([s1 l1] & -> & Hs).
      apply list_elem_of_fmap in Hs' as ([s2 l2] & Heq & Hs'). simpl in Heq. subst s2.
      apply elem_of_group_of in Hs as (_ & _ & Ha & _).
      apply elem_of_group_of in Hs' as (_ & _ & Ha' & _). simpl in *.
      destruct Hinv as (_ & _ & _ & Hnd & _). simpl in Hnd.
      rewrite Hl, fmap_app in Hnd. apply NoDup_app in Hnd as (_ & Hdisj & _).
      apply (Hdisj a').
      - apply list_elem_of_fmap. by exists (a', group_of (settings c) key (sln_configurations_map c) a').
      - csimpl. rewrite <-Ha', Ha. left. }
    exists c3. split; [done|]. rewrite group_keys_snoc. simpl.
    by rewrite (comm_L (∪)).
Qed.

Lemma intersection_inv_group_keys key c c1 (lists : ItemsToMerge) (sets : SetsOfItems)
    (s : ConfigKey) :
  wf_ctx c →
  intersection_inv init_record key c (sln_configurations_map c) (c1, lists, sets) →
  s ∈ group_keys lists ↔
  ∃ (M : ConfigKey) (l : list string),
    (s, M) ∈ sln_configurations_map c ∧ contribution (settings c) key (s, M) = Some l.
Proof.
  intros Hwf Hinv. rewrite elem_of_group_keys. split.
  - intros ([a g] & Hag & Hs). simpl in Hs.
    destruct (intersection_inv_group key c c1 lists sets a g Hinv Hag) as [-> _].
    apply list_elem_of_fmap in Hs as ([s1 l1] & -> & Hs).
    apply elem_of_group_of in Hs as (M & Hin & _ & Hc). by exists M, l1.
  - intros (M & l & Hin & Hc).
    destruct (wf_ctx_item c s M Hwf Hin) as (_ & _ & Harch & _). simpl in Harch.
    destruct Hinv as (_ & _ & _ & _ & Hkeys & Hget & _). simpl in *.
    assert (s.2 ∈ lists.*1) as Ha.
    { apply Hkeys. split; [intros E; rewrite E in Harch; by destruct Harch|].
      apply list_elem_of_fmap. by exists (s, M). }
    exists (s.2, group_of (settings c) key (sln_configurations_map c) s.2). split.
    + apply dict_get_Some_elem. by apply Hget.
    + simpl. apply list_elem_of_fmap. exists (s, l). split; [done|].
      apply elem_of_group_of. by exists M.
Qed.
End remove_pass_facts.

(** * The order of the common values *)

Section order_facts.
Implicit Types (g : Group) (i n : nat) (acc : list string).

Lemma order_sweep_spec i g acc :
  ∃ k, order_sweep i g acc = (acc ++ round i g, k) ∧ k + length (round i g) = length g.
Proof.
  unfold order_sweep.
  assert (∀ acc n, ∃ k,
            foldl (λ (st : list string * nat) (entry : ConfigKey * list string),
                     match entry.2 !! i with
                     | Some x => (st.1 ++ [x], st.2)
                     | None => (st.1, S st.2)
                     end) (acc, n) g = (acc ++ round i g, n + k) ∧
            k + length (round i g) = length g) as Hgen.
  { induction g as [|e g IH]; intros acc' n; simpl.
    - exists 0. by rewrite app_nil_r, Nat.add_0_r.
    - unfold round. simpl. destruct (e.2 !! i) as [x|]; simpl.
      + destruct (IH (acc' ++ [x]) n) as (k & -> & Hk). exists k.
        rewrite <-app_assoc. split; [done|]. simpl. unfold round in Hk. lia.
      + destruct (IH acc' (S n)) as (k & -> & Hk). exists (S k).
        split; [f_equal; lia|]. unfold round in Hk. lia. }
  destruct (Hgen acc 0) as (k & Hk & Hlen). by exists k.
Qed.

Lemma length_le_max_len g (e : ConfigKey * list string) : e ∈ g → length e.2 ≤ max_len g.
Proof.
  unfold max_len. induction g as [|e' g IH]; intros Hin.
  - by apply elem_of_nil in Hin.
  - csimpl. apply elem_of_cons in Hin as [->|Hin]; [lia|]. specialize (IH Hin). lia.
Qed.

Lemma round_nil_iff i g : round i g = [] ↔ max_len g ≤ i.
Proof.
  unfold round, max_len. induction g as [|e g IH]; csimpl.
  - split; [lia|done].
  - destruct (e.2 !! i) as [x|] eqn:Hx; simpl.
    + apply lookup_lt_Some in Hx. split; [done|lia].
    + apply lookup_ge_None in Hx. rewrite IH. lia.
Qed.

Lemma order_loop_S g n i acc :
  order_loop (S n) i g acc =
  let '(merged', out_of_bounds) := order_sweep i g acc in
  if decide (out_of_bounds = length g) then Ok merged'
  else order_loop n (S i) g merged'.
Proof. done. Qed.

Lemma order_loop_spec g n i acc :
  i + n = max_len g →
  order_loop (S n) i g acc = Ok (acc ++ mjoin ((λ j, round j g) <$> seq i n)).
Proof.
  revert i acc. induction n as [|n IH]; intros i acc Hn.
  - rewrite order_loop_S. destruct (order_sweep_spec i g acc) as (k & -> & Hk).
    assert (round i g = []) as Hr by (apply round_nil_iff; lia).
    rewrite Hr in *. simpl in Hk. rewrite decide_True by lia. done.
  - rewrite order_loop_S. destruct (order_sweep_spec i g acc) as (k & -> & Hk).
    assert (round i g ≠ []) as Hr by (rewrite round_nil_iff; lia).
    rewrite decide_False.
    2: { intros ->. apply Hr. apply length_zero_iff_nil. lia. }
    rewrite IH by lia. csimpl. by rewrite <-app_assoc.
Qed.

Lemma order_loop_candidates g :
  order_loop (S (max_len g)) 0 g [] = Ok (candidates g).
Proof. by rewrite order_loop_spec. Qed.

Lemma elem_of_candidates g (v : string) :
  v ∈ candidates g ↔ ∃ e, e ∈ g ∧ v ∈ e.2.
Proof.
  unfold candidates. rewrite list_elem_of_join. split.
  - intros (l & Hv & Hl). apply list_elem_of_fmap in Hl as (j & -> & _).
    unfold round in Hv. apply list_elem_of_omap in Hv as (e & He & Hj).
    exists e. split; [done|]. by apply list_elem_of_lookup_2 in Hj.
  - intros (e & He & Hv). apply list_elem_of_lookup_1 in Hv as [j Hj].
    exists (round j g). split.
    + unfold round. apply list_elem_of_omap. by exists e.
    + apply list_elem_of_fmap. exists j. split; [done|].
      apply elem_of_seq. apply lookup_lt_Some in Hj.
      pose proof (length_le_max_len g e He). lia.
Qed.


Lemma get_order_of_common_settings_spec (lists : ItemsToMerge) :
  NoDup lists.*1 →
  get_order_of_common_settings lists =
  Ok ((λ ag : Arch * Group, (ag.1, candidates ag.2)) <$> lists).
Proof.
  intros Hnd. unfold get_order_of_common_settings.
  destruct (for_each_invariant
              (λ (pre : ItemsToMerge) (acc : list (Arch * list string)),
                 acc = (λ ag : Arch * Group, (ag.1, candidates ag.2)) <$> pre)
              (λ (merged_order_lists : list (Arch * list string)) (arch_group : Arch * Group),
                 merged ← order_loop (S (max_len arch_group.2)) 0 arch_group.2 [];
                 Ok (dict_set arch_group.1 merged merged_order_lists))
              lists []) as (res & -> & ->); [done| |done].
  intros pre [a g] rest acc Hl ->. cbv beta. cbn [fst snd].
  rewrite order_loop_candidates. simpl.
  eexists. split; [done|]. rewrite fmap_app. simpl.
  apply dict_set_fresh. rewrite <-list_fmap_compose.
  rewrite Hl, fmap_app in Hnd. apply NoDup_app in Hnd as (_ & Hdisj & _).
  intros Hin. apply (Hdisj a); [|csimpl; left].
  apply list_elem_of_fmap in Hin as (ag & -> & Hag). apply list_elem_of_fmap. by exists ag.
Qed.
End order_facts.

(** * Filtering the candidates to the common values *)

Section common_facts.
Implicit Types (a : Arch) (S : gset string) (sets : SetsOfItems).
Implicit Types (elements common : list string).

(** The [break] of [__get_common_ordered_settings] is never taken: the
    dictionary that its guard tests has just been assigned to. *)
Lemma common_ordered_loop_no_break a elements common sets :
  common_ordered_loop a elements common sets =
  common_ordered_loop_simple a elements common sets.
Proof.
  revert common sets. induction elements as [|e rest IH]; intros common sets; [done|].
  simpl. destruct (sets !! a) as [S|]; [|done]. simpl.
  destruct (decide (e ∈ S)); [|apply IH].
  rewrite decide_False; [apply IH|]. apply insert_non_empty.
Qed.

Lemma first_occurrences_elem S elements (v : string) :
  v ∈ first_occurrences S elements ↔ v ∈ S ∧ v ∈ elements.
Proof.
  revert S. induction elements as [|e rest IH]; intros S; simpl.
  - rewrite elem_of_nil. tauto.
  - destruct (decide (e ∈ S)).
    + rewrite !elem_of_cons, IH. rewrite elem_of_difference, elem_of_singleton.
      destruct (decide (v = e)) as [->|]; [tauto|]. tauto.
    + rewrite IH, elem_of_cons. split; [tauto|].
      intros [Hv [->|Hr]]; [done|tauto].
Qed.

Lemma first_occurrences_NoDup S elements : NoDup (first_occurrences S elements).
Proof.
  revert S. induction elements as [|e rest IH]; intros S; simpl.
  - apply NoDup_nil_2.
  - destruct (decide (e ∈ S)); [|apply IH].
    apply NoDup_cons. split; [|apply IH].
    rewrite first_occurrences_elem. set_solver.
Qed.

Lemma first_occurrences_empty elements : first_occurrences ∅ elements = [].
Proof. induction elements as [|e rest IH]; [done|]. simpl. by rewrite decide_False by set_solver. Qed.

Lemma common_ordered_loop_simple_spec a elements common sets S :
  sets !! a = Some S →
  ∃ S', common_ordered_loop_simple a elements common sets =
        Ok (common ++ first_occurrences S elements, <[a := S']> sets).
Proof.
  revert common sets S. induction elements as [|e rest IH]; intros common sets S HS.
  - exists S. simpl. by rewrite app_nil_r, insert_id.
  - simpl. rewrite HS. simpl. destruct (decide (e ∈ S)).
    + destruct (IH (common ++ [e]) (<[a := S ∖ {[e]}]> sets) (S ∖ {[e]})) as (S' & -> ).
      { apply lookup_insert_eq. }
      exists S'. by rewrite insert_insert_eq, <-app_assoc.
    + by apply IH.
Qed.

Lemma get_common_ordered_settings_spec (merged : list (Arch * list string)) sets :
  NoDup merged.*1 →
  (∀ a l, (a, l) ∈ merged → l ≠ [] → is_Some (sets !! a)) →
  ∃ sets',
    get_common_ordered_settings merged sets =
    Ok ((λ al : Arch * list string,
           (al.1, first_occurrences (default ∅ (sets !! al.1)) al.2)) <$> merged, sets').
Proof.
  intros Hnd Hsets. unfold get_common_ordered_settings.
  destruct (for_each_invariant
              (λ (pre : list (Arch * list string)) (st : list (Arch * list string) * SetsOfItems),
                 st.1 = (λ al : Arch * list string,
                          (al.1, first_occurrences (default ∅ (sets !! al.1)) al.2)) <$> pre ∧
                 ∀ a, a ∉ pre.*1 → st.2 !! a = sets !! a)
              (λ (st : list (Arch * list string) * SetsOfItems) (arch_list : Arch * list string),
                 '(common, set_of_items) ← common_ordered_loop arch_list.1 arch_list.2 [] st.2;
                 Ok (dict_set arch_list.1 common st.1, set_of_items))
              merged ([], sets)) as ([res sets'] & Hrun & Hres & _); [done| |].
  2: { exists sets'. simpl in Hres. by rewrite Hrun, Hres. }
  intros pre [a l] rest [acc sets1] Hm [Hacc Hs1]. simpl in *. subst acc.
  rewrite Hm, fmap_app in Hnd. apply NoDup_app in Hnd as (_ & Hdisj & Hnd2).
  assert (a ∉ pre.*1) as Ha.
  { intros Hin. apply (Hdisj a Hin). csimpl. left. }
  assert (∃ S', common_ordered_loop a l [] sets1 =
                Ok (first_occurrences (default ∅ (sets !! a)) l, <[a := S']> sets1) ∨
                (l = [] ∧ common_ordered_loop a l [] sets1 = Ok ([], sets1))) as (S' & Hloop).
  { rewrite common_ordered_loop_no_break. destruct (sets !! a) as [S|] eqn:HS.
    - destruct (common_ordered_loop_simple_spec a l [] sets1 S) as (S' & HS').
      { by rewrite Hs1. }
      exists S'. left. by rewrite HS'.
    - exists ∅. right. destruct l as [|e l]; [done|]. exfalso.
      assert (is_Some (sets !! a)) as [? ?]; [|congruence].
      apply (Hsets a (e :: l)); [|done]. rewrite Hm. apply elem_of_app. right. left. }
  assert (dict_set a (first_occurrences (default ∅ (sets !! a)) l)
            ((λ al : Arch * list string,
                (al.1, first_occurrences (default ∅ (sets !! al.1)) al.2)) <$> pre)
          = (λ al : Arch * list string,
                (al.1, first_occurrences (default ∅ (sets !! al.1)) al.2)) <$> (pre ++ [(a, l)]))
    as Hset.
  { rewrite fmap_app. apply dict_set_fresh. by rewrite <-list_fmap_compose. }
  destruct Hloop as [-> | [-> ->]]; simpl.
  - eexists. split; [done|]. simpl. split; [done|].
    intros a' Ha'. rewrite fmap_app in Ha'. rewrite lookup_insert_ne.
    + apply Hs1. intros ?. apply Ha'. apply elem_of_app. by left.
    + intros ->. apply Ha'. apply elem_of_app. right. csimpl. left.
  - eexists. split; [done|]. simpl. split; [by rewrite <-Hset|].
    intros a' Ha'. rewrite fmap_app in Ha'.
    apply Hs1. intros ?. apply Ha'. apply elem_of_app. by left.
Qed.
End common_facts.

Section common_list_facts.
Lemma common_list_elem σ key (m : list (ConfigKey * ConfigKey)) (a : Arch) (v : string) :
  v ∈ common_list σ key m a ↔ v ∈ common_set (group_of σ key m a).
Proof.
  unfold common_list. rewrite first_occurrences_elem. split; [tauto|].
  intros Hv. split; [done|].
  destruct (group_of σ key m a) as [|e g] eqn:Hg; [by apply elem_of_empty in Hv|].
  apply elem_of_candidates. exists e. split; [left|].
  assert (e :: g ≠ []) as Hne by done.
  apply (proj1 (elem_of_common_set (e :: g) v Hne) Hv). left.
Qed.

Lemma common_list_NoDup σ key (m : list (ConfigKey * ConfigKey)) (a : Arch) :
  NoDup (common_list σ key m a).
Proof. apply first_occurrences_NoDup. Qed.
End common_list_facts.

(** * Storing the common lists *)

Section commit_facts.
Implicit Types (c : CtxData) (key : string) (A : list Arch).

Lemma same_frame_refl c : same_frame c c.
Proof. by unfold same_frame. Qed.

Lemma same_frame_trans c1 c2 c3 : same_frame c1 c2 → same_frame c2 c3 → same_frame c1 c3.
Proof. unfold same_frame. intros (-> & -> & ->) (-> & -> & ->). done. Qed.

Lemma self_map_snoc (m : list (ConfigKey * ConfigKey)) (L : list ConfigKey) (s : ConfigKey) :
  self_map m (L ++ [s]) = dict_set s s (self_map m L).
Proof. unfold self_map. by rewrite foldl_app. Qed.

Lemma commit_pass key c2 A (common_of : Arch → list string) :
  NoDup A →
  (∀ a, a ∈ A → is_Some (settings c2 !! ((None, a) : ConfigKey))) →
  ∃ c3,
    for_each (commit_merged_settings key) ((λ a : Arch, (a, common_of a)) <$> A) c2 = Ok c3 ∧
    sln_configurations_map c3 = self_map (sln_configurations_map c2) (wildcard_keys A) ∧
    same_frame c2 c3 ∧
    ∀ x : ConfigKey,
      settings c3 !! x =
      if decide (x.1 = None ∧ x.2 ∈ A)
      then set_list key (common_of x.2) <$> settings c2 !! x
      else settings c2 !! x.
Proof.
  intros Hnd Hsome.
  destruct (for_each_invariant
    (λ (pre : list (Arch * list string)) (c3 : CtxData),
       sln_configurations_map c3 = self_map (sln_configurations_map c2) (wildcard_keys pre.*1) ∧
       same_frame c2 c3 ∧
       ∀ x : ConfigKey,
         settings c3 !! x =
         if decide (x.1 = None ∧ x.2 ∈ pre.*1)
         then set_list key (common_of x.2) <$> settings c2 !! x
         else settings c2 !! x)
    (commit_merged_settings key) ((λ a : Arch, (a, common_of a)) <$> A) c2)
    as (c3 & Hrun & Hres).
  - split_and!; [done|apply same_frame_refl|].
    intros x. rewrite decide_False; [done|]. intros [_ Hx]. by apply elem_of_nil in Hx.
  - intros pre [a cm] rest c3 Hl (Hmap & Hfr & Hσ).
    assert (A = pre.*1 ++ a :: rest.*1) as HA.
    { transitivity (((λ a : Arch, (a, common_of a)) <$> A).*1).
      - rewrite <-list_fmap_compose. symmetry. apply list_fmap_id.
      - rewrite Hl, fmap_app. done. }
    assert (cm = common_of a) as ->.
    { assert ((a, cm) ∈ (λ a : Arch, (a, common_of a)) <$> A) as Hin.
      { rewrite Hl. apply elem_of_app. right. left. }
      apply list_elem_of_fmap in Hin as (a' & Heq & _). by injection Heq as -> ->. }
    assert (a ∉ pre.*1) as Ha.
    { rewrite HA in Hnd. apply NoDup_app in Hnd as (_ & Hdisj & _).
      intros Hin. apply (Hdisj a Hin). left. }
    destruct (Hsome a) as [r Hr].
    { rewrite HA. apply elem_of_app. right. left. }
    unfold commit_merged_settings.
    rewrite Hσ, decide_False by (intros [_ ?]; done). rewrite Hr. simpl.
    eexists. split; [done|]. simpl. split_and!.
    + rewrite Hmap. unfold wildcard_keys. rewrite !fmap_app. csimpl.
      by rewrite self_map_snoc.
    + done.
    + intros x. rewrite fmap_app. destruct (decide (x = (None, a))) as [->|Hne].
      * rewrite lookup_insert_eq. simpl. rewrite decide_True.
        2: { split; [done|]. apply elem_of_app. right. left. }
        by rewrite Hr.
      * rewrite lookup_insert_ne by done. rewrite Hσ.
        destruct (decide (x.1 = None ∧ x.2 ∈ pre.*1)) as [[Hx1 Hx2]|Hx].
        -- rewrite decide_True; [done|]. split; [done|]. apply elem_of_app. by left.
        -- rewrite decide_False; [done|]. intros [Hx1 Hx2]. apply Hx. split; [done|].
           apply elem_of_app in Hx2 as [?|Hx2]; [done|].
           apply list_elem_of_singleton in Hx2. exfalso. apply Hne.
           destruct x as [x1 x2]. simpl in *. by subst.
  - exists c3. split; [done|].
    assert (((λ a : Arch, (a, common_of a)) <$> A).*1 = A) as HA.
    { rewrite <-list_fmap_compose. apply list_fmap_id. }
    by rewrite HA in Hres.
Qed.
End commit_facts.

(** * One pass of the merger *)

Section pass_facts.
Variable init_record : ConfigKey → SettingsRecord.
Implicit Types (c : CtxData) (key : string).

Lemma rewritten_record_Some c key (x : ConfigKey) :
  is_Some (rewritten_record (settings c) key (sln_configurations_map c) x) →
  ∃ (M : ConfigKey) (l : list string),
    (x, M) ∈ sln_configurations_map c ∧ contribution (settings c) key (x, M) = Some l.
Proof.
  intros [r' Hr']. unfold rewritten_record in Hr'.
  destruct (dict_get x (sln_configurations_map c)) as [M|] eqn:HM; [|done].
  simpl in Hr'. destruct (settings c !! M) as [r|]; [|done]. simpl in Hr'.
  unfold residual_of in Hr'.
  destruct (contribution (settings c) key (x, M)) as [l|] eqn:Hc; [|done].
  exists M, l. split; [|done]. by apply dict_get_Some_elem.
Qed.

Lemma merge_key_spec key c :
  wf_ctx c →
  ∃ c', merge_key init_record c key = Ok c' ∧ pass_post init_record key c c'.
Proof.
  intros Hwf. unfold merge_key.
  destruct (intersection_pass init_record key c Hwf) as ([[c1 lists] sets] & -> & Hinv).
  simpl.
  destruct (remove_pass init_record key c c1 lists sets Hwf Hinv) as (c2 & -> & Hrem).
  simpl.
  pose proof Hinv as (_ & _ & _ & Hnd & Hkeys & Hget & Hsets). simpl in Hnd, Hkeys, Hget, Hsets.
  rewrite get_order_of_common_settings_spec by done. simpl.
  destruct (get_common_ordered_settings_spec
              ((λ ag : Arch * Group, (ag.1, candidates ag.2)) <$> lists) sets)
    as (sets' & ->).
  { by rewrite <-list_fmap_compose. }
  { intros a l Hin Hl. apply list_elem_of_fmap in Hin as ([a' g] & Heq & Hag).
    simpl in Heq. injection Heq as -> ->.
    destruct (intersection_inv_group init_record key c c1 lists sets a' g Hinv Hag) as [_ Hs].
    rewrite Hs; [done|]. by intros ->. }
  simpl.
  assert ((λ al : Arch * list string,
             (al.1, first_occurrences (default ∅ (sets !! al.1)) al.2)) <$>
            ((λ ag : Arch * Group, (ag.1, candidates ag.2)) <$> lists)
          = (λ a : Arch, (a, common_list (settings c) key (sln_configurations_map c) a))
              <$> lists.*1) as ->.
  { rewrite <-!list_fmap_compose. apply list_fmap_ext. intros i [a g] Hi. simpl.
    apply list_elem_of_lookup_2 in Hi.
    destruct (intersection_inv_group init_record key c c1 lists sets a g Hinv Hi) as [-> Hs].
    unfold common_list. f_equal.
    destruct (decide (group_of (settings c) key (sln_configurations_map c) a = [])) as [E|E].
    - rewrite Hsets, decide_True by done. by rewrite E.
    - by rewrite Hs. }
  destruct Hrem as (Hmap2 & Hfr2 & Hsub & Hσ2).
  assert (∀ x : ConfigKey, x ∈ group_keys lists → x.1 ≠ None) as HDconc.
  { intros x Hx. apply (intersection_inv_group_keys init_record key c c1 lists sets x Hwf Hinv) in Hx
      as (M & l & Hin & Hc).
    destruct (wf_ctx_item c x M Hwf Hin) as (_ & _ & _ & Hwild & _). simpl in Hwild.
    apply contribution_concrete in Hc. simpl in Hc. intros E. by apply Hc, Hwild. }
  assert (∀ a, a ∈ lists.*1 →
            lazy_settings init_record (settings c) (sln_configurations_map c) !! ((None, a) : ConfigKey)
            = Some (default (init_record (None, a)) (settings c !! ((None, a) : ConfigKey))))
    as Hwildσ.
  { intros a Ha. rewrite lazy_settings_lookup.
    destruct (settings c !! ((None, a) : ConfigKey)); [done|]. simpl.
    rewrite decide_True; [done|]. apply Hkeys in Ha as [_ Ha].
    apply list_elem_of_fmap in Ha as (item & -> & Hitem).
    apply list_elem_of_fmap. by exists item. }
  destruct (commit_pass key c2 lists.*1
              (common_list (settings c) key (sln_configurations_map c)) Hnd)
    as (c3 & -> & Hmap3 & Hfr3 & Hσ3).
  { intros a Ha. rewrite Hσ2. destruct (decide ((None, a) ∈ group_keys lists)) as [Hin|Hin].
    - by apply Hsub.
    - by rewrite Hwildσ. }
  exists c3. split; [done|]. exists (group_keys lists), lists.*1. split_and!.
  - by rewrite Hmap3, Hmap2.
  - done.
  - done.
  - intros x. by apply (intersection_inv_group_keys init_record key c c1 lists sets x).
  - by apply (same_frame_trans c c2 c3).
  - intros x. rewrite Hσ3. unfold merged_lookup.
    destruct (decide (x.1 = None ∧ x.2 ∈ lists.*1)) as [[Hx1 Hx2]|Hx].
    + rewrite decide_True.
      2: { split; [done|]. by apply Hkeys. }
      rewrite Hσ2, decide_False.
      2: { intros Hin. by apply HDconc in Hin. }
      destruct x as [x1 x2]. simpl in *. subst x1. rewrite Hwildσ by done. done.
    + rewrite decide_False.
      2: { intros (Hx1 & Hx2 & Hx3). apply Hx. split; [done|]. by apply Hkeys. }
      rewrite Hσ2. destruct (decide (x ∈ group_keys lists)) as [Hin|Hin].
      * destruct (Hsub x Hin) as [r' ->]. done.
      * destruct (rewritten_record _ _ _ x) as [r'|] eqn:Hrew.
        { exfalso. apply Hin.
          apply (intersection_inv_group_keys init_record key c c1 lists sets x Hwf Hinv).
          apply rewritten_record_Some. by rewrite Hrew. }
        rewrite lazy_settings_lookup. destruct (settings c !! x); [done|].
        rewrite decide_False; [done|]. intros Hw.
        apply list_elem_of_fmap in Hw as ([s M] & -> & Hitem). simpl in *.
        apply Hx. split; [done|]. apply Hkeys.
        destruct (wf_ctx_item c s M Hwf Hitem) as (_ & _ & Harch & _). simpl in Harch.
        split; [intros E; rewrite E in Harch; by destruct Harch|].
        apply list_elem_of_fmap. by exists (s, M).
Qed.
End pass_facts.

(** * Lookups in the rewritten configuration map *)

Section map_facts.
Implicit Types (m : list (ConfigKey * ConfigKey)) (L : list ConfigKey) (s : ConfigKey).
Implicit Types (c : CtxData) (key : string).

Lemma dict_get_self_map m L s :
  dict_get s (self_map m L) = if decide (s ∈ L) then Some s else dict_get s m.
Proof.
  induction L as [|s' L IH] using rev_ind.
  - done.
  - rewrite self_map_snoc, dict_get_set, IH.
    destruct (decide (s = s')) as [->|Hne].
    + rewrite decide_True; [done|]. apply elem_of_app. right. by apply list_elem_of_singleton.
    + destruct (decide (s ∈ L)).
      * rewrite decide_True; [done|]. apply elem_of_app. by left.
      * rewrite decide_False; [done|]. rewrite elem_of_app, list_elem_of_singleton. tauto.
Qed.

Lemma self_map_NoDup m L : NoDup m.*1 → NoDup (self_map m L).*1.
Proof.
  intros Hnd. induction L as [|s' L IH] using rev_ind; [done|].
  rewrite self_map_snoc. by apply dict_set_NoDup.
Qed.

Lemma self_map_id m L :
  (∀ s, s ∈ L → dict_get s m = Some s) → self_map m L = m.
Proof.
  induction L as [|s' L IH] using rev_ind; intros Hself; [done|].
  rewrite self_map_snoc, IH.
  - apply dict_set_id. apply Hself. apply elem_of_app. right. by apply list_elem_of_singleton.
  - intros s Hs. apply Hself. apply elem_of_app. by left.
Qed.

Lemma mark_id (D : gset ConfigKey) m :
  (∀ s M, (s, M) ∈ m → s ∈ D → M = s) → mark D m = m.
Proof.
  intros Hself. unfold mark. rewrite <-(list_fmap_id m) at 2. apply list_fmap_ext.
  intros i [s M] Hi. simpl. destruct (decide (s ∈ D)) as [HD|]; [|done].
  apply list_elem_of_lookup_2 in Hi. by rewrite (Hself s M Hi HD).
Qed.

Lemma elem_of_wildcard_keys (A : list Arch) s :
  s ∈ wildcard_keys A ↔ s.1 = None ∧ s.2 ∈ A.
Proof.
  unfold wildcard_keys. rewrite list_elem_of_fmap. split.
  - intros (a & -> & Ha). done.
  - intros [H1 H2]. exists s.2. split; [|done]. destruct s as [s1 s2]. simpl in *. by subst.
Qed.

Lemma resolved_list_Some c s key (l : list string) :
  NoDup (sln_configurations_map c).*1 →
  resolved_list c s key = Some l ↔
  ∃ M : ConfigKey, (s, M) ∈ sln_configurations_map c ∧ contribution (settings c) key (s, M) = Some l.
Proof.
  intros Hnd. unfold resolved_list. split.
  - destruct (dict_get s (sln_configurations_map c)) as [M|] eqn:HM; [|done].
    simpl. intros Hc. exists M. split; [|done]. by apply dict_get_Some_elem.
  - intros (M & Hin & Hc). by rewrite (elem_of_dict_get _ _ _ Hnd Hin).
Qed.

Lemma contributes_resolved c key (a : Arch) s (l : list string) :
  wf_ctx c →
  contributes c key a s l ↔ s.2 = a ∧ resolved_list c s key = Some l.
Proof.
  intros Hwf. rewrite resolved_list_Some by apply Hwf. unfold contributes. split.
  - intros (M & r & Hin & Ha & HM & Hr & Hl). split; [done|]. exists M. split; [done|].
    unfold contribution. simpl. rewrite decide_False by done. by rewrite Hr.
  - intros (Ha & M & Hin & Hc).
    pose proof (contribution_concrete _ _ _ _ Hc) as HM. simpl in HM.
    unfold contribution in Hc. simpl in Hc. rewrite decide_False in Hc by done.
    destruct (settings c !! M) as [r|] eqn:Hr; [|done]. simpl in Hc.
    by exists M, r.
Qed.

Lemma elem_of_group_of_resolved c key (a : Arch) s (l : list string) :
  wf_ctx c →
  (s, l) ∈ group_of (settings c) key (sln_configurations_map c) a ↔
  s.2 = a ∧ resolved_list c s key = Some l.
Proof.
  intros Hwf. rewrite elem_of_group_of, resolved_list_Some by apply Hwf. naive_solver.
Qed.
End map_facts.

(** * What a pass keeps and what it changes *)

Section pass_consequences.
Variable init_record : ConfigKey → SettingsRecord.
Implicit Types (c : CtxData) (key : string) (s x : ConfigKey).

Lemma pass_post_D key c c' (D : gset ConfigKey) s :
  wf_ctx c →
  (∀ x, x ∈ D ↔ ∃ (M : ConfigKey) (l : list string),
          (x, M) ∈ sln_configurations_map c ∧
          contribution (settings c) key (x, M) = Some l) →
  s ∈ D ↔ is_Some (resolved_list c s key).
Proof.
  intros Hwf HD. rewrite HD. split.
  - intros (M & l & Hin & Hc). exists l. apply resolved_list_Some; [apply Hwf|]. by exists M.
  - intros [l Hl]. apply resolved_list_Some in Hl as (M & Hin & Hc); [|apply Hwf].
    by exists M, l.
Qed.

Lemma pass_map_lookup key c c' :
  wf_ctx c → pass_post init_record key c c' →
  NoDup (sln_configurations_map c').*1 ∧
  ∀ s, dict_get s (sln_configurations_map c') =
       if decide (s.1 = None ∧ s.2 ≠ None ∧ s.2 ∈ archs (sln_configurations_map c))
       then Some s
       else if decide (is_Some (resolved_list c s key)) then Some s
            else dict_get s (sln_configurations_map c).
Proof.
  intros Hwf (D & A & Hmap & HndA & HA & HD & Hfr & Hσ). rewrite Hmap. split.
  - apply self_map_NoDup. rewrite mark_keys. apply Hwf.
  - intros s. rewrite dict_get_self_map, dict_get_mark.
    destruct (decide (s ∈ wildcard_keys A)) as [Hw|Hw].
    + apply elem_of_wildcard_keys in Hw as [H1 H2]. apply HA in H2.
      by rewrite decide_True.
    + rewrite decide_False.
      2: { intros (H1 & H2 & H3). apply Hw. apply elem_of_wildcard_keys.
           split; [done|]. by apply HA. }
      destruct (decide (is_Some (resolved_list c s key))) as [Hr|Hr].
      * apply (pass_post_D key c c' D s Hwf HD) in Hr as HsD.
        destruct Hr as [l Hl]. unfold resolved_list in Hl.
        destruct (dict_get s (sln_configurations_map c)); [|done]. simpl.
        by rewrite decide_True.
      * destruct (dict_get s (sln_configurations_map c)); [|done]. simpl.
        rewrite decide_False; [done|]. intros HsD. apply Hr.
        by apply (pass_post_D key c c' D s Hwf HD).
Qed.

(** Records that exist keep their lists for the other keys. *)
Lemma pass_stored_other key key2 c c' x :
  wf_ctx c → pass_post init_record key c c' → key ≠ key2 →
  is_Some (settings c !! x) →
  stored_list c' x key2 = stored_list c x key2.
Proof.
  intros Hwf (D & A & _ & _ & _ & _ & _ & Hσ) Hne [r Hr].
  unfold stored_list. rewrite Hσ, Hr. unfold merged_lookup. rewrite Hr. simpl.
  destruct (decide (x.1 = None ∧ x.2 ≠ None ∧ x.2 ∈ archs (sln_configurations_map c))).
  - simpl. by rewrite lookup_insert_ne.
  - unfold rewritten_record.
    destruct (dict_get x (sln_configurations_map c)) as [M|] eqn:HM; simpl; [|done].
    apply dict_get_Some_elem in HM.
    destruct (wf_ctx_item c x M Hwf HM) as (_ & _ & _ & _ & Hself). simpl in Hself.
    assert (M = x) as -> by (apply Hself; by rewrite Hr).
    rewrite Hr. simpl. destruct (residual_of _ _ _ _); simpl; [|done].
    by rewrite lookup_insert_ne.
Qed.

(** A record that exists stays, with its target type. *)
Lemma pass_settings_Some key c c' x :
  wf_ctx c → pass_post init_record key c c' →
  is_Some (settings c !! x) → is_Some (settings c' !! x).
Proof.
  intros Hwf (D & A & _ & _ & _ & _ & _ & Hσ) [r Hr].
  rewrite Hσ. unfold merged_lookup. rewrite Hr.
  destruct (decide _); [done|]. by destruct (rewritten_record _ _ _ _).
Qed.

(** What a configuration brings to the merge of another key is the same
    before and after the pass. *)
Lemma pass_resolved_other key key2 c c' s :
  wf_ctx c → pass_post init_record key c c' → key ≠ key2 →
  resolved_list c' s key2 = resolved_list c s key2.
Proof.
  intros Hwf Hpost Hne.
  destruct (pass_map_lookup key c c' Hwf Hpost) as [_ Hget].
  pose proof Hpost as (D & A & _ & _ & _ & _ & _ & Hσ).
  unfold resolved_list at 1. rewrite Hget.
  destruct (decide (s.1 = None ∧ s.2 ≠ None ∧ s.2 ∈ archs (sln_configurations_map c)))
    as [(H1 & H2 & H3)|Hw].
  { simpl. unfold contribution at 1. simpl. rewrite decide_True by done.
    unfold resolved_list.
    destruct (dict_get s (sln_configurations_map c)) as [M|] eqn:HM; [|done]. simpl.
    apply dict_get_Some_elem in HM.
    destruct (wf_ctx_item c s M Hwf HM) as (_ & _ & _ & Hwild & _). simpl in Hwild.
    unfold contribution. simpl. by rewrite decide_True by auto. }
  destruct (decide (is_Some (resolved_list c s key))) as [[l Hl]|Hr].
  - simpl. apply resolved_list_Some in Hl as (M & Hin & Hc); [|apply Hwf].
    destruct (wf_ctx_item c s M Hwf Hin) as (HgetM & _ & _ & Hwild & _). simpl in Hwild.
    pose proof (contribution_concrete _ _ _ _ Hc) as HM1. simpl in HM1.
    assert (s.1 ≠ None) as Hs1 by (intros E; by apply HM1, Hwild).
    destruct (rewritten_record_contribution c key s M l Hwf Hin Hc) as (r & Hr & Hrew).
    unfold contribution at 1. simpl. rewrite decide_False by done.
    rewrite Hσ. unfold merged_lookup. rewrite decide_False by done. rewrite Hrew. simpl.
    rewrite lookup_insert_ne by done.
    unfold resolved_list. rewrite HgetM. simpl. unfold contribution. simpl.
    rewrite decide_False by done. by rewrite Hr.
  - unfold resolved_list.
    destruct (dict_get s (sln_configurations_map c)) as [M|] eqn:HM; [|done]. simpl.
    apply dict_get_Some_elem in HM.
    destruct (wf_ctx_item c s M Hwf HM) as (_ & HM' & _). simpl in HM'.
    unfold contribution. simpl. destruct (decide (M.1 = None)); [done|].
    apply (pass_stored_other key key2 c c' M Hwf Hpost Hne HM').
Qed.
End pass_consequences.

(** * The lists a pass stores *)

Section pass_results.
Variable init_record : ConfigKey → SettingsRecord.
Implicit Types (c : CtxData) (key : string) (s x : ConfigKey).

Lemma rewritten_record_None c key x :
  wf_ctx c → resolved_list c x key = None →
  rewritten_record (settings c) key (sln_configurations_map c) x = None.
Proof.
  intros Hwf Hres.
  destruct (rewritten_record (settings c) key (sln_configurations_map c) x) as [r|] eqn:Hrew;
    [|done].
  destruct (rewritten_record_Some c key x) as (M & l & Hin & Hc); [by rewrite Hrew|].
  assert (resolved_list c x key = Some l) as Hl.
  { apply resolved_list_Some; [apply Hwf|]. by exists M. }
  congruence.
Qed.

Lemma rewritten_record_resolved c key x (l : list string) :
  wf_ctx c → resolved_list c x key = Some l →
  ∃ (M : ConfigKey) (r : SettingsRecord),
    (x, M) ∈ sln_configurations_map c ∧ M.1 ≠ None ∧ x.1 ≠ None ∧
    settings c !! M = Some r ∧ lists r !! key = Some l ∧
    rewritten_record (settings c) key (sln_configurations_map c) x =
    Some (set_list key
            (filter (λ v, v ∉ common_set
               (group_of (settings c) key (sln_configurations_map c) x.2)) l) r).
Proof.
  intros Hwf Hl. apply resolved_list_Some in Hl as (M & Hin & Hc); [|apply Hwf].
  destruct (rewritten_record_contribution c key x M l Hwf Hin Hc) as (r & Hr & Hrew).
  destruct (wf_ctx_item c x M Hwf Hin) as (_ & _ & _ & Hwild & _). simpl in Hwild.
  pose proof (contribution_concrete _ _ _ _ Hc) as HM1. simpl in HM1.
  exists M, r. split_and!; try done.
  - intros E. by apply HM1, Hwild.
  - unfold contribution in Hc. simpl in Hc. rewrite decide_False in Hc by done.
    by rewrite Hr in Hc.
Qed.

Lemma pass_settings_lookup key c c' x :
  wf_ctx c → pass_post init_record key c c' →
  settings c' !! x =
  if decide (x.1 = None ∧ x.2 ≠ None ∧ x.2 ∈ archs (sln_configurations_map c))
  then Some (set_list key (common_list (settings c) key (sln_configurations_map c) x.2)
               (default (init_record x) (settings c !! x)))
  else match rewritten_record (settings c) key (sln_configurations_map c) x with
       | Some r => Some r
       | None => settings c !! x
       end.
Proof. intros Hwf (D & A & _ & _ & _ & _ & _ & Hσ). by rewrite Hσ. Qed.

Lemma pass_wf key c c' : wf_ctx c → pass_post init_record key c c' → wf_ctx c'.
Proof.
  intros Hwf Hpost.
  destruct (pass_map_lookup init_record key c c' Hwf Hpost) as [Hnd Hget].
  split; [done|]. apply Forall_forall. intros [s M'] Hin.
  apply (elem_of_dict_get _ _ _ Hnd) in Hin. rewrite Hget in Hin.
  unfold wf_item. simpl.
  rewrite !(pass_settings_lookup key c c') by done.
  destruct (decide (s.1 = None ∧ s.2 ≠ None ∧ s.2 ∈ archs (sln_configurations_map c)))
    as [(H1 & H2 & H3)|Hw].
  { injection Hin as <-. rewrite decide_True by done. split_and!; try done.
    by destruct (s.2). }
  destruct (decide (is_Some (resolved_list c s key))) as [[l Hl]|Hr].
  - injection Hin as <-. rewrite decide_False by done.
    destruct (rewritten_record_resolved c key s l Hwf Hl)
      as (M & r & HinM & HM1 & Hs1 & Hr & Hlr & ->).
    destruct (wf_ctx_item c s M Hwf HinM) as (_ & _ & Harch & _). simpl in Harch.
    split_and!; try done.
  - apply dict_get_Some_elem in Hin.
    destruct (wf_ctx_item c s M' Hwf Hin) as (_ & HM' & Harch & Hwild & Hself). simpl in *.
    split_and!; try done.
    + rewrite <-(pass_settings_lookup key c c') by done.
      by apply (pass_settings_Some init_record key c).
    + rewrite rewritten_record_None; [done|done|].
      by destruct (resolved_list c s key) eqn:E; [exfalso; apply Hr|].
Qed.

(** The common list goes under the wildcard key of each architecture. *)
Lemma pass_wildcard_list key c c' (a : Arch) :
  wf_ctx c → pass_post init_record key c c' →
  a ≠ None → a ∈ archs (sln_configurations_map c) →
  stored_list c' (None, a) key =
  Some (common_list (settings c) key (sln_configurations_map c) a).
Proof.
  intros Hwf Hpost Ha1 Ha2. unfold stored_list.
  rewrite (pass_settings_lookup key c c') by done.
  rewrite decide_True by done. simpl. by rewrite lookup_insert_eq.
Qed.

(** Each contributing configuration keeps its list without the common values. *)
Lemma pass_residual key c c' s (l : list string) :
  wf_ctx c → pass_post init_record key c c' →
  resolved_list c s key = Some l →
  stored_list c' s key =
  Some (filter (λ v, v ∉ common_set
          (group_of (settings c) key (sln_configurations_map c) s.2)) l).
Proof.
  intros Hwf Hpost Hl. unfold stored_list.
  rewrite (pass_settings_lookup key c c') by done.
  destruct (rewritten_record_resolved c key s l Hwf Hl)
    as (M & r & HinM & HM1 & Hs1 & Hr & Hlr & ->).
  rewrite decide_False by (intros [? _]; done). simpl. by rewrite lookup_insert_eq.
Qed.

(** The other concrete records are left as they are. *)
Lemma pass_unchanged key c c' x :
  wf_ctx c → pass_post init_record key c c' →
  x.1 ≠ None → resolved_list c x key = None →
  settings c' !! x = settings c !! x.
Proof.
  intros Hwf Hpost Hx Hres. rewrite (pass_settings_lookup key c c') by done.
  rewrite decide_False by (intros [? _]; done). by rewrite rewritten_record_None.
Qed.

Lemma common_set_resolved c key (a : Arch) (v : string) :
  wf_ctx c →
  (∃ s, s.2 = a ∧ is_Some (resolved_list c s key)) →
  v ∈ common_set (group_of (settings c) key (sln_configurations_map c) a) ↔
  ∀ s (l : list string), s.2 = a → resolved_list c s key = Some l → v ∈ l.
Proof.
  intros Hwf (s0 & Ha0 & l0 & Hl0).
  rewrite elem_of_common_set.
  2: { intros E. assert ((s0, l0) ∈ group_of (settings c) key (sln_configurations_map c) a)
         as Hin by (by apply elem_of_group_of_resolved).
       rewrite E in Hin. by apply elem_of_nil in Hin. }
  split.
  - intros Hall s l Ha Hl. apply (Hall (s, l)). by apply elem_of_group_of_resolved.
  - intros Hall [s l] Hin. apply elem_of_group_of_resolved in Hin as [Ha Hl]; [|done].
    simpl. by apply (Hall s l).
Qed.

End pass_results.

(** * Merged form *)

Section merged_form_facts.
Variable init_record : ConfigKey → SettingsRecord.
Implicit Types (c : CtxData) (key : string) (s x : ConfigKey).

(** After the pass for [key], a configuration brings its residual list. *)
Lemma pass_resolved_same key c c' s :
  wf_ctx c → pass_post init_record key c c' →
  resolved_list c' s key =
  filter (λ v, v ∉ common_set (group_of (settings c) key (sln_configurations_map c) s.2))
    <$> resolved_list c s key.
Proof.
  intros Hwf Hpost.
  destruct (pass_map_lookup init_record key c c' Hwf Hpost) as [_ Hget].
  unfold resolved_list at 1. rewrite Hget.
  destruct (decide (s.1 = None ∧ s.2 ≠ None ∧ s.2 ∈ archs (sln_configurations_map c)))
    as [(H1 & H2 & H3)|Hw].
  { simpl. unfold contribution at 1. simpl. rewrite decide_True by done.
    unfold resolved_list.
    destruct (dict_get s (sln_configurations_map c)) as [M|] eqn:HM; [|done]. simpl.
    apply dict_get_Some_elem in HM.
    destruct (wf_ctx_item c s M Hwf HM) as (_ & _ & _ & Hwild & _). simpl in Hwild.
    unfold contribution. simpl. by rewrite decide_True by auto. }
  destruct (decide (is_Some (resolved_list c s key))) as [[l Hl]|Hr].
  - simpl. rewrite Hl. simpl.
    destruct (rewritten_record_resolved c key s l Hwf Hl)
      as (M & r & HinM & HM1 & Hs1 & Hr & Hlr & Hrew).
    unfold contribution. simpl. rewrite decide_False by done.
    pose proof (pass_residual init_record key c c' s l Hwf Hpost Hl) as Hres.
    unfold stored_list in Hres. done.
  - assert (resolved_list c s key = None) as Hnone.
    { destruct (resolved_list c s key) eqn:E; [|done]. exfalso. by apply Hr. }
    rewrite Hnone. simpl. unfold resolved_list in Hnone.
    destruct (dict_get s (sln_configurations_map c)) as [M|] eqn:HM; [|done]. simpl in *.
    unfold contribution in *. simpl in *. destruct (decide (M.1 = None)); [done|].
    apply dict_get_Some_elem in HM.
    destruct (wf_ctx_item c s M Hwf HM) as (_ & [r Hr'] & _). simpl in Hr'.
    rewrite Hr' in Hnone. simpl in Hnone.
    rewrite (pass_unchanged init_record key c c' M Hwf Hpost); [by rewrite Hr'|done|].
    unfold resolved_list.
    destruct (dict_get M (sln_configurations_map c)) as [M2|] eqn:HM2; [|done]. simpl.
    apply dict_get_Some_elem in HM2.
    destruct (wf_ctx_item c M M2 Hwf HM2) as (_ & _ & _ & _ & Hself). simpl in Hself.
    assert (M2 = M) as -> by (apply Hself; by rewrite Hr').
    unfold contribution. simpl. rewrite decide_False by done. by rewrite Hr'.
Qed.

Lemma pass_self_mapped key c c' s :
  wf_ctx c → pass_post init_record key c c' →
  (is_Some (resolved_list c s key) ∨ dict_get s (sln_configurations_map c) = Some s) →
  dict_get s (sln_configurations_map c') = Some s.
Proof.
  intros Hwf Hpost Hcase.
  destruct (pass_map_lookup init_record key c c' Hwf Hpost) as [_ Hget].
  rewrite Hget. destruct (decide _); [done|].
  destruct (decide (is_Some (resolved_list c s key))) as [|Hn]; [done|].
  by destruct Hcase.
Qed.

Lemma pass_merged_form key c c' :
  wf_ctx c → pass_post init_record key c c' → merged_form c' key.
Proof.
  intros Hwf Hpost. split.
  - intros s Hs. rewrite (pass_resolved_same key c c') in Hs by done.
    apply fmap_is_Some in Hs. apply (pass_self_mapped key c c' s Hwf Hpost). by left.
  - intros a v (s0 & Ha0 & Hs0) Hall.
    rewrite (pass_resolved_same key c c') in Hs0 by done.
    apply fmap_is_Some in Hs0 as [l0 Hl0].
    assert (v ∈ common_set (group_of (settings c) key (sln_configurations_map c) a)) as Hv.
    { apply common_set_resolved; [done|by exists s0|].
      intros s l Ha Hl.
      specialize (Hall s (filter (λ v, v ∉ common_set
                    (group_of (settings c) key (sln_configurations_map c) s.2)) l) Ha).
      rewrite (pass_resolved_same key c c'), Hl in Hall by done.
      specialize (Hall eq_refl). by apply list_elem_of_filter in Hall as [_ ?]. }
    specialize (Hall s0 (filter (λ v, v ∉ common_set
                  (group_of (settings c) key (sln_configurations_map c) s0.2)) l0) Ha0).
    rewrite (pass_resolved_same key c c'), Hl0 in Hall by done.
    specialize (Hall eq_refl). apply list_elem_of_filter in Hall as [Hn _].
    apply Hn. by rewrite Ha0.
Qed.

Lemma pass_merged_form_other key key2 c c' :
  wf_ctx c → pass_post init_record key c c' → key ≠ key2 →
  merged_form c key2 → merged_form c' key2.
Proof.
  intros Hwf Hpost Hne [Hself Hno]. split.
  - intros s Hs. rewrite (pass_resolved_other init_record key key2 c c') in Hs by done.
    apply (pass_self_mapped key c c' s Hwf Hpost). right. by apply Hself.
  - intros a v (s0 & Ha0 & Hs0) Hall.
    rewrite (pass_resolved_other init_record key key2 c c') in Hs0 by done.
    apply (Hno a v); [by exists s0|].
    intros s l Ha Hl. apply (Hall s l Ha).
    by rewrite (pass_resolved_other init_record key key2 c c').
Qed.

Lemma pass_archs key c c' (a : Arch) :
  wf_ctx c → pass_post init_record key c c' →
  a ∈ archs (sln_configurations_map c') ↔ a ∈ archs (sln_configurations_map c).
Proof.
  intros Hwf Hpost.
  destruct (pass_map_lookup init_record key c c' Hwf Hpost) as [Hnd Hget].
  unfold archs. rewrite !list_elem_of_fmap. split.
  - intros ([s M'] & -> & Hin). simpl.
    apply (elem_of_dict_get _ _ _ Hnd) in Hin. rewrite Hget in Hin.
    destruct (decide (s.1 = None ∧ s.2 ≠ None ∧ s.2 ∈ archs (sln_configurations_map c)))
      as [(H1 & H2 & H3)|Hw].
    { unfold archs in H3. by apply list_elem_of_fmap in H3. }
    destruct (decide (is_Some (resolved_list c s key))) as [[l Hl]|Hr].
    + apply resolved_list_Some in Hl as (M & HinM & _); [|apply Hwf]. by exists (s, M).
    + apply dict_get_Some_elem in Hin. by exists (s, M').
  - intros ([s M] & -> & Hin). simpl.
    assert (is_Some (dict_get s (sln_configurations_map c'))) as [M' HM'].
    { rewrite Hget. destruct (decide _); [done|]. destruct (decide _); [done|].
      apply dict_get_is_Some. apply list_elem_of_fmap. by exists (s, M). }
    exists (s, M'). split; [done|]. by apply dict_get_Some_elem.
Qed.

Lemma pass_wild_closed key c c' :
  wf_ctx c → pass_post init_record key c c' → wild_closed c'.
Proof.
  intros Hwf Hpost a Ha1 Ha2.
  apply (pass_archs key c c' a Hwf Hpost) in Ha2.
  destruct (pass_map_lookup init_record key c c' Hwf Hpost) as [_ Hget].
  rewrite Hget. by rewrite decide_True.
Qed.
End merged_form_facts.

(** * Runs of passes *)

Section run_facts.
Variable init_record : ConfigKey → SettingsRecord.
Implicit Types (c : CtxData) (key : string) (s x : ConfigKey) (ks : list string).

Lemma pass_same_frame key c c' : pass_post init_record key c c' → same_frame c c'.
Proof. by intros (D & A & _ & _ & _ & _ & Hfr & _). Qed.

(** A run of passes over the keys [ks]. *)
Lemma merge_list_run ks c :
  wf_ctx c →
  ∃ c', for_each (merge_key init_record) ks c = Ok c' ∧
    wf_ctx c' ∧ same_frame c c' ∧
    (∀ a : Arch, a ∈ archs (sln_configurations_map c') ↔ a ∈ archs (sln_configurations_map c)) ∧
    (∀ x, is_Some (settings c !! x) → is_Some (settings c' !! x)) ∧
    (wild_closed c ∨ ks ≠ [] → wild_closed c') ∧
    (∀ key, key ∉ ks →
       (∀ s, resolved_list c' s key = resolved_list c s key) ∧
       (∀ x, is_Some (settings c !! x) → stored_list c' x key = stored_list c x key) ∧
       (merged_form c key → merged_form c' key)).
Proof.
  revert c. induction ks as [|k ks IH]; intros c Hwf.
  - exists c. simpl. split_and!; try done. by intros [?|?].
  - simpl. destruct (merge_key_spec init_record k c Hwf) as (c1 & -> & Hpost). simpl.
    pose proof (pass_wf init_record k c c1 Hwf Hpost) as Hwf1.
    destruct (IH c1 Hwf1) as (c' & Hrun & Hwf' & Hfr & Harchs & Hsome & Hwild & Hkeys).
    exists c'. split_and!; try done.
    + apply (same_frame_trans c c1 c'); [|done]. by apply (pass_same_frame k).
    + intros a. rewrite Harchs. by apply (pass_archs init_record k).
    + intros x Hx. apply Hsome. by apply (pass_settings_Some init_record k c).
    + intros _. apply Hwild. left. by apply (pass_wild_closed init_record k c).
    + intros key Hkey. apply not_elem_of_cons in Hkey as [Hne Hkey].
      destruct (Hkeys key Hkey) as (Hres & Hst & Hmf). split_and!.
      * intros s. rewrite Hres. by apply (pass_resolved_other init_record k).
      * intros x Hx. rewrite Hst by (by apply (pass_settings_Some init_record k c)).
        by apply (pass_stored_other init_record k).
      * intros Hm. apply Hmf. by apply (pass_merged_form_other init_record k key c).
Qed.

(** After a run, the context is in merged form for every key of the run. *)
Lemma merge_list_merged_form ks c c' :
  wf_ctx c → for_each (merge_key init_record) ks c = Ok c' →
  ∀ key, key ∈ ks → merged_form c' key.
Proof.
  revert c. induction ks as [|k ks IH]; intros c Hwf Hrun key Hkey.
  - by apply elem_of_nil in Hkey.
  - simpl in Hrun. destruct (merge_key_spec init_record k c Hwf) as (c1 & Hk & Hpost).
    rewrite Hk in Hrun. simpl in Hrun.
    pose proof (pass_wf init_record k c c1 Hwf Hpost) as Hwf1.
    destruct (decide (key ∈ ks)) as [Hin|Hnin]; [by apply (IH c1)|].
    apply elem_of_cons in Hkey as [->|?]; [|done].
    destruct (merge_list_run ks c1 Hwf1) as (c2 & Hrun2 & _ & _ & _ & _ & _ & Hkeys).
    rewrite Hrun in Hrun2. injection Hrun2 as <-.
    destruct (Hkeys k Hnin) as (_ & _ & Hmf). apply Hmf.
    by apply (pass_merged_form init_record k c).
Qed.
End run_facts.

(** * The lists stored for a key *)

Section key_facts.
Variable init_record : ConfigKey → SettingsRecord.
Implicit Types (c : CtxData) (key : string) (s x : ConfigKey) (ks : list string).

Lemma stored_list_is_Some c x key (l : list string) :
  stored_list c x key = Some l → is_Some (settings c !! x).
Proof. unfold stored_list. by destruct (settings c !! x). Qed.

Lemma common_set_resolved_iff c key (a : Arch) (v : string) :
  wf_ctx c →
  v ∈ common_set (group_of (settings c) key (sln_configurations_map c) a) ↔
  (∃ s, s.2 = a ∧ is_Some (resolved_list c s key)) ∧
  ∀ s (l : list string), s.2 = a → resolved_list c s key = Some l → v ∈ l.
Proof.
  intros Hwf. split.
  - intros Hv.
    assert (∃ s, s.2 = a ∧ is_Some (resolved_list c s key)) as Hex.
    { destruct (group_of (settings c) key (sln_configurations_map c) a) as [|[s l] g] eqn:Hg.
      - by apply elem_of_empty in Hv.
      - exists s.
        assert ((s, l) ∈ group_of (settings c) key (sln_configurations_map c) a) as Hin
          by (rewrite Hg; left).
        apply (elem_of_group_of_resolved c key a s l Hwf) in Hin as [? Hl]. by rewrite Hl. }
    split; [done|]. by apply common_set_resolved.
  - intros [Hex Hall]. by apply common_set_resolved.
Qed.

(** The lists that a run stores for one of its keys, in terms of what the
    configurations brought to the merge. *)
Lemma merge_list_key ks key c :
  wf_ctx c → NoDup ks → key ∈ ks →
  ∃ c', for_each (merge_key init_record) ks c = Ok c' ∧ wf_ctx c' ∧
    (∀ x, x.1 ≠ None → is_Some (settings c !! x) → resolved_list c x key = None →
       stored_list c' x key = stored_list c x key) ∧
    ∀ a : Arch, a ≠ None → a ∈ archs (sln_configurations_map c) →
      ∃ common : list string,
        stored_list c' (None, a) key = Some common ∧ NoDup common ∧
        (∀ v, v ∈ common ↔
              (∃ s, s.2 = a ∧ is_Some (resolved_list c s key)) ∧
              ∀ s (l : list string), s.2 = a → resolved_list c s key = Some l → v ∈ l) ∧
        (∀ s (l : list string), s.2 = a → resolved_list c s key = Some l →
           stored_list c' s key = Some (filter (λ v, v ∉ common) l)).
Proof.
  intros Hwf Hnd Hkey. apply list_elem_of_split in Hkey as (k1 & k2 & ->).
  apply NoDup_app in Hnd as (_ & Hk1 & Hnd2). apply NoDup_cons in Hnd2 as [Hk2 _].
  assert (key ∉ k1) as Hk1'.
  { intros Hin. apply (Hk1 key Hin). left. }
  rewrite for_each_app.
  destruct (merge_list_run init_record k1 c Hwf)
    as (c1 & -> & Hwf1 & _ & Harchs1 & Hsome1 & _ & Hkeys1).
  destruct (Hkeys1 key Hk1') as (Hres1 & Hst1 & _).
  simpl. destruct (merge_key_spec init_record key c1 Hwf1) as (c2 & -> & Hpost). simpl.
  pose proof (pass_wf init_record key c1 c2 Hwf1 Hpost) as Hwf2.
  destruct (merge_list_run init_record k2 c2 Hwf2)
    as (c' & -> & Hwf' & _ & _ & _ & _ & Hkeys2).
  destruct (Hkeys2 key Hk2) as (_ & Hst2 & _).
  exists c'. split; [done|]. split; [done|]. split.
  { intros x Hx Hsome Hnone.
    pose proof (Hsome1 x Hsome) as Hsome1x.
    rewrite <-Hres1 in Hnone.
    pose proof (pass_unchanged init_record key c1 c2 x Hwf1 Hpost Hx Hnone) as Hun.
    rewrite Hst2 by (by rewrite Hun).
    rewrite <-Hst1 by done. unfold stored_list. by rewrite Hun. }
  intros a Ha1 Ha2.
  apply Harchs1 in Ha2.
  pose proof (pass_wildcard_list init_record key c1 c2 a Hwf1 Hpost Ha1 Ha2) as Hw.
  set (common := common_list (settings c1) key (sln_configurations_map c1) a) in *.
  assert (∀ v, v ∈ common ↔
            (∃ s, s.2 = a ∧ is_Some (resolved_list c s key)) ∧
            ∀ s (l : list string), s.2 = a → resolved_list c s key = Some l → v ∈ l) as Hcommon.
  { intros v. unfold common. rewrite common_list_elem, common_set_resolved_iff by done.
    by setoid_rewrite Hres1. }
  exists common. split_and!.
  - rewrite Hst2; [done|]. by apply (stored_list_is_Some c2 _ key common).
  - apply common_list_NoDup.
  - done.
  - intros s l Ha Hl. rewrite <-Hres1 in Hl.
    pose proof (pass_residual init_record key c1 c2 s l Hwf1 Hpost Hl) as Hr.
    rewrite Hst2; [|by apply (stored_list_is_Some c2 _ key _ Hr)].
    rewrite Hr. f_equal. apply list_filter_iff. intros v. rewrite Ha.
    unfold common. by rewrite common_list_elem.
Qed.
End key_facts.

(** * A second run *)

Section rerun_facts.
Variable init_record : ConfigKey → SettingsRecord.
Implicit Types (c : CtxData) (key : string) (s x : ConfigKey) (ks : list string).

(** A pass on a context in merged form changes neither the configuration
    map nor the concrete records. *)
Lemma rerun_pass key c c' :
  wf_ctx c → wild_closed c → merged_form c key → pass_post init_record key c c' →
  sln_configurations_map c' = sln_configurations_map c ∧
  ∀ x, x.1 ≠ None → settings c' !! x = settings c !! x.
Proof.
  intros Hwf Hwild [Hself Hno] Hpost. split.
  - destruct Hpost as (D & A & -> & HndA & HA & HD & _ & _).
    rewrite (mark_id D).
    + apply self_map_id. intros s Hs. apply elem_of_wildcard_keys in Hs as [H1 H2].
      apply HA in H2 as [H2 H3]. destruct s as [s1 s2]. simpl in *. subst s1.
      by apply Hwild.
    + intros s M Hin HsD.
      apply (pass_post_D key c c' D s Hwf HD) in HsD.
      apply Hself in HsD. apply (elem_of_dict_get _ _ _ (proj1 Hwf)) in Hin. congruence.
  - intros x Hx. rewrite (pass_settings_lookup init_record key c c') by done.
    rewrite decide_False by (intros [? _]; done).
    destruct (resolved_list c x key) as [l|] eqn:Hl.
    2: { by rewrite rewritten_record_None. }
    destruct (rewritten_record_resolved c key x l Hwf Hl)
      as (M & r & HinM & HM1 & Hs1 & Hr & Hlr & ->).
    assert (M = x) as ->.
    { apply (elem_of_dict_get _ _ _ (proj1 Hwf)) in HinM.
      rewrite Hself in HinM by (by rewrite Hl). congruence. }
    rewrite Hr. f_equal. rewrite filter_all; [by apply set_list_id|].
    intros v Hv Hc. apply common_set_resolved_iff in Hc as [Hex Hall]; [|done].
    by apply (Hno x.2 v).
Qed.

Lemma rerun_list ks c :
  wf_ctx c → wild_closed c → (∀ key, key ∈ ks → merged_form c key) →
  ∃ c', for_each (merge_key init_record) ks c = Ok c' ∧
    sln_configurations_map c' = sln_configurations_map c ∧
    ∀ x, x.1 ≠ None → settings c' !! x = settings c !! x.
Proof.
  revert c. induction ks as [|k ks IH]; intros c Hwf Hwild Hmf.
  - by exists c.
  - simpl. destruct (merge_key_spec init_record k c Hwf) as (c1 & -> & Hpost). simpl.
    destruct (rerun_pass k c c1 Hwf Hwild (Hmf k ltac:(left)) Hpost) as [Hmap1 Hσ1].
    destruct (IH c1) as (c' & -> & Hmap' & Hσ').
    + by apply (pass_wf init_record k c).
    + by apply (pass_wild_closed init_record k c).
    + intros key Hkey. destruct (decide (k = key)) as [->|Hne].
      * by apply (pass_merged_form init_record key c).
      * apply (pass_merged_form_other init_record k key c c1); [done..|].
        apply Hmf. by right.
    + exists c'. split; [done|]. split; [congruence|].
      intros x Hx. rewrite Hσ' by done. by apply Hσ1.
Qed.
End rerun_facts.

(** * The recursion into the per-file contexts *)

Section tree_facts.
Variable lists_of_settings_to_merge : list string.
Variable init_record : ConfigKey → SettingsRecord.

Lemma merge_data_settings_data (context context' : Context) :
  merge_data_settings lists_of_settings_to_merge init_record context = Ok context' →
  merge_keys lists_of_settings_to_merge init_record (data context) = Ok (data context').
Proof.
  destruct context as [d files]. simpl.
  destruct (merge_keys lists_of_settings_to_merge init_record d) as [d'|]; [|done]. simpl.
  destruct files as [fs|].
  - match goal with |- context [?f fs] => destruct (f fs) as [fs'|] end; [|done].
    simpl. by intros [= <-].
  - by intros [= <-].
Qed.

Lemma merge_keys_total (c : CtxData) :
  wf_ctx c →
  ∃ c', merge_keys lists_of_settings_to_merge init_record c = Ok c' ∧ wf_ctx c'.
Proof.
  intros Hwf.
  destruct (merge_list_run init_record lists_of_settings_to_merge c Hwf) as (c' & Hrun & Hwf' & _).
  by exists c'.
Qed.

(** Merging a well-formed context raises no exception. *)
Lemma merge_data_settings_total (context : Context) :
  wf_context context →
  ∃ context', merge_data_settings lists_of_settings_to_merge init_record context = Ok context'.
Proof.
  revert context. fix IH 1. intros [d files] [Hwf Hfiles]. simpl.
  destruct (merge_keys_total d Hwf) as (d' & -> & _). simpl.
  destruct files as [fs|]; [|by eexists].
  assert (∃ fs',
            (fix merge_files (fs : list (string * Context)) : result (list (string * Context)) :=
               match fs with
               | [] => Ok []
               | (file, fc) :: rest =>
                   fc ← merge_data_settings lists_of_settings_to_merge init_record fc;
                   rest ← merge_files rest;
                   Ok ((file, fc) :: rest)
               end) fs = Ok fs') as (fs' & ->).
  { induction fs as [|[file fc] fs IHfs]; [by eexists|].
    destruct Hfiles as [Hfc Hrest].
    destruct (IH fc Hfc) as (fc' & ->). simpl.
    destruct (IHfs Hrest) as (fs' & ->). simpl. by eexists. }
  simpl. by eexists.
Qed.
End tree_facts.

(** * The validator *)

Section validator_facts.
Implicit Types (c : CtxData) (s : gmap ConfigKey SettingsRecord).


Lemma absent_settings_elem c (k : ConfigKey) :
  k ∈ absent_settings c ↔ k ∈ configurations_to_parse c ∧ k ∉ dom (settings c).
Proof. unfold absent_settings. rewrite elem_of_filter. tauto. Qed.

Lemma absent_settings_empty c :
  absent_settings c = ∅ ↔
  ∀ k : ConfigKey, k ∈ configurations_to_parse c → k ∈ dom (settings c).
Proof.
  split.
  - intros He k Hk. destruct (decide (k ∈ dom (settings c))) as [|Hn]; [done|].
    assert (k ∈ absent_settings c) as Hin by (by apply absent_settings_elem).
    rewrite He in Hin. by apply elem_of_empty in Hin.
  - intros Hall. apply set_eq. intros k. rewrite absent_settings_elem. split.
    + intros [Hk Hn]. exfalso. by apply Hn, Hall.
    + intros Hk. by apply elem_of_empty in Hk.
Qed.

Lemma size_pos_nonempty (X : gset ConfigKey) : 0 < size X ↔ X ≠ ∅.
Proof.
  split.
  - intros Hs ->. rewrite size_empty in Hs. lia.
  - intros Hne. destruct (decide (size X = 0)) as [E|]; [|lia].
    apply size_empty_inv in E. exfalso. apply Hne. by apply leibniz_equiv.
Qed.
End validator_facts.

(** * Well-formedness of the merged tree *)

Section tree_wf.
Variable lists_of_settings_to_merge : list string.
Variable init_record : ConfigKey → SettingsRecord.

Lemma merge_data_settings_wf (context context' : Context) :
  wf_context context →
  merge_data_settings lists_of_settings_to_merge init_record context = Ok context' →
  wf_context context'.
Proof.
  revert context context'. fix IH 1. intros [d files] context' [Hwf Hfiles]. simpl.
  destruct (merge_keys_total lists_of_settings_to_merge init_record d Hwf) as (d' & -> & Hwf').
  simpl. destruct files as [fs|]; [|by intros [= <-]].
  assert (∀ fs',
            (fix merge_files (fs : list (string * Context)) : result (list (string * Context)) :=
               match fs with
               | [] => Ok []
               | (file, fc) :: rest =>
                   fc ← merge_data_settings lists_of_settings_to_merge init_record fc;
                   rest ← merge_files rest;
                   Ok ((file, fc) :: rest)
               end) fs = Ok fs' →
            (fix all (fs : list (string * Context)) : Prop :=
               match fs with
               | [] => True
               | (_, fc) :: rest => wf_context fc ∧ all rest
               end) fs') as Hall.
  { induction fs as [|[file fc] fs IHfs]; intros fs'.
    - by intros [= <-].
    - destruct Hfiles as [Hfc Hrest].
      destruct (merge_data_settings lists_of_settings_to_merge init_record fc)
        as [fc'|] eqn:Efc; [|done]. simpl.
      match goal with |- context [?f fs] => destruct (f fs) as [fs''|] eqn:Efs end; [|done].
      simpl. intros [= <-]. split.
      + by apply (IH fc fc').
      + by apply IHfs. }
  match goal with |- context [?f fs] => destruct (f fs) as [fs'|] eqn:Efs end; [|done].
  simpl. intros [= <-]. simpl. split; [done|]. by apply Hall.
Qed.
End tree_wf.

(** * The merge of a well-formed context *)

Section hoisting_facts.
Variable lists_of_settings_to_merge : list string.
Variable init_record : ConfigKey → SettingsRecord.

Lemma wf_context_data (context : Context) : wf_context context → wf_ctx (data context).
Proof. destruct context as [d files]. by intros [? _]. Qed.

Lemma contributes_arch (c : CtxData) key (a : Arch) (s : ConfigKey) (l : list string) :
  wf_ctx c → contributes c key a s l →
  a ≠ None ∧ a ∈ archs (sln_configurations_map c).
Proof.
  intros Hwf (M & r & Hin & Ha & _).
  destruct (wf_ctx_item c s M Hwf Hin) as (_ & _ & Harch & _). simpl in Harch.
  subst a. split.
  - intros E. rewrite E in Harch. by destruct Harch.
  - unfold archs. apply list_elem_of_fmap. by exists (s, M).
Qed.

(** The lists stored for a key by a whole merge of a well-formed context. *)
Lemma merge_keys_hoisting (c c' : CtxData) key (arch : Arch) :
  NoDup lists_of_settings_to_merge → wf_ctx c →
  merge_keys lists_of_settings_to_merge init_record c = Ok c' →
  key ∈ lists_of_settings_to_merge →
  (∃ s l, contributes c key arch s l) →
  hoisting_property c c' key arch.
Proof.
  intros Hnd Hwf Hrun Hkey (s0 & l0 & Hc0).
  destruct (merge_list_key init_record lists_of_settings_to_merge key c Hwf Hnd Hkey)
    as (c2 & Hrun2 & _ & _ & Harch).
  unfold merge_keys in Hrun. rewrite Hrun in Hrun2. injection Hrun2 as <-.
  destruct (contributes_arch c key arch s0 l0 Hwf Hc0) as [Ha1 Ha2].
  destruct (Harch arch Ha1 Ha2) as (common & Hst & Hndc & Hmem & Hres).
  assert (∀ v, v ∈ common ↔ ∀ s l, contributes c key arch s l → v ∈ l) as Hmem'.
  { intros v. rewrite Hmem. split.
    - intros [_ Hall] s l Hc. apply (contributes_resolved c key arch s l Hwf) in Hc as [Ha Hl].
      by apply (Hall s l).
    - intros Hall. split.
      + apply (contributes_resolved c key arch s0 l0 Hwf) in Hc0 as [Ha Hl].
        exists s0. by rewrite Hl.
      + intros s l Ha Hl. apply (Hall s l).
        by apply (contributes_resolved c key arch s l Hwf). }
  exists common. split_and!; try done.
  intros s l Hc. pose proof Hc as Hc'.
  apply (contributes_resolved c key arch s l Hwf) in Hc as [Ha Hl].
  exists (filter (λ v, v ∉ common) l). split_and!; [by apply Hres|done|].
  apply set_eq. intros v.
  rewrite elem_of_union, !elem_of_list_to_set, list_elem_of_filter. split.
  - intros [Hv|[_ Hv]]; [|done]. by apply (proj1 (Hmem' v) Hv s l).
  - intros Hv. destruct (decide (v ∈ common)); [by left|by right].
Qed.
End hoisting_facts.

(** * The claims of the specification *)

(** The runs on [crossed_context]: the lists left to the two configurations
    for the key [cl_flags], with the two keys merged in one order and in the
    other. *)
Example crossed_context_run :
  (context' ← merge_data_settings ["defines"; "cl_flags"] baseline
                 (mkContext crossed_context None);
   Ok (stored_list (data context') debug_x64 "cl_flags",
       stored_list (data context') release_x64 "cl_flags"))
  = Ok (Some ["D"], Some ["B"]).
Proof. vm_compute. reflexivity. Qed.

Example crossed_context_run_swapped :
  (context' ← merge_data_settings ["cl_flags"; "defines"] baseline
                 (mkContext crossed_context None);
   Ok (stored_list (data context') debug_x64 "cl_flags",
       stored_list (data context') release_x64 "cl_flags"))
  = Ok (Some ["B"], Some ["D"]).
Proof. vm_compute. reflexivity. Qed.

(** C1. The code at [crossed_context], where two solution configurations
    resolve to each other's record. The first configuration contributes the
    list ["B"] for [cl_flags], and no value is common, so its residual list
    should be ["B"]. With the keys merged in the order [defines], [cl_flags]
    it is left with ["D"]: the pass for [defines] wrote its residual into the
    configuration's own record and made the configuration resolve to it, so
    that the pass for [cl_flags] reads the wrong record. In the other order
    it is left with ["B"]. The property of the claim fails at this input. *)
Theorem merge_hoists_crossed_defect :
  contributes crossed_context "cl_flags" (Some "x64") debug_x64 ["B"] ∧
  contributes crossed_context "cl_flags" (Some "x64") release_x64 ["D"] ∧
  (context' ← merge_data_settings ["defines"; "cl_flags"] baseline
                 (mkContext crossed_context None);
   Ok (stored_list (data context') debug_x64 "cl_flags",
       stored_list (data context') release_x64 "cl_flags"))
  = Ok (Some ["D"], Some ["B"]) ∧
  (context' ← merge_data_settings ["cl_flags"; "defines"] baseline
                 (mkContext crossed_context None);
   Ok (stored_list (data context') debug_x64 "cl_flags",
       stored_list (data context') release_x64 "cl_flags"))
  = Ok (Some ["B"], Some ["D"]) ∧
  ¬ merge_hoists ["defines"; "cl_flags"] baseline (mkContext crossed_context None).
Proof.
  assert (contributes crossed_context "cl_flags" (Some "x64") debug_x64 ["B"]) as Hc.
  { exists release_x64, (record_of "Application" [("defines", ["A"]); ("cl_flags", ["B"])]).
    split_and!; [left|reflexivity|discriminate|vm_compute; reflexivity|vm_compute; reflexivity]. }
  assert (contributes crossed_context "cl_flags" (Some "x64") release_x64 ["D"]) as Hc2.
  { exists debug_x64, (record_of "Application" [("defines", ["A"]); ("cl_flags", ["D"])]).
    split_and!; [right; left|reflexivity|discriminate|vm_compute; reflexivity
                |vm_compute; reflexivity]. }
  split; [exact Hc|]. split; [exact Hc2|]. split; [exact crossed_context_run|].
  split; [exact crossed_context_run_swapped|].
  intros H. pose proof crossed_context_run as Hrun.
  destruct (merge_data_settings ["defines"; "cl_flags"] baseline
              (mkContext crossed_context None)) as [context'|] eqn:E; [|discriminate Hrun].
  simpl in Hrun. injection Hrun as Hst _.
  assert ("cl_flags" ∈ ["defines"; "cl_flags"]) as Hkey by (right; left).
  assert (∃ s l, contributes crossed_context "cl_flags" (Some "x64") s l) as Hex
    by (by exists debug_x64, ["B"]).
  destruct (H context' E "cl_flags" (Some "x64") Hkey Hex) as (common & _ & _ & _ & Hres).
  destruct (Hres debug_x64 ["B"] Hc) as (residual & Hst' & Heq & _).
  change (data (mkContext crossed_context None)) with crossed_context in Hst'.
  rewrite Hst in Hst'. injection Hst' as <-.
  assert ("D" ∈ filter (λ v, v ∉ common) ["B"]) as Hin by (rewrite <-Heq; left).
  apply list_elem_of_filter in Hin as [_ Hin].
  apply list_elem_of_singleton in Hin. discriminate Hin.
Qed.

(** The run on [crossed_context] for the one key [cl_flags]: the lists left
    under the keys of the two configurations. *)
Example crossed_context_run_unshared :
  (context' ← merge_data_settings ["cl_flags"] baseline (mkContext crossed_context None);
   Ok (stored_list (data context') debug_x64 "cl_flags",
       stored_list (data context') release_x64 "cl_flags",
       stored_list (data context') wildcard_x64 "cl_flags"))
  = Ok (Some ["B"], Some ["D"], Some []).
Proof. vm_compute. reflexivity. Qed.

(** C6. The code at [crossed_context], where two solution configurations
    resolve to each other's record and share no value for [cl_flags]: the
    common list is empty, yet the residual rewrite replaces the list ["D"] of
    the record under the first configuration's key by ["B"], the list of the
    record it resolved to, and the list of the other record by ["D"]. The
    property of the claim fails at this input. *)
Theorem merge_keeps_unshared_crossed_defect :
  stored_list crossed_context debug_x64 "cl_flags" = Some ["D"] ∧
  stored_list crossed_context release_x64 "cl_flags" = Some ["B"] ∧
  (context' ← merge_data_settings ["cl_flags"] baseline (mkContext crossed_context None);
   Ok (stored_list (data context') debug_x64 "cl_flags",
       stored_list (data context') release_x64 "cl_flags",
       stored_list (data context') wildcard_x64 "cl_flags"))
  = Ok (Some ["B"], Some ["D"], Some []) ∧
  ¬ merge_keeps_unshared ["cl_flags"] baseline (mkContext crossed_context None).
Proof.
  split; [vm_compute; reflexivity|]. split; [vm_compute; reflexivity|].
  split; [exact crossed_context_run_unshared|].
  intros H. pose proof crossed_context_run_unshared as Hrun.
  destruct (merge_data_settings ["cl_flags"] baseline (mkContext crossed_context None))
    as [context'|] eqn:E; [|discriminate Hrun].
  simpl in Hrun. injection Hrun as Hst _ _.
  assert (contributes crossed_context "cl_flags" (Some "x64") debug_x64 ["B"]) as Hd.
  { exists release_x64, (record_of "Application" [("defines", ["A"]); ("cl_flags", ["B"])]).
    split_and!; [left|reflexivity|discriminate|vm_compute; reflexivity|vm_compute; reflexivity]. }
  assert (contributes crossed_context "cl_flags" (Some "x64") release_x64 ["D"]) as Hp.
  { exists debug_x64, (record_of "Application" [("defines", ["A"]); ("cl_flags", ["D"])]).
    split_and!; [right; left|reflexivity|discriminate|vm_compute; reflexivity
                |vm_compute; reflexivity]. }
  assert ("cl_flags" ∈ ["cl_flags"]) as Hkey by left.
  assert (∃ s l, contributes crossed_context "cl_flags" (Some "x64") s l) as Hex
    by (by exists debug_x64, ["B"]).
  assert (∀ v, ¬ ∀ s l, contributes crossed_context "cl_flags" (Some "x64") s l → v ∈ l)
    as Hno.
  { intros v Hall. pose proof (Hall _ _ Hd) as H1. pose proof (Hall _ _ Hp) as H2.
    apply list_elem_of_singleton in H1. apply list_elem_of_singleton in H2.
    subst v. discriminate H2. }
  destruct (H context' E "cl_flags" (Some "x64") Hkey Hex Hno) as (_ & _ & Hkeep).
  assert (settings crossed_context !! debug_x64
          = Some (record_of "Application" [("defines", ["A"]); ("cl_flags", ["D"])])) as Hr
    by (vm_compute; reflexivity).
  specialize (Hkeep debug_x64 _ ltac:(discriminate) eq_refl Hr).
  rewrite Hst in Hkeep. vm_compute in Hkeep. discriminate Hkeep.
Qed.

Section second_run.
Variable lists_of_settings_to_merge : list string.
Variable init_record : ConfigKey → SettingsRecord.

Lemma merge_keys_rerun (c c1 : CtxData) :
  NoDup lists_of_settings_to_merge → wf_ctx c →
  merge_keys lists_of_settings_to_merge init_record c = Ok c1 →
  ∃ c2, merge_keys lists_of_settings_to_merge init_record c1 = Ok c2 ∧
    sln_configurations_map c2 = sln_configurations_map c1 ∧
    (∀ x : ConfigKey, x.1 ≠ None → settings c2 !! x = settings c1 !! x) ∧
    (∀ key (a : Arch), key ∈ lists_of_settings_to_merge → a ≠ None →
       a ∈ archs (sln_configurations_map c1) →
       stored_list c2 (None, a) key = Some []).
Proof.
  intros Hnd Hwf Hrun. unfold merge_keys in *.
  destruct (merge_list_run init_record lists_of_settings_to_merge c Hwf)
    as (c1' & Hrun' & Hwf1 & _ & _ & _ & Hwild & _).
  rewrite Hrun in Hrun'. injection Hrun' as <-.
  pose proof (merge_list_merged_form init_record lists_of_settings_to_merge c c1 Hwf Hrun)
    as Hmf.
  destruct (decide (lists_of_settings_to_merge = [])) as [E|E].
  { rewrite E. exists c1. split_and!; try done.
    intros key a Hkey. by apply elem_of_nil in Hkey. }
  assert (wild_closed c1) as Hwc by (apply Hwild; by right).
  destruct (rerun_list init_record lists_of_settings_to_merge c1 Hwf1 Hwc Hmf)
    as (c2 & Hrun2 & Hmap & Hσ).
  exists c2. split_and!; try done.
  intros key a Hkey Ha1 Ha2.
  destruct (merge_list_key init_record lists_of_settings_to_merge key c1 Hwf1 Hnd Hkey)
    as (c2' & Hrun2' & _ & _ & Harch).
  rewrite Hrun2 in Hrun2'. injection Hrun2' as <-.
  destruct (Harch a Ha1 Ha2) as (common & Hst & _ & Hmem & _).
  rewrite Hst. f_equal. apply elem_of_nil_inv. intros v Hv.
  apply Hmem in Hv as [Hex Hall]. destruct (Hmf key Hkey) as [_ Hno].
  by apply (Hno a v).
Qed.
End second_run.

(** C3 (amended). For a well-formed context and pairwise distinct mergeable
    keys, a second run of [merge_data_settings] on the result of a first run
    returns and leaves the configuration map and every record stored under a
    concrete (non-wildcard) key unchanged; the common lists hoisted under the
    wildcard keys are not kept: the second run stores the empty list for
    every mergeable key under the wildcard key of every architecture. *)
Theorem rerun_keeps_concrete_records (keys : list string)
    (init_record : ConfigKey → SettingsRecord) (context context1 : Context) :
  NoDup keys → wf_context context →
  merge_data_settings keys init_record context = Ok context1 →
  ∃ context2, merge_data_settings keys init_record context1 = Ok context2 ∧
    sln_configurations_map (data context2) = sln_configurations_map (data context1) ∧
    (∀ x : ConfigKey, x.1 ≠ None →
       settings (data context2) !! x = settings (data context1) !! x) ∧
    (∀ key (a : Arch), key ∈ keys → a ≠ None →
       a ∈ archs (sln_configurations_map (data context1)) →
       stored_list (data context2) (None, a) key = Some []).
Proof.
  intros Hnd Hwf Hrun.
  pose proof (merge_data_settings_wf keys init_record context context1 Hwf Hrun) as Hwf1.
  destruct (merge_data_settings_total keys init_record context1 Hwf1) as (context2 & Hrun2).
  exists context2. split; [done|].
  apply merge_data_settings_data in Hrun. apply merge_data_settings_data in Hrun2.
  destruct (merge_keys_rerun keys init_record (data context) (data context1) Hnd
              (wf_context_data context Hwf) Hrun) as (c2 & Hc2 & Hres).
  rewrite Hrun2 in Hc2. injection Hc2 as <-. exact Hres.
Qed.

Lemma rerun_keeps_concrete_records_witness :
  NoDup ["defines"] ∧ wf_context (mkContext scenario_context None) ∧
  ∃ context1,
    merge_data_settings ["defines"] baseline (mkContext scenario_context None) = Ok context1 ∧
    ∃ context2, merge_data_settings ["defines"] baseline context1 = Ok context2 ∧
      sln_configurations_map (data context2) = sln_configurations_map (data context1) ∧
      (∀ x : ConfigKey, x.1 ≠ None →
         settings (data context2) !! x = settings (data context1) !! x) ∧
      (∀ key (a : Arch), key ∈ ["defines"] → a ≠ None →
         a ∈ archs (sln_configurations_map (data context1)) →
         stored_list (data context2) (None, a) key = Some []).
Proof.
  assert (NoDup ["defines"]) as Hnd by (apply (bool_decide_unpack _); vm_compute; exact I).
  assert (wf_context (mkContext scenario_context None)) as Hwf.
  { split; [|exact I]. apply (bool_decide_unpack _). vm_compute. exact I. }
  split; [exact Hnd|]. split; [exact Hwf|].
  destruct (merge_data_settings_total ["defines"] baseline (mkContext scenario_context None) Hwf)
    as (context1 & Hrun).
  exists context1. split; [exact Hrun|].
  apply (rerun_keeps_concrete_records ["defines"] baseline (mkContext scenario_context None)
           context1 Hnd Hwf Hrun).
Defined.

(** Two runs on the scenario of the specification: the common list after the
    first and after the second run. *)
Example scenario_context_rerun :
  (context1 ← merge_data_settings ["defines"] baseline (mkContext scenario_context None);
   context2 ← merge_data_settings ["defines"] baseline context1;
   Ok (stored_list (data context1) wildcard_x64 "defines",
       stored_list (data context2) wildcard_x64 "defines"))
  = Ok (Some ["X"; "Y"], Some []).
Proof. vm_compute. reflexivity. Qed.

(** C3, as stated, fails: on the second run the residual lists share no value,
    and the empty common list replaces the hoisted one. *)
Lemma rerun_unchanged_counterexample :
  ¬ rerun_unchanged ["defines"] baseline (mkContext scenario_context None).
Proof.
  intros H. pose proof scenario_context_rerun as Hr.
  destruct (merge_data_settings ["defines"] baseline (mkContext scenario_context None))
    as [context1|] eqn:E1; [|discriminate Hr].
  simpl in Hr.
  destruct (merge_data_settings ["defines"] baseline context1)
    as [context2|] eqn:E2; [|discriminate Hr].
  simpl in Hr. injection Hr as H1 H2.
  destruct (H context1 context2 E1 E2) as [Hs _].
  unfold stored_list in H1, H2. rewrite Hs in H2. rewrite H1 in H2. discriminate H2.
Qed.

(** C5. The completeness check fails exactly when some requested
    configuration has no record in the settings store; when it fails, the
    requested set loses the absent configurations and one diagnostic of status
    error, made of the project path and the set of absent configurations, is
    emitted, nothing else changing; when it succeeds the context is
    unchanged. *)
Theorem verify_configurations_to_parse_spec (c : CtxData) :
  let absent := absent_settings c in
  let c' := (verify_configurations_to_parse c).1 in
  let ok := (verify_configurations_to_parse c).2 in
  (∀ k : ConfigKey, k ∈ absent ↔ k ∈ configurations_to_parse c ∧ k ∉ dom (settings c)) ∧
  (ok = false ↔ ∃ k : ConfigKey, k ∈ configurations_to_parse c ∧ k ∉ dom (settings c)) ∧
  (ok = false →
     configurations_to_parse c' = configurations_to_parse c ∖ absent ∧
     (∀ k : ConfigKey, k ∈ configurations_to_parse c' ↔
                       k ∈ configurations_to_parse c ∧ k ∈ dom (settings c)) ∧
     diagnostics c' =
       diagnostics c ++ [mkDiag (AbsentSettingsText (vcxproj_path c) absent) "error"] ∧
     settings c' = settings c ∧
     sln_configurations_map c' = sln_configurations_map c ∧
     vcxproj_path c' = vcxproj_path c ∧ current_setting c' = current_setting c) ∧
  (ok = true → c' = c).
Proof.
  intros absent c' ok. split; [apply absent_settings_elem|].
  unfold ok, c', verify_configurations_to_parse. fold absent.
  destruct (decide (0 < size absent)) as [Hpos|Hpos]; simpl.
  - apply size_pos_nonempty in Hpos. split_and!.
    + split; [intros _|done].
      apply set_choose_L in Hpos as [k Hk]. exists k. by apply absent_settings_elem.
    + intros _. split_and!; try done.
      intros k. rewrite elem_of_difference. unfold absent. rewrite absent_settings_elem.
      split; [|tauto]. intros [Hk Hn]. split; [done|].
      destruct (decide (k ∈ dom (settings c))); [done|]. exfalso. by apply Hn.
    + done.
  - assert (absent = ∅) as Hempty.
    { destruct (decide (absent = ∅)) as [|Hne]; [done|].
      exfalso. apply Hpos. by apply size_pos_nonempty. }
    split_and!; try done. split; [done|].
    intros (k & Hk & Hn). assert (k ∈ absent) as Hin by (by apply absent_settings_elem).
    rewrite Hempty in Hin. by apply elem_of_empty in Hin.
Qed.

(** The pruning scenario: of three requested configurations the store lacks
    one; the check fails, the requested set keeps the other two and the
    diagnostic names the missing one. *)
Example verify_data_pruning :
  (verify_data pruning_context).2 = Ok false ∧
  configurations_to_parse (verify_data pruning_context).1 = {[ debug_x64; profile_x64 ]} ∧
  diagnostics (verify_data pruning_context).1 =
    [mkDiag (AbsentSettingsText "project.vcxproj" {[ release_x64 ]}) "error"].
Proof.
  split_and!.
  - vm_compute. reflexivity.
  - apply (bool_decide_unpack _). vm_compute. exact I.
  - vm_compute. reflexivity.
Qed.






(** C8. [verify_data] leaves the settings store as it is, whether it returns
    or raises: it only appends diagnostics and removes the absent
    configurations from the requested set. *)
Theorem verify_data_frame (c : CtxData) :
  let c' := (verify_data c).1 in
  settings c' = settings c ∧
  sln_configurations_map c' = sln_configurations_map c ∧
  vcxproj_path c' = vcxproj_path c ∧
  current_setting c' = current_setting c ∧
  (∃ emitted, diagnostics c' = diagnostics c ++ emitted) ∧
  (configurations_to_parse c' = configurations_to_parse c ∨
   configurations_to_parse c' = configurations_to_parse c ∖ absent_settings c).
Proof.
  unfold verify_data, verify_target_types.
  destruct (collect_target_types (settings c)) as [types|e]; simpl.
  2: { split_and!; try done; [exists []; by rewrite app_nil_r | by left]. }
  destruct (decide (1 < size types)); unfold verify_configurations_to_parse.
  - assert (absent_settings (message target_types_warning "warn" c) = absent_settings c) as ->
      by done.
    destruct (decide (0 < size (absent_settings c))); simpl.
    + split_and!; try done; [|by right]. eexists. by rewrite <-app_assoc.
    + split_and!; try done; [by eexists | by left].
  - destruct (decide (0 < size (absent_settings c))); simpl.
    + split_and!; try done; [by eexists | by right].
    + split_and!; try done; [exists []; by rewrite app_nil_r | by left].
Qed.

(** C9. The [break] of [__get_common_ordered_settings] tests the whole
    dictionary [set_of_items], which at that point has just been assigned to,
    so it is never taken: the function is the one that filters the whole
    candidate sequence without early exit. *)
Theorem get_common_ordered_settings_no_break
    (merged_order_list_arch : list (Arch * list string)) (set_of_items : SetsOfItems) :
  (∀ (arch : Arch) (items : gset string) (sets : SetsOfItems), <[arch := items]> sets ≠ ∅) ∧
  get_common_ordered_settings merged_order_list_arch set_of_items =
  get_common_ordered_settings_simple merged_order_list_arch set_of_items.
Proof.
  split; [intros arch items sets; apply insert_non_empty|].
  unfold get_common_ordered_settings, get_common_ordered_settings_simple.
  generalize (([] : list (Arch * list string)), set_of_items).
  induction merged_order_list_arch as [|[a l] rest IH]; intros st; [done|].
  simpl. rewrite common_ordered_loop_no_break.
  destruct (common_ordered_loop_simple a l [] st.2) as [[common sets]|]; [|done].
  simpl. apply IH.
Qed.








(** The three functions on the group of the witness: the residual list of
    the first configuration and the common list. *)
Example common_value_multiplicity_run :
  result_settings_list {[ Some "x64" := {[ "X" ]} ]} (Some "x64") ["X"; "X"; "Z"] = Ok ["Z"] ∧
  (orders ← get_order_of_common_settings
              [(Some "x64", [(debug_x64, ["X"; "X"; "Z"]); (release_x64, ["X"; "W"])])];
   commons ← get_common_ordered_settings orders {[ Some "x64" := {[ "X" ]} ]};
   Ok (orders, commons.1))
  = Ok ([(Some "x64", ["X"; "X"; "X"; "W"; "Z"])], [(Some "x64", ["X"])]).
Proof. split; vm_compute; reflexivity. Qed.

(** C2. The scenario of the specification: for the lists ["X","Y","Z"] and
    ["Y","X","W"] of two configurations of one architecture, the intersection
    pass leaves the set {X, Y}, the round-robin candidate sequence is
    [X, Y, Y, X, Z, W], the common list is ["X","Y"], and the merge stores it
    under the wildcard key and leaves ["Z"] and ["W"] to the configurations. *)
Theorem scenario_merge (init_record : ConfigKey → SettingsRecord) :
  ∃ (c1 : CtxData) (set_of_items set_of_items' : SetsOfItems) (context' : Context),
    for_each (intersection_step init_record "defines")
      (sln_configurations_map scenario_context) (scenario_context, [], ∅)
    = Ok (c1,
          [(Some "x64", [(debug_x64, ["X"; "Y"; "Z"]); (release_x64, ["Y"; "X"; "W"])])],
          set_of_items) ∧
    set_of_items !! Some "x64" = Some {[ "X"; "Y" ]} ∧
    get_order_of_common_settings
      [(Some "x64", [(debug_x64, ["X"; "Y"; "Z"]); (release_x64, ["Y"; "X"; "W"])])]
    = Ok [(Some "x64", ["X"; "Y"; "Y"; "X"; "Z"; "W"])] ∧
    get_common_ordered_settings [(Some "x64", ["X"; "Y"; "Y"; "X"; "Z"; "W"])] set_of_items
    = Ok ([(Some "x64", ["X"; "Y"])], set_of_items') ∧
    merge_data_settings ["defines"] init_record (mkContext scenario_context None)
    = Ok context' ∧
    stored_list (data context') wildcard_x64 "defines" = Some ["X"; "Y"] ∧
    stored_list (data context') debug_x64 "defines" = Some ["Z"] ∧
    stored_list (data context') release_x64 "defines" = Some ["W"].
Proof.
  assert (wf_ctx scenario_context) as Hwf by (apply (bool_decide_unpack _); vm_compute; exact I).
  destruct (merge_key_spec init_record "defines" scenario_context Hwf) as (c' & Hrun & Hpost).
  exists (init_context_current_setting init_record (with_current wildcard_x64 scenario_context)),
    {[ Some "x64" := {[ "X"; "Y" ]} ]}, {[ Some "x64" := ∅ ]}, (mkContext c' None).
  split; [vm_compute; reflexivity|].
  split; [vm_compute; reflexivity|].
  split; [vm_compute; reflexivity|].
  split; [vm_compute; reflexivity|].
  split.
  { cbn [merge_data_settings]. unfold merge_keys. cbn [for_each]. by rewrite Hrun. }
  cbn [data]. unfold wildcard_x64. split_and!.
  - rewrite (pass_wildcard_list init_record "defines" scenario_context c' (Some "x64") Hwf Hpost).
    + vm_compute. reflexivity.
    + discriminate.
    + apply (bool_decide_unpack _). vm_compute. exact I.
  - rewrite (pass_residual init_record "defines" scenario_context c' debug_x64 ["X"; "Y"; "Z"]
               Hwf Hpost).
    + vm_compute. reflexivity.
    + vm_compute. reflexivity.
  - rewrite (pass_residual init_record "defines" scenario_context c' release_x64 ["Y"; "X"; "W"]
               Hwf Hpost).
    + vm_compute. reflexivity.
    + vm_compute. reflexivity.
Qed.

(** * The two embeddings agree *)

Section content_lemmas.
Context {K V : Type} `{Countable K}.

Lemma dict_get_list_to_map (k : K) (d : list (K * V)) :
  dict_get k d = (list_to_map d : gmap K V) !! k.
Proof.
  induction d as [|[k' v] d IH]; simpl; [by rewrite lookup_empty|].
  destruct (decide (k = k')) as [->|Hne].
  - by rewrite lookup_insert_eq.
  - by rewrite lookup_insert_ne.
Qed.

Lemma list_to_map_dict_set (k : K) (v : V) (d : list (K * V)) :
  (list_to_map (dict_set k v d) : gmap K V) = <[k := v]> (list_to_map d).
Proof.
  induction d as [|[k' v'] d IH]; simpl; [done|].
  destruct (decide (k = k')) as [->|Hne]; simpl.
  - by rewrite insert_insert_eq.
  - rewrite IH. by rewrite insert_insert_ne.
Qed.

Lemma dict_keys_dom (k : K) (d : list (K * V)) :
  k ∈ d.*1 ↔ k ∈ dom (list_to_map d : gmap K V).
Proof. rewrite dom_list_to_map_L. by rewrite elem_of_list_to_set. Qed.

Lemma list_to_map_nil_inv (d : list (K * V)) : (list_to_map d : gmap K V) = ∅ ↔ d = [].
Proof.
  split; [|by intros ->]. destruct d as [|[k v] d]; [done|]. simpl. intros Hd.
  by apply insert_non_empty in Hd.
Qed.
End content_lemmas.

Section set_content.
Variable hash : string → N.

Lemma insert_by_hash_content (x : string) (s : list string) :
  list_to_set (Hashed.insert_by_hash hash x s) =@{gset string} {[x]} ∪ list_to_set s.
Proof.
  induction s as [|y s IH]; simpl; [done|].
  destruct (hash x <? hash y)%N; simpl; [done|]. rewrite IH. set_solver.
Qed.

Lemma set_add_content (x : string) (s : list string) :
  list_to_set (Hashed.set_add hash x s) =@{gset string} {[x]} ∪ list_to_set s.
Proof.
  unfold Hashed.set_add. destruct (decide (x ∈ s)) as [Hin|Hin].
  - apply (elem_of_list_to_set (C := gset string)) in Hin. set_solver.
  - apply insert_by_hash_content.
Qed.

Lemma set_of_list_content (l : list string) :
  list_to_set (Hashed.set_of_list hash l) =@{gset string} list_to_set l.
Proof.
  unfold Hashed.set_of_list.
  assert (∀ acc : list string,
            list_to_set (foldl (λ (s : list string) (x : string), Hashed.set_add hash x s) acc l)
            =@{gset string} list_to_set acc ∪ list_to_set l) as Hgen.
  { induction l as [|x l IH]; intros acc; simpl; [set_solver|].
    rewrite IH, set_add_content. set_solver. }
  rewrite Hgen. set_solver.
Qed.

Lemma set_intersection_content (s t : list string) :
  list_to_set (Hashed.set_intersection hash s t)
  =@{gset string} list_to_set s ∩ list_to_set t.
Proof.
  unfold Hashed.set_intersection. rewrite set_of_list_content.
  apply set_eq. intros x. rewrite elem_of_intersection, !elem_of_list_to_set.
  by rewrite list_elem_of_filter, (comm and).
Qed.

End set_content.

Lemma set_remove_content (x : string) (s : list string) :
  list_to_set (Hashed.set_remove x s) =@{gset string} list_to_set s ∖ {[x]}.
Proof.
  unfold Hashed.set_remove. apply set_eq. intros y.
  rewrite elem_of_difference, !elem_of_list_to_set, list_elem_of_filter.
  rewrite not_elem_of_singleton. tauto.
Qed.

Lemma store_content_lookup (k : ConfigKey) (s : list (ConfigKey * Hashed.SettingsRecord)) :
  store_content s !! k = record_content <$> dict_get k s.
Proof. unfold store_content. by rewrite lookup_fmap, dict_get_list_to_map. Qed.

Lemma store_content_set (k : ConfigKey) (r : Hashed.SettingsRecord)
    (s : list (ConfigKey * Hashed.SettingsRecord)) :
  store_content (dict_set k r s) = <[k := record_content r]> (store_content s).
Proof. unfold store_content. by rewrite list_to_map_dict_set, fmap_insert. Qed.

Lemma store_content_dom (k : ConfigKey) (s : list (ConfigKey * Hashed.SettingsRecord)) :
  k ∈ s.*1 ↔ k ∈ dom (store_content s).
Proof. unfold store_content. rewrite dom_fmap_L. apply dict_keys_dom. Qed.

Lemma sets_content_lookup (a : Arch) (s : Hashed.SetsOfItems) :
  sets_content s !! a = (list_to_set : list string → gset string) <$> dict_get a s.
Proof. unfold sets_content. by rewrite lookup_fmap, dict_get_list_to_map. Qed.

Lemma sets_content_set (a : Arch) (x : list string) (s : Hashed.SetsOfItems) :
  sets_content (dict_set a x s) = <[a := list_to_set x]> (sets_content s).
Proof. unfold sets_content. by rewrite list_to_map_dict_set, fmap_insert. Qed.

Lemma sets_content_empty (s : Hashed.SetsOfItems) : sets_content s = ∅ ↔ s = [].
Proof. unfold sets_content. rewrite fmap_empty_iff. apply list_to_map_nil_inv. Qed.

Lemma record_content_lookup (key : string) (r : Hashed.SettingsRecord) :
  lists (record_content r) !! key = dict_get key (Hashed.lists r).
Proof. simpl. by rewrite dict_get_list_to_map. Qed.

Lemma record_content_set_list (key : string) (l : list string) (r : Hashed.SettingsRecord) :
  record_content (Hashed.set_list key l r) = set_list key l (record_content r).
Proof. unfold record_content, Hashed.set_list, set_list. simpl. by rewrite list_to_map_dict_set. Qed.

Lemma stored_list_content (c : Hashed.CtxData) (k : ConfigKey) (key : string) :
  Hashed.stored_list c k key = stored_list (data_content c) k key.
Proof.
  unfold Hashed.stored_list, stored_list. simpl. rewrite store_content_lookup.
  destruct (dict_get k (Hashed.settings c)) as [r|]; simpl; [|done].
  by rewrite dict_get_list_to_map.
Qed.

Lemma result_map_bind {A A' B B' : Type} (α : A → A') (β : B → B')
    (r : result A) (f : A → result B) (g : A' → result B') :
  (∀ a, result_map β (f a) = g (α a)) →
  result_map β (r ≫= f) = result_map α r ≫= g.
Proof. intros Hf. destruct r; simpl; [apply Hf|done]. Qed.

Lemma for_each_content {A S T : Type} (α : S → T) (body1 : S → A → result S)
    (body2 : T → A → result T) (l : list A) (s : S) :
  (∀ s a, result_map α (body1 s a) = body2 (α s) a) →
  result_map α (for_each body1 l s) = for_each body2 l (α s).
Proof.
  intros Hbody. revert s. induction l as [|a l IH]; intros s; simpl; [done|].
  rewrite <-Hbody. destruct (body1 s a) as [s'|e]; simpl; [apply IH|done].
Qed.

Lemma getitem_content {A B : Type} (f : A → B) (o : option A) :
  getitem (f <$> o) = result_map f (getitem o).
Proof. by destruct o. Qed.

Section step_refinement.
Variable hash : string → N.
Variable init_record : ConfigKey → Hashed.SettingsRecord.

Lemma intersection_step_content (key : string)
    (st : Hashed.CtxData * ItemsToMerge * Hashed.SetsOfItems) (item : ConfigKey * ConfigKey) :
  result_map state_content (Hashed.intersection_step hash init_record key st item)
  = intersection_step (λ k, record_content (init_record k)) key (state_content st) item.
Proof.
  destruct st as [[c l] s], item as [sln_setting mapped_setting].
  unfold Hashed.intersection_step, intersection_step, state_content. cbn [fst snd].
  set (l' := if decide (sln_setting.2 ≠ None ∧ sln_setting.2 ∉ l.*1)
             then dict_set sln_setting.2 [] l else l).
  set (c1 := if decide ((None, sln_setting.2) ∉ (Hashed.settings c).*1) then _ else c).
  set (c2 := if decide ((None, sln_setting.2) ∉ dom (settings (data_content c))) then _
             else data_content c).
  assert (c2 = data_content c1) as ->.
  { unfold c1, c2. simpl.
    destruct (decide ((None, sln_setting.2) ∉ (Hashed.settings c).*1)) as [Hn|Hn];
      (destruct (decide ((None, sln_setting.2) ∉ dom (store_content (Hashed.settings c))))
        as [Hm|Hm]); try done.
    - unfold init_context_current_setting, Hashed.init_context_current_setting, data_content.
      simpl. by rewrite store_content_set.
    - exfalso. apply Hn. apply store_content_dom. by apply dec_stable.
    - exfalso. apply Hn. intros Hin. by apply Hm, store_content_dom. }
  clearbody c1 l'. simpl. rewrite store_content_lookup, getitem_content.
  destruct (dict_get mapped_setting (Hashed.settings c1)) as [record|]; simpl; [|done].
  rewrite <-dict_get_list_to_map.
  destruct (dict_get key (Hashed.lists record)) as [settings_list|]; simpl; [|done].
  destruct (decide (mapped_setting.1 = None)); simpl; [done|].
  destruct (dict_get sln_setting.2 l') as [group|]; simpl; [|done].
  set (s1 := if decide (group = []) then _ else s).
  set (s2 := if decide (group = []) then _ else sets_content s).
  assert (s2 = sets_content s1) as ->.
  { unfold s1, s2. destruct (decide (group = [])); [|done].
    by rewrite sets_content_set, set_of_list_content. }
  clearbody s1. rewrite sets_content_lookup, getitem_content.
  destruct (dict_get sln_setting.2 s1) as [items|]; simpl; [|done].
  by rewrite sets_content_set, set_intersection_content, set_of_list_content.
Qed.
End step_refinement.

Lemma update_settings_at_context_content (c : Hashed.CtxData) (sln_setting : ConfigKey)
    (key : string) (settings_to_set : list string) :
  result_map data_content (Hashed.update_settings_at_context c sln_setting key settings_to_set)
  = update_settings_at_context (data_content c) sln_setting key settings_to_set.
Proof.
  unfold Hashed.update_settings_at_context, update_settings_at_context.
  set (r1 := if decide (sln_setting ∉ (Hashed.settings c).*1) then _ else Ok c).
  set (r2 := if decide (sln_setting ∉ dom (settings (data_content c))) then _
             else Ok (data_content c)).
  assert (r2 = result_map data_content r1) as ->.
  { unfold r1, r2. simpl.
    destruct (decide (sln_setting ∉ (Hashed.settings c).*1)) as [Hn|Hn];
      (destruct (decide (sln_setting ∉ dom (store_content (Hashed.settings c))))
        as [Hm|Hm]); try done.
    - destruct (dict_get sln_setting (Hashed.sln_configurations_map c)) as [mapped|];
        simpl; [|done].
      rewrite store_content_lookup.
      destruct (dict_get mapped (Hashed.settings c)) as [record|]; simpl; [|done].
      unfold data_content, with_settings. simpl. by rewrite store_content_set.
    - exfalso. apply Hn. apply store_content_dom. by apply dec_stable.
    - exfalso. apply Hn. intros Hin. by apply Hm, store_content_dom. }
  clearbody r1. destruct r1 as [c1|e]; simpl; [|done].
  rewrite store_content_lookup.
  destruct (dict_get sln_setting (Hashed.settings c1)) as [record|]; simpl; [|done].
  unfold data_content, with_settings. simpl.
  by rewrite store_content_set, record_content_set_list.
Qed.

Lemma for_each_ext {A S : Type} (body1 body2 : S → A → result S) (l : list A) (s : S) :
  (∀ s a, body1 s a = body2 s a) → for_each body1 l s = for_each body2 l s.
Proof.
  intros Hbody. revert s. induction l as [|a l IH]; intros s; simpl; [done|].
  rewrite Hbody. destruct (body2 s a) as [s'|e]; simpl; [apply IH|done].
Qed.

Lemma result_settings_list_content (set_of_items : Hashed.SetsOfItems) (arch : Arch)
    (elements : list string) :
  Hashed.result_settings_list set_of_items arch elements
  = result_settings_list (sets_content set_of_items) arch elements.
Proof.
  unfold Hashed.result_settings_list, result_settings_list.
  apply for_each_ext. intros acc element. rewrite sets_content_lookup.
  destruct (dict_get arch set_of_items) as [items|]; simpl; [|done].
  destruct (decide (element ∈ items)) as [Hin|Hin];
    (destruct (decide (element ∈ (list_to_set items : gset string))) as [Hin'|Hin']);
    try done.
  - exfalso. apply Hin'. by apply elem_of_list_to_set.
  - exfalso. apply Hin. by apply (elem_of_list_to_set (C := gset string)).
Qed.

Lemma remove_common_settings_from_context_content (c : Hashed.CtxData)
    (lists_of_items_to_merge : ItemsToMerge) (set_of_items : Hashed.SetsOfItems)
    (key : string) :
  result_map data_content
    (Hashed.remove_common_settings_from_context c lists_of_items_to_merge set_of_items key)
  = remove_common_settings_from_context (data_content c) lists_of_items_to_merge
      (sets_content set_of_items) key.
Proof.
  unfold Hashed.remove_common_settings_from_context, remove_common_settings_from_context.
  apply for_each_content. intros c1 [arch group]. simpl.
  apply for_each_content. intros c2 [sln_setting items]. simpl.
  rewrite result_settings_list_content.
  destruct (result_settings_list (sets_content set_of_items) arch items) as [l|];
    simpl; [|done].
  apply update_settings_at_context_content.
Qed.

Lemma common_ordered_loop_content (arch : Arch) (elements common : list string)
    (set_of_items : Hashed.SetsOfItems) :
  result_map loop_content (Hashed.common_ordered_loop arch elements common set_of_items)
  = common_ordered_loop arch elements common (sets_content set_of_items).
Proof.
  revert common set_of_items.
  induction elements as [|element rest IH]; intros common set_of_items; simpl; [done|].
  rewrite sets_content_lookup.
  destruct (dict_get arch set_of_items) as [items|]; simpl; [|done].
  destruct (decide (element ∈ items)) as [Hin|Hin];
    (destruct (decide (element ∈ (list_to_set items : gset string))) as [Hin'|Hin']).
  - rewrite <-set_remove_content, <-sets_content_set.
    destruct (decide (dict_set arch (Hashed.set_remove element items) set_of_items = []))
        as [He|He];
      (destruct (decide (sets_content
                           (dict_set arch (Hashed.set_remove element items) set_of_items) = ∅))
        as [He'|He']).
    + done.
    + exfalso. apply He'. by apply sets_content_empty.
    + exfalso. apply He. by apply sets_content_empty.
    + apply IH.
  - exfalso. apply Hin'. by apply elem_of_list_to_set.
  - exfalso. apply Hin. by apply (elem_of_list_to_set (C := gset string)).
  - apply IH.
Qed.

Lemma get_common_ordered_settings_content (merged_order_list_arch : list (Arch * list string))
    (set_of_items : Hashed.SetsOfItems) :
  result_map commons_content
    (Hashed.get_common_ordered_settings merged_order_list_arch set_of_items)
  = get_common_ordered_settings merged_order_list_arch (sets_content set_of_items).
Proof.
  unfold Hashed.get_common_ordered_settings, get_common_ordered_settings.
  apply (for_each_content commons_content). intros [commons s] [arch elements]. simpl.
  rewrite <-common_ordered_loop_content.
  by destruct (Hashed.common_ordered_loop arch elements [] s) as [[common s']|].
Qed.

Lemma commit_merged_settings_content (key : string) (c : Hashed.CtxData)
    (arch_list : Arch * list string) :
  result_map data_content (Hashed.commit_merged_settings key c arch_list)
  = commit_merged_settings key (data_content c) arch_list.
Proof.
  destruct arch_list as [arch merged_setting].
  unfold Hashed.commit_merged_settings, commit_merged_settings. simpl.
  rewrite store_content_lookup.
  destruct (dict_get (None, arch) (Hashed.settings c)) as [record|]; simpl; [|done].
  unfold data_content, with_settings, with_map. simpl.
  by rewrite store_content_set, record_content_set_list.
Qed.

Section refinement.
Variable hash : string → N.
Variable init_record : ConfigKey → Hashed.SettingsRecord.

Lemma merge_key_content (c : Hashed.CtxData) (key : string) :
  result_map data_content (Hashed.merge_key hash init_record c key)
  = merge_key (λ k, record_content (init_record k)) (data_content c) key.
Proof.
  unfold Hashed.merge_key, merge_key.
  change (sln_configurations_map (data_content c)) with (Hashed.sln_configurations_map c).
  change (data_content c, [], ∅) with (state_content (c, [], [])).
  rewrite <-(for_each_content state_content _ _ _ _
               (intersection_step_content hash init_record key)).
  destruct (for_each (Hashed.intersection_step hash init_record key)
              (Hashed.sln_configurations_map c) (c, [], [])) as [[[c1 l] s]|];
    simpl; [|done].
  unfold state_content. simpl.
  rewrite <-remove_common_settings_from_context_content.
  destruct (Hashed.remove_common_settings_from_context c1 l s key) as [c2|]; simpl; [|done].
  destruct (get_order_of_common_settings l) as [merged_order_lists|]; simpl; [|done].
  rewrite <-get_common_ordered_settings_content.
  destruct (Hashed.get_common_ordered_settings merged_order_lists s) as [[commons s']|];
    simpl; [|done].
  apply for_each_content. intros c3 arch_list. apply commit_merged_settings_content.
Qed.

Lemma merge_keys_content (keys : list string) (c : Hashed.CtxData) :
  result_map data_content (Hashed.merge_keys hash keys init_record c)
  = merge_keys keys (λ k, record_content (init_record k)) (data_content c).
Proof.
  unfold Hashed.merge_keys, merge_keys. apply for_each_content. apply merge_key_content.
Qed.
End refinement.

Section tree_refinement.
Variable hash : string → N.
Variable keys : list string.
Variable init_record : ConfigKey → Hashed.SettingsRecord.

(** The second embedding computes what the first computes on the content of
    its containers. *)
Lemma merge_data_settings_content (context : Hashed.Context) :
  result_map content (Hashed.merge_data_settings hash keys init_record context)
  = merge_data_settings keys (λ k, record_content (init_record k)) (content context).
Proof.
  revert context. fix IH 1. intros [d files]. simpl.
  rewrite <-(merge_keys_content hash).
  destruct (Hashed.merge_keys hash keys init_record d) as [d'|]; simpl; [|done].
  destruct files as [fs|]; simpl; [|done].
  set (merge_files1 :=
         fix merge_files (fs : list (string * Hashed.Context))
             : result (list (string * Hashed.Context)) :=
           match fs with
           | [] => Ok []
           | (file, fc) :: rest =>
               fc ← Hashed.merge_data_settings hash keys init_record fc;
               rest ← merge_files rest;
               Ok ((file, fc) :: rest)
           end).
  set (files_content :=
         fix files_content (fs : list (string * Hashed.Context)) : list (string * Context) :=
           match fs with
           | [] => []
           | (file, fc) :: rest => (file, content fc) :: files_content rest
           end).
  set (merge_files2 :=
         fix merge_files (fs : list (string * Context)) : result (list (string * Context)) :=
           match fs with
           | [] => Ok []
           | (file, fc) :: rest =>
               fc ← merge_data_settings keys (λ k, record_content (init_record k)) fc;
               rest ← merge_files rest;
               Ok ((file, fc) :: rest)
           end).
  assert (result_map files_content (merge_files1 fs) = merge_files2 (files_content fs))
    as Hfiles.
  { induction fs as [|[file fc] fs IHfs]; [done|]. simpl.
    rewrite <-(IH fc).
    destruct (Hashed.merge_data_settings hash keys init_record fc) as [fc'|]; simpl; [|done].
    rewrite <-IHfs. by destruct (merge_files1 fs). }
  rewrite <-Hfiles. by destruct (merge_files1 fs).
Qed.
End tree_refinement.

(** C4. Two runs of [merge_data_settings], each with the hash function of its
    run, hence with its own iteration order of every [set], on contexts that
    hold the same records under the same keys, whatever the order in which
    the store and the records were filled, and the same configuration map in
    the same order: both runs return, and they leave the same list, the same
    elements in the same order, under every key of every record of the store,
    common and residual lists included, and the same configuration map, in
    the context and in its per-file contexts; or both raise the same
    exception. *)
Theorem merge_data_settings_deterministic (hash1 hash2 : string → N) (keys : list string)
    (init_record : ConfigKey → Hashed.SettingsRecord) (context1 context2 : Hashed.Context) :
  same_content context1 context2 →
  same_merge_outcome
    (Hashed.merge_data_settings hash1 keys init_record context1)
    (Hashed.merge_data_settings hash2 keys init_record context2).
Proof.
  intros Hsame. unfold same_content in Hsame.
  pose proof (merge_data_settings_content hash1 keys init_record context1) as H1.
  pose proof (merge_data_settings_content hash2 keys init_record context2) as H2.
  rewrite <-Hsame, <-H1 in H2. unfold same_merge_outcome, same_outcome.
  destruct (Hashed.merge_data_settings hash1 keys init_record context1) as [t1|e1],
           (Hashed.merge_data_settings hash2 keys init_record context2) as [t2|e2];
    simpl in H2; try done; [|congruence].
  injection H2 as H2. unfold same_content. split; [done|].
  assert (data_content (Hashed.data t2) = data_content (Hashed.data t1)) as Hdata.
  { destruct t1, t2. simpl in *. congruence. }
  split.
  - change (sln_configurations_map (data_content (Hashed.data t1))
            = sln_configurations_map (data_content (Hashed.data t2))). by rewrite Hdata.
  - intros k key. by rewrite !stored_list_content, Hdata.
Qed.

(** The two hash functions lay the same set out in opposite orders, and the
    two stores are filled in opposite orders. *)
Example hashed_layouts_differ :
  Hashed.set_of_list first_char_hash ["Y"; "X"; "W"] = ["W"; "X"; "Y"] ∧
  Hashed.set_of_list opposite_hash ["Y"; "X"; "W"] = ["Y"; "X"; "W"] ∧
  (Hashed.settings (Hashed.data hashed_scenario)).*1 = [debug_x64; release_x64] ∧
  (Hashed.settings (Hashed.data hashed_scenario_refilled)).*1 = [release_x64; debug_x64].
Proof. vm_compute. done. Qed.

Lemma merge_data_settings_deterministic_witness :
  same_content hashed_scenario hashed_scenario_refilled ∧
  same_merge_outcome
    (Hashed.merge_data_settings first_char_hash ["defines"; "cl_flags"] hashed_baseline
       hashed_scenario)
    (Hashed.merge_data_settings opposite_hash ["defines"; "cl_flags"] hashed_baseline
       hashed_scenario_refilled).
Proof.
  assert (same_content hashed_scenario hashed_scenario_refilled) as H.
  { unfold same_content. vm_compute. reflexivity. }
  split; [exact H|].
  apply (merge_data_settings_deterministic first_char_hash opposite_hash
           ["defines"; "cl_flags"] hashed_baseline _ _ H).
Defined.

(** The two runs of the witness: what they leave in the store, in the order
    of the store. *)
Example hashed_scenario_run :
  result_map (λ t, Hashed.settings (Hashed.data t))
    (Hashed.merge_data_settings first_char_hash ["defines"; "cl_flags"] hashed_baseline
       hashed_scenario)
  = Ok [(debug_x64, Hashed.mkRecord (Some "Application")
                      [("defines", ["Z"]); ("cl_flags", [])]);
        (release_x64, Hashed.mkRecord (Some "Application")
                        [("defines", ["W"]); ("cl_flags", ["/O2"])]);
        (wildcard_x64, Hashed.mkRecord None
                         [("defines", ["X"; "Y"]); ("cl_flags", ["/W4"])])] ∧
  result_map (λ t, Hashed.settings (Hashed.data t))
    (Hashed.merge_data_settings opposite_hash ["defines"; "cl_flags"] hashed_baseline
       hashed_scenario_refilled)
  = Ok [(release_x64, Hashed.mkRecord (Some "Application")
                        [("cl_flags", ["/O2"]); ("defines", ["W"])]);
        (debug_x64, Hashed.mkRecord (Some "Application")
                      [("cl_flags", []); ("defines", ["Z"])]);
        (wildcard_x64, Hashed.mkRecord None
                         [("defines", ["X"; "Y"]); ("cl_flags", ["/W4"])])].
Proof. vm_compute. done. Qed.

(** * Further properties of the validator *)

Section raise_facts.
Context {A S : Type}.
Implicit Types (body : S → A → result S) (l : list A).

Lemma for_each_raises body l s (a : A) (e : exn) :
  a ∈ l → (∀ s, body s a = Raise e) →
  (∀ s a' e', body s a' = Raise e' → e' = e) →
  for_each body l s = Raise e.
Proof.
  intros Hin Ha Hall. revert s. induction l as [|a' l IH]; intros s.
  - by apply elem_of_nil in Hin.
  - cbn [for_each]. destruct (body s a') as [s'|e'] eqn:Hb.
    + change (for_each body l s' = Raise e).
      apply elem_of_cons in Hin as [->|Hin]; [by rewrite Ha in Hb|by apply IH].
    + change (@Raise S e' = Raise e). f_equal. by eapply Hall.
Qed.
End raise_facts.

(** X1. A record of a non-wildcard configuration without a ['target_type']
    entry makes [verify_data] raise [KeyError] out of the target-type check:
    the completeness check does not run, so nothing is pruned and no
    diagnostic is emitted. *)
Theorem verify_data_missing_target_type (c : CtxData) (k : ConfigKey) (r : SettingsRecord) :
  settings c !! k = Some r → has_none k = false → target_type r = None →
  verify_data c = (c, Raise KeyError).
Proof.
  intros Hk Hn Ht. unfold verify_data, verify_target_types.
  assert (collect_target_types (settings c) = Raise KeyError) as ->; [|done].
  unfold collect_target_types.
  apply (for_each_raises _ _ _ (k, r)).
  - by apply elem_of_map_to_list.
  - intros s. cbn. by rewrite Hn, Ht.
  - intros s [k' r'] e'. cbn. destruct (has_none k'); [done|].
    destruct (target_type r'); cbn; [done|]. by intros [= <-].
Qed.

Lemma verify_data_missing_target_type_witness :
  settings untyped_context !! debug_x64 = Some (mkRecord None ∅) ∧
  has_none debug_x64 = false ∧ target_type (mkRecord None ∅) = None ∧
  verify_data untyped_context = (untyped_context, Raise KeyError).
Proof.
  assert (settings untyped_context !! debug_x64 = Some (mkRecord None ∅)) as H
    by (apply (bool_decide_unpack _); vm_compute; exact I).
  split; [exact H|]. split; [reflexivity|]. split; [reflexivity|].
  apply (verify_data_missing_target_type untyped_context debug_x64 (mkRecord None ∅) H);
    reflexivity.
Defined.

Lemma verify_configurations_to_parse_complete (c : CtxData) :
  absent_settings (verify_configurations_to_parse c).1 = ∅.
Proof.
  apply absent_settings_empty. intros k.
  unfold verify_configurations_to_parse.
  destruct (decide (0 < size (absent_settings c))) as [Hpos|Hpos]; cbn.
  - rewrite elem_of_difference, absent_settings_elem. intros [Hk Hn].
    destruct (decide (k ∈ dom (settings c))); [done|]. exfalso. by apply Hn.
  - intros Hk. assert (absent_settings c = ∅) as Hempty.
    { destruct (decide (absent_settings c = ∅)) as [|Hne]; [done|].
      exfalso. apply Hpos. by apply size_pos_nonempty. }
    by eapply absent_settings_empty in Hempty.
Qed.

Lemma verify_configurations_to_parse_true (c : CtxData) :
  absent_settings c = ∅ → verify_configurations_to_parse c = (c, true).
Proof.
  intros Hempty. unfold verify_configurations_to_parse.
  destruct (decide (0 < size (absent_settings c))) as [Hpos|Hpos]; [|done].
  apply size_pos_nonempty in Hpos. done.
Qed.

Lemma verify_target_types_cases (c : CtxData) :
  verify_target_types c = (c, Raise KeyError) ∨
  verify_target_types c = (c, Ok ()) ∨
  verify_target_types c = (message target_types_warning "warn" c, Ok ()).
Proof.
  unfold verify_target_types.
  destruct (collect_target_types (settings c)) as [tys|e] eqn:Hc.
  - destruct (decide (1 < size tys)); auto.
  - left. f_equal. f_equal. revert Hc. unfold collect_target_types.
    generalize (map_to_list (settings c)) (∅ : gset string).
    intros l. induction l as [|[k r] l IH]; intros acc; [done|].
    cbn [for_each]. cbn. destruct (has_none k); [apply IH|].
    destruct (target_type r); cbn; [apply IH|]. by intros [= <-].
Qed.

Lemma verify_data_complete (c : CtxData) (ok : bool) :
  (verify_data c).2 = Ok ok → absent_settings (verify_data c).1 = ∅.
Proof.
  unfold verify_data.
  destruct (verify_target_types_cases c) as [->|[->| ->]]; [done| |]; intros _.
  - pose proof (verify_configurations_to_parse_complete c) as H.
    by destruct (verify_configurations_to_parse c).
  - pose proof (verify_configurations_to_parse_complete
                  (message target_types_warning "warn" c)) as H.
    by destruct (verify_configurations_to_parse (message _ _ c)).
Qed.

(** X2. When [verify_data] returns, every configuration still requested has
    a record in the settings store and was requested before; the verdict is
    [True] exactly when the requested set is the one it was. *)
Theorem verify_data_requested_present (c : CtxData) (ok : bool) :
  (verify_data c).2 = Ok ok →
  let c' := (verify_data c).1 in
  (∀ k : ConfigKey, k ∈ configurations_to_parse c' →
     k ∈ configurations_to_parse c ∧ is_Some (settings c' !! k)) ∧
  (ok = true ↔ configurations_to_parse c' = configurations_to_parse c).
Proof.
  intros Hok c'. unfold c'. clear c'. revert Hok. unfold verify_data.
  assert (∀ c1, settings c1 = settings c →
            configurations_to_parse c1 = configurations_to_parse c →
            let c' := (verify_configurations_to_parse c1).1 in
            let ok := (verify_configurations_to_parse c1).2 in
            (∀ k : ConfigKey, k ∈ configurations_to_parse c' →
               k ∈ configurations_to_parse c ∧ is_Some (settings c' !! k)) ∧
            (ok = true ↔ configurations_to_parse c' = configurations_to_parse c)) as Hcheck.
  { intros c1 Hs Hp.
    pose proof (verify_configurations_to_parse_complete c1) as Hcomplete.
    revert Hcomplete. unfold verify_configurations_to_parse.
    destruct (decide (0 < size (absent_settings c1))) as [Hpos|Hpos]; cbn; intros Hcomplete.
    - split.
      + intros k Hk. split.
        * apply elem_of_difference in Hk as [Hk _]. by rewrite <- Hp.
        * apply elem_of_dom. by eapply absent_settings_empty in Hcomplete.
      + split; [done|]. rewrite <- Hp. intros Heq. exfalso.
        apply size_pos_nonempty in Hpos. apply Hpos.
        apply set_eq. intros k. split; [|by intros ?%elem_of_empty].
        intros Hk. pose proof Hk as Hk'. apply absent_settings_elem in Hk' as [Hk' _].
        rewrite <- Heq in Hk'. apply elem_of_difference in Hk' as [_ Hn]. by destruct Hn.
    - split; [|by rewrite Hp].
      intros k Hk. split; [by rewrite <- Hp|].
      apply elem_of_dom. by eapply absent_settings_empty in Hcomplete. }
  destruct (verify_target_types_cases c) as [->|[->| ->]]; [done| |].
  - specialize (Hcheck c eq_refl eq_refl).
    destruct (verify_configurations_to_parse c) as [c2 b]. by intros [= <-].
  - specialize (Hcheck (message target_types_warning "warn" c) eq_refl eq_refl).
    destruct (verify_configurations_to_parse (message _ _ c)) as [c2 b]. by intros [= <-].
Qed.

Lemma verify_data_requested_present_witness :
  (verify_data pruning_context).2 = Ok false ∧
  (∀ k : ConfigKey, k ∈ configurations_to_parse (verify_data pruning_context).1 →
     k ∈ configurations_to_parse pruning_context ∧
     is_Some (settings (verify_data pruning_context).1 !! k)) ∧
  (false = true ↔
   configurations_to_parse (verify_data pruning_context).1
   = configurations_to_parse pruning_context).
Proof.
  assert ((verify_data pruning_context).2 = Ok false) as H by (vm_compute; reflexivity).
  split; [exact H|]. apply (verify_data_requested_present pruning_context false H).
Defined.

(** X3. Verifying again after [verify_data] has returned succeeds: the
    second run returns [True] and changes neither the store nor the requested
    set; it emits nothing but the target-type warning, again, where the first
    run emitted it. *)
Theorem verify_data_again (c : CtxData) (ok : bool) :
  (verify_data c).2 = Ok ok →
  let c1 := (verify_data c).1 in
  (verify_data c1).2 = Ok true ∧
  settings (verify_data c1).1 = settings c1 ∧
  configurations_to_parse (verify_data c1).1 = configurations_to_parse c1 ∧
  (diagnostics (verify_target_types c).1 = diagnostics c ∧
   diagnostics (verify_data c1).1 = diagnostics c1 ∨
   diagnostics (verify_target_types c).1
     = diagnostics c ++ [mkDiag target_types_warning "warn"] ∧
   diagnostics (verify_data c1).1
     = diagnostics c1 ++ [mkDiag target_types_warning "warn"]).
Proof.
  intros Hok c1.
  assert (settings c1 = settings c) as Hs.
  { unfold c1, verify_data. destruct (verify_target_types_cases c) as [->|[->| ->]]; [done| |].
    - unfold verify_configurations_to_parse. by destruct (decide _).
    - unfold verify_configurations_to_parse. by destruct (decide _). }
  assert (absent_settings c1 = ∅) as Hcomplete.
  { unfold c1. revert Hok. unfold verify_data.
    destruct (verify_target_types_cases c) as [->|[->| ->]]; [done| |]; intros _.
    - pose proof (verify_configurations_to_parse_complete c) as H.
      by destruct (verify_configurations_to_parse c).
    - pose proof (verify_configurations_to_parse_complete
                    (message target_types_warning "warn" c)) as H.
      by destruct (verify_configurations_to_parse (message _ _ c)). }
  assert (∀ c2, settings c2 = settings c1 →
                configurations_to_parse c2 = configurations_to_parse c1 →
                verify_configurations_to_parse c2 = (c2, true)) as Hcheck.
  { intros c2 Hs2 Hp2. apply verify_configurations_to_parse_true.
    apply absent_settings_empty. intros k. rewrite Hs2, Hp2.
    apply (proj1 (absent_settings_empty c1) Hcomplete). }
  assert (∃ tys, collect_target_types (settings c) = Ok tys) as [tys Htys].
  { revert Hok. unfold verify_data, verify_target_types.
    destruct (collect_target_types (settings c)) as [tys|e]; [by exists tys|done]. }
  assert (verify_data c1 =
            (if decide (1 < size tys) then message target_types_warning "warn" c1 else c1,
             Ok true)) as ->.
  { unfold verify_data, verify_target_types. rewrite Hs, Htys.
    destruct (decide (1 < size tys)).
    - by rewrite (Hcheck (message target_types_warning "warn" c1)).
    - by rewrite (Hcheck c1). }
  unfold verify_target_types. rewrite Htys.
  destruct (decide (1 < size tys)); cbn;
    (split; [done|]); (split; [done|]); (split; [done|]); [right|left]; done.
Qed.

Lemma verify_data_again_witness :
  (verify_data pruning_context).2 = Ok false ∧
  (verify_data (verify_data pruning_context).1).2 = Ok true ∧
  settings (verify_data (verify_data pruning_context).1).1
    = settings (verify_data pruning_context).1 ∧
  configurations_to_parse (verify_data (verify_data pruning_context).1).1
    = configurations_to_parse (verify_data pruning_context).1 ∧
  (diagnostics (verify_target_types pruning_context).1 = diagnostics pruning_context ∧
   diagnostics (verify_data (verify_data pruning_context).1).1
     = diagnostics (verify_data pruning_context).1 ∨
   diagnostics (verify_target_types pruning_context).1
     = diagnostics pruning_context ++ [mkDiag target_types_warning "warn"] ∧
   diagnostics (verify_data (verify_data pruning_context).1).1
     = diagnostics (verify_data pruning_context).1 ++ [mkDiag target_types_warning "warn"]).
Proof.
  assert ((verify_data pruning_context).2 = Ok false) as H by (vm_compute; reflexivity).
  split; [exact H|]. apply (verify_data_again pruning_context false H).
Defined.

(** * The round-robin sequence *)

Section round_robin_facts.
Implicit Types (g : Group) (i n : nat) (l : list string).

Lemma mjoin_fmap_app {A} (f h : nat → list A) (L : list nat) :
  mjoin ((λ i, f i ++ h i) <$> L) ≡ₚ mjoin (f <$> L) ++ mjoin (h <$> L).
Proof.
  induction L as [|i L IH]; [done|]. csimpl. rewrite IH.
  rewrite <- !(assoc_L (++)). f_equiv. rewrite !(assoc_L (++)). f_equiv.
  apply Permutation_app_comm.
Qed.

Lemma mjoin_lookups l n :
  mjoin ((λ i, option_list (l !! i)) <$> seq 0 n) = take n l.
Proof.
  induction n as [|n IH]; [done|].
  rewrite seq_S, fmap_app, join_app, IH. csimpl. rewrite app_nil_r.
  destruct (l !! n) as [x|] eqn:Hn.
  - by rewrite (take_S_r l n x).
  - cbn. rewrite app_nil_r. apply lookup_ge_None in Hn.
    by rewrite !take_ge by lia.
Qed.

Lemma round_cons i (e : ConfigKey * list string) g :
  round i (e :: g) = option_list (e.2 !! i) ++ round i g.
Proof. unfold round. csimpl. by destruct (e.2 !! i). Qed.

Lemma rounds_Permutation g n :
  max_len g ≤ n → mjoin ((λ i, round i g) <$> seq 0 n) ≡ₚ mjoin g.*2.
Proof.
  revert n. induction g as [|e g IH]; intros n Hn.
  - clear Hn. induction (seq 0 n) as [|i L IHL]; [done|]. by csimpl.
  - assert (length e.2 ≤ n ∧ max_len g ≤ n) as [He Hg].
    { revert Hn. unfold max_len. csimpl. lia. }
    rewrite (list_fmap_ext (λ i, round i (e :: g))
               (λ i, option_list (e.2 !! i) ++ round i g) (seq 0 n))
      by (intros; apply round_cons).
    rewrite mjoin_fmap_app, mjoin_lookups, (IH n Hg). csimpl.
    by rewrite take_ge.
Qed.

Lemma candidates_Permutation g : candidates g ≡ₚ mjoin g.*2.
Proof. by apply rounds_Permutation. Qed.
End round_robin_facts.

(** X4. [__get_order_of_common_settings] returns for every dictionary of
    groups: its [while True] loop ends after one sweep more than the longest
    list has elements. For each architecture it yields the elements of the
    group's lists round by round (index 0 of every list that has one, then
    index 1, and so on), which is a rearrangement of all the elements of all
    the lists, duplicates included. *)
Theorem get_order_of_common_settings_total (lists_of_items_to_merge_arch : ItemsToMerge) :
  NoDup lists_of_items_to_merge_arch.*1 →
  ∃ merged_order_lists : list (Arch * list string),
    get_order_of_common_settings lists_of_items_to_merge_arch = Ok merged_order_lists ∧
    merged_order_lists.*1 = lists_of_items_to_merge_arch.*1 ∧
    ∀ (arch : Arch) (group : Group), (arch, group) ∈ lists_of_items_to_merge_arch →
      ∃ merged : list string,
        dict_get arch merged_order_lists = Some merged ∧
        merged = mjoin ((λ i, round i group) <$> seq 0 (max_len group)) ∧
        merged ≡ₚ mjoin group.*2.
Proof.
  intros Hnd.
  assert (((λ ag : Arch * Group, (ag.1, candidates ag.2)) <$> lists_of_items_to_merge_arch).*1
          = lists_of_items_to_merge_arch.*1) as Hkeys.
  { rewrite <- list_fmap_compose. by apply list_fmap_ext. }
  eexists. split; [by apply get_order_of_common_settings_spec|].
  split; [done|].
  intros arch group Hin. exists (candidates group). split.
  - apply elem_of_dict_get; [by rewrite Hkeys|].
    apply list_elem_of_fmap. by exists (arch, group).
  - split; [done|apply candidates_Permutation].
Qed.

Lemma get_order_of_common_settings_total_witness :
  NoDup [(Some "x64", [(debug_x64, ["X"; "Y"; "Z"]); (release_x64, ["Y"; "X"; "W"])])].*1 ∧
  ∃ merged_order_lists : list (Arch * list string),
    get_order_of_common_settings
      [(Some "x64", [(debug_x64, ["X"; "Y"; "Z"]); (release_x64, ["Y"; "X"; "W"])])]
    = Ok merged_order_lists ∧
    merged_order_lists.*1
    = [(Some "x64", [(debug_x64, ["X"; "Y"; "Z"]); (release_x64, ["Y"; "X"; "W"])])].*1 ∧
    ∀ (arch : Arch) (group : Group),
      (arch, group)
        ∈ [(Some "x64", [(debug_x64, ["X"; "Y"; "Z"]); (release_x64, ["Y"; "X"; "W"])])] →
      ∃ merged : list string,
        dict_get arch merged_order_lists = Some merged ∧
        merged = mjoin ((λ i, round i group) <$> seq 0 (max_len group)) ∧
        merged ≡ₚ mjoin group.*2.
Proof.
  assert (NoDup [(Some "x64", [(debug_x64, ["X"; "Y"; "Z"]); (release_x64, ["Y"; "X"; "W"])])].*1)
    as H by (apply (bool_decide_unpack _); vm_compute; exact I).
  split; [exact H|]. apply (get_order_of_common_settings_total _ H).
Defined.

(** * The order of the common list *)

Section omap_facts.
Context {A B : Type}.

Lemma omap_ext_elem (f h : A → option B) (l : list A) :
  (∀ x, x ∈ l → f x = h x) → omap f l = omap h l.
Proof.
  induction l as [|x l IH]; intros Hfh; [done|]. csimpl.
  rewrite (Hfh x) by left. rewrite IH; [done|].
  intros y Hy. apply Hfh. by right.
Qed.

Lemma omap_all_None (f : A → option B) (l : list A) :
  (∀ x, x ∈ l → f x = None) → omap f l = [].
Proof.
  induction l as [|x l IH]; intros Hf; [done|]. csimpl.
  rewrite (Hf x) by left. apply IH. intros y Hy. apply Hf. by right.
Qed.

Lemma omap_fmap_arg {C} (g : C → A) (f : A → option B) (l : list C) :
  omap f (g <$> l) = omap (λ x, f (g x)) l.
Proof. induction l as [|x l IH]; [done|]. csimpl. by rewrite IH. Qed.
End omap_facts.

Section group_run_facts.
Variable init_record : ConfigKey → SettingsRecord.
Implicit Types (c : CtxData) (key : string) (s x : ConfigKey) (ks : list string).
Implicit Types (m : list (ConfigKey * ConfigKey)) (L : list ConfigKey) (a : Arch).

Lemma group_of_resolved c key a :
  NoDup (sln_configurations_map c).*1 →
  group_of (settings c) key (sln_configurations_map c) a =
  omap (λ s, if decide (s.2 = a) then pair s <$> resolved_list c s key else None)
    (sln_configurations_map c).*1.
Proof.
  intros Hnd. unfold group_of. rewrite omap_fmap_arg.
  apply omap_ext_elem. intros [s M] Hin. cbn [fst snd].
  unfold resolved_list. by rewrite (elem_of_dict_get s M _ Hnd Hin).
Qed.

Lemma self_map_keys m L :
  ∃ extra : list ConfigKey,
    (self_map m L).*1 = m.*1 ++ extra ∧ ∀ k, k ∈ extra → k ∈ L.
Proof.
  induction L as [|s L IH] using rev_ind.
  - exists []. split; [by rewrite app_nil_r|]. by intros k ?%elem_of_nil.
  - destruct IH as (extra & Hkeys & Hextra).
    rewrite self_map_snoc, dict_set_keys, Hkeys.
    destruct (decide (s ∈ m.*1 ++ extra)).
    + exists extra. split; [done|]. intros k Hk. apply elem_of_app. left. by apply Hextra.
    + exists (extra ++ [s]). split; [by rewrite (assoc_L (++))|].
      intros k [Hk|Hk%list_elem_of_singleton]%elem_of_app; apply elem_of_app.
      * left. by apply Hextra.
      * right. by apply list_elem_of_singleton.
Qed.

Lemma pass_keys key c c' :
  pass_post init_record key c c' →
  ∃ extra : list ConfigKey,
    (sln_configurations_map c').*1 = (sln_configurations_map c).*1 ++ extra ∧
    ∀ k, k ∈ extra → k.1 = None.
Proof.
  intros (D & A & -> & _).
  destruct (self_map_keys (mark D (sln_configurations_map c)) (wildcard_keys A))
    as (extra & Hkeys & Hextra).
  exists extra. rewrite Hkeys, mark_keys. split; [done|].
  intros k Hk. apply Hextra in Hk. by apply elem_of_wildcard_keys in Hk as [? _].
Qed.

Lemma resolved_list_wildcard c key s :
  wf_ctx c → s.1 = None → resolved_list c s key = None.
Proof.
  intros Hwf Hs. unfold resolved_list.
  destruct (dict_get s (sln_configurations_map c)) as [M|] eqn:Hget; [|done]. cbn.
  apply dict_get_Some_elem in Hget.
  destruct (wf_ctx_item c s M Hwf Hget) as [_ (_ & _ & Hwild & _)].
  unfold contribution. cbn [fst snd] in *. by rewrite decide_True by auto.
Qed.

Lemma pass_group_other key key2 c c' a :
  wf_ctx c → pass_post init_record key c c' → key ≠ key2 →
  group_of (settings c') key2 (sln_configurations_map c') a =
  group_of (settings c) key2 (sln_configurations_map c) a.
Proof.
  intros Hwf Hpost Hne.
  pose proof (pass_wf init_record key c c' Hwf Hpost) as Hwf'.
  rewrite (group_of_resolved c') by apply Hwf'.
  rewrite (group_of_resolved c) by apply Hwf.
  destruct (pass_keys key c c' Hpost) as (extra & -> & Hextra).
  rewrite omap_app, (omap_all_None _ extra), app_nil_r.
  - apply omap_ext_elem. intros s _.
    by rewrite (pass_resolved_other init_record key key2 c c' s Hwf Hpost Hne).
  - intros s Hs. rewrite (resolved_list_wildcard c' key2 s Hwf' (Hextra s Hs)).
    by destruct (decide (s.2 = a)).
Qed.

Lemma merge_list_group ks key c c' a :
  wf_ctx c → for_each (merge_key init_record) ks c = Ok c' → key ∉ ks →
  group_of (settings c') key (sln_configurations_map c') a =
  group_of (settings c) key (sln_configurations_map c) a.
Proof.
  revert c. induction ks as [|k ks IH]; intros c Hwf Hrun Hkey.
  - by injection Hrun as <-.
  - cbn [for_each] in Hrun.
    destruct (merge_key_spec init_record k c Hwf) as (c1 & Hk & Hpost).
    rewrite Hk in Hrun. cbn in Hrun.
    apply not_elem_of_cons in Hkey as [Hne Hkey].
    rewrite (IH c1 (pass_wf init_record k c c1 Hwf Hpost) Hrun Hkey).
    apply (pass_group_other k key c c1 a Hwf Hpost). congruence.
Qed.

(** The common list that a run stores for one of its keys. *)
Lemma merge_list_common ks key c c' a :
  wf_ctx c → NoDup ks → key ∈ ks →
  for_each (merge_key init_record) ks c = Ok c' →
  a ≠ None → a ∈ archs (sln_configurations_map c) →
  stored_list c' (None, a) key =
  Some (common_list (settings c) key (sln_configurations_map c) a).
Proof.
  intros Hwf Hnd Hkey Hrun Ha1 Ha2. apply list_elem_of_split in Hkey as (k1 & k2 & ->).
  apply NoDup_app in Hnd as (_ & Hk1 & Hnd2). apply NoDup_cons in Hnd2 as [Hk2 _].
  assert (key ∉ k1) as Hk1'.
  { intros Hin. apply (Hk1 key Hin). left. }
  rewrite for_each_app in Hrun.
  destruct (merge_list_run init_record k1 c Hwf)
    as (c1 & Hrun1 & Hwf1 & _ & Harchs1 & _ & _ & _).
  rewrite Hrun1 in Hrun. cbn in Hrun.
  destruct (merge_key_spec init_record key c1 Hwf1) as (c2 & Hrun2 & Hpost).
  rewrite Hrun2 in Hrun. cbn in Hrun.
  pose proof (pass_wf init_record key c1 c2 Hwf1 Hpost) as Hwf2.
  destruct (merge_list_run init_record k2 c2 Hwf2)
    as (c'' & Hrun3 & _ & _ & _ & _ & _ & Hkeys2).
  rewrite Hrun3 in Hrun. injection Hrun as <-.
  destruct (Hkeys2 key Hk2) as (_ & Hst2 & _).
  apply Harchs1 in Ha2.
  pose proof (pass_wildcard_list init_record key c1 c2 a Hwf1 Hpost Ha1 Ha2) as Hw.
  rewrite Hst2 by (by apply (stored_list_is_Some c2 _ key _ Hw)).
  rewrite Hw. unfold common_list.
  by rewrite (merge_list_group k1 key c c1 a Hwf Hrun1 Hk1').
Qed.
End group_run_facts.

Section before_facts.
Implicit Types (g : Group) (v w : string) (S : gset string) (l : list string).

Lemma before_tail v w (e : string) l : e ≠ v → before v w (e :: l) → before v w l.
Proof.
  intros Hne Hb l1 l2 ->.
  specialize (Hb (e :: l1) l2 eq_refl). by apply elem_of_cons in Hb as [->|Hb].
Qed.

Lemma before_head v w l : v ≠ w → before v w (v :: l).
Proof.
  intros Hne l1 l2 Heq. destruct l1 as [|x l1]; simplify_eq/=. left.
Qed.

Lemma before_cons v w (e : string) l : e ≠ w → before v w l → before v w (e :: l).
Proof.
  intros Hne Hb l1 l2 Heq. destruct l1 as [|x l1]; simplify_eq/=.
  right. by apply (Hb l1 l2).
Qed.

Lemma first_occurrences_before S l v w :
  v ∈ S → before v w l → before v w (first_occurrences S l).
Proof.
  revert S. induction l as [|e l IH]; intros S Hv Hb.
  - intros l1 l2 Heq. by destruct l1.
  - destruct (decide (e = w)) as [->|Hew].
    { pose proof (Hb [] l eq_refl) as Hnil. by apply elem_of_nil in Hnil. }
    cbn [first_occurrences]. destruct (decide (e = v)) as [->|Hev].
    { rewrite decide_True by done. apply before_head. congruence. }
    pose proof (before_tail v w e l Hev Hb) as Hb'.
    destruct (decide (e ∈ S)).
    + apply before_cons; [done|]. apply IH; [|done]. set_solver.
    + by apply IH.
Qed.

Lemma elem_of_round i g v :
  v ∈ round i g ↔ ∃ e, e ∈ g ∧ e.2 !! i = Some v.
Proof. unfold round. by rewrite list_elem_of_omap. Qed.

Lemma rounds_before g v w n :
  (∀ e, e ∈ g → before v w e.2) →
  before v w (mjoin ((λ i, round i g) <$> seq 0 n)).
Proof.
  intros Hg. induction n as [|n IH].
  - intros l1 l2 Heq. by destruct l1.
  - rewrite seq_S, fmap_app, join_app. csimpl. rewrite app_nil_r.
    assert (w ∈ round n g → v ∈ mjoin ((λ i, round i g) <$> seq 0 n)) as Hround.
    { intros (e & He & Hn)%elem_of_round.
      pose proof (Hg e He (take n e.2) (drop (Datatypes.S n) e.2)) as Hv.
      rewrite take_drop_middle in Hv by done. specialize (Hv eq_refl).
      apply elem_of_take in Hv as (i & Hi & Hlt).
      apply list_elem_of_join. exists (round i g). split.
      - apply elem_of_round. by exists e.
      - apply list_elem_of_fmap. exists i. split; [done|]. apply elem_of_seq. lia. }
    intros l1 l2 Heq.
    apply app_eq_inv in Heq as [(k & Hl1 & Hl2)|(k & Hl1 & Hl2)].
    + destruct k as [|x k].
      * rewrite app_nil_r in Hl1. cbn in Hl2. rewrite <- Hl1. apply Hround.
        rewrite <- Hl2. left.
      * injection Hl2 as <- ->. by apply (IH l1 k).
    + rewrite Hl1. apply elem_of_app. left. apply Hround. rewrite Hl2.
      apply elem_of_app. right. left.
Qed.

Lemma candidates_before g v w :
  (∀ e, e ∈ g → before v w e.2) → before v w (candidates g).
Proof. apply rounds_before. Qed.

Lemma candidates_singleton (e : ConfigKey * list string) : candidates [e] = e.2.
Proof.
  unfold candidates.
  rewrite (list_fmap_ext (λ i, round i [e]) (λ i, option_list (e.2 !! i)) (seq 0 (max_len [e]))).
  - rewrite mjoin_lookups. apply take_ge. unfold max_len. cbn. lia.
  - intros _ i _. rewrite round_cons. apply app_nil_r.
Qed.
End before_facts.

Section common_order_facts.
Variable lists_of_settings_to_merge : list string.
Variable init_record : ConfigKey → SettingsRecord.

Lemma merge_data_settings_common (context : Context) key (a : Arch) :
  NoDup lists_of_settings_to_merge → wf_context context →
  key ∈ lists_of_settings_to_merge →
  a ≠ None → a ∈ archs (sln_configurations_map (data context)) →
  ∃ context',
    merge_data_settings lists_of_settings_to_merge init_record context = Ok context' ∧
    stored_list (data context') (None, a) key =
    Some (common_list (settings (data context)) key
            (sln_configurations_map (data context)) a).
Proof.
  intros Hnd Hwf Hkey Ha1 Ha2.
  destruct (merge_data_settings_total lists_of_settings_to_merge init_record context Hwf)
    as (context' & Hrun).
  exists context'. split; [done|].
  apply merge_data_settings_data in Hrun.
  by apply (merge_list_common init_record lists_of_settings_to_merge key
              (data context) (data context') a (wf_context_data context Hwf)).
Qed.

Lemma group_of_contributes (c : CtxData) key (a : Arch) (s : ConfigKey) (l : list string) :
  wf_ctx c →
  (s, l) ∈ group_of (settings c) key (sln_configurations_map c) a ↔ contributes c key a s l.
Proof.
  intros Hwf. by rewrite elem_of_group_of_resolved, contributes_resolved.
Qed.
End common_order_facts.

(** X5. For a well-formed context and pairwise distinct mergeable keys, the
    common list that [merge_data_settings] stores for a key under the
    wildcard key of an architecture is the round-robin sequence of the
    contributing lists, taken in the order of the configuration map, cut down
    to the first occurrence of each value shared by all of them. *)
Theorem merge_common_list_order (keys : list string)
    (init_record : ConfigKey → SettingsRecord) (context : Context)
    (key : string) (arch : Arch) :
  NoDup keys → wf_context context → key ∈ keys →
  arch ≠ None → arch ∈ archs (sln_configurations_map (data context)) →
  let group :=
    group_of (settings (data context)) key (sln_configurations_map (data context)) arch in
  (∀ s l, (s, l) ∈ group ↔ contributes (data context) key arch s l) ∧
  ∃ context', merge_data_settings keys init_record context = Ok context' ∧
    stored_list (data context') (None, arch) key =
    Some (first_occurrences (common_set group)
            (mjoin ((λ i, round i group) <$> seq 0 (max_len group)))).
Proof.
  intros Hnd Hwf Hkey Ha1 Ha2 group. split.
  - intros s l. apply group_of_contributes. by apply wf_context_data.
  - by apply merge_data_settings_common.
Qed.

Lemma merge_common_list_order_witness :
  NoDup ["defines"] ∧ wf_context (mkContext scenario_context None) ∧
  "defines" ∈ ["defines"] ∧ Some "x64" ≠ None ∧
  Some "x64" ∈ archs (sln_configurations_map scenario_context) ∧
  let group :=
    group_of (settings scenario_context) "defines"
      (sln_configurations_map scenario_context) (Some "x64") in
  (∀ s l, (s, l) ∈ group ↔ contributes scenario_context "defines" (Some "x64") s l) ∧
  ∃ context', merge_data_settings ["defines"] baseline (mkContext scenario_context None)
              = Ok context' ∧
    stored_list (data context') (None, Some "x64") "defines" =
    Some (first_occurrences (common_set group)
            (mjoin ((λ i, round i group) <$> seq 0 (max_len group)))).
Proof.
  assert (NoDup ["defines"]) as Hnd by (apply (bool_decide_unpack _); vm_compute; exact I).
  assert (wf_context (mkContext scenario_context None)) as Hwf.
  { split; [|exact I]. apply (bool_decide_unpack _). vm_compute. exact I. }
  assert ("defines" ∈ ["defines"]) as Hkey
    by (apply (bool_decide_unpack _); vm_compute; exact I).
  assert (Some "x64" ≠ (None : Arch)) as Ha1 by discriminate.
  assert (Some "x64" ∈ archs (sln_configurations_map scenario_context)) as Ha2
    by (apply (bool_decide_unpack _); vm_compute; exact I).
  split; [exact Hnd|]. split; [exact Hwf|]. split; [exact Hkey|].
  split; [exact Ha1|]. split; [exact Ha2|].
  apply (merge_common_list_order ["defines"] baseline (mkContext scenario_context None)
           "defines" (Some "x64") Hnd Hwf Hkey Ha1 Ha2).
Defined.

(** X6. With the hypotheses of X5: a value [v] shared by all contributing
    lists of an architecture that, in each of them, occurs before every
    occurrence of [w], is in the common list before every occurrence of [w]:
    the common list keeps the relative order on which the configurations
    agree. *)
Theorem merge_keeps_relative_order (keys : list string)
    (init_record : ConfigKey → SettingsRecord) (context : Context)
    (key : string) (arch : Arch) (v w : string) :
  NoDup keys → wf_context context → key ∈ keys →
  (∃ s l, contributes (data context) key arch s l) →
  (∀ s l, contributes (data context) key arch s l → v ∈ l ∧ before v w l) →
  ∃ context' common, merge_data_settings keys init_record context = Ok context' ∧
    stored_list (data context') (None, arch) key = Some common ∧
    v ∈ common ∧ before v w common.
Proof.
  intros Hnd Hwf Hkey Hex Hall.
  pose proof (wf_context_data context Hwf) as Hwfd.
  destruct Hex as (s0 & l0 & Hc0).
  destruct (contributes_arch (data context) key arch s0 l0 Hwfd Hc0) as [Ha1 Ha2].
  destruct (merge_data_settings_common keys init_record context key arch
              Hnd Hwf Hkey Ha1 Ha2) as (context' & Hrun & Hst).
  exists context', (common_list (settings (data context)) key
                      (sln_configurations_map (data context)) arch).
  split; [done|]. split; [done|].
  set (group := group_of (settings (data context)) key
                  (sln_configurations_map (data context)) arch).
  assert (∀ e, e ∈ group → v ∈ e.2 ∧ before v w e.2) as Hgroup.
  { intros [s l] He. apply (group_of_contributes (data context) key arch s l Hwfd) in He.
    by apply (Hall s l). }
  assert (group ≠ []) as Hne.
  { apply (group_of_contributes (data context) key arch s0 l0 Hwfd) in Hc0.
    fold group in Hc0. intros Hnil. rewrite Hnil in Hc0. by apply elem_of_nil in Hc0. }
  assert (v ∈ common_set group) as Hv.
  { apply elem_of_common_set; [done|]. intros e He. by apply Hgroup. }
  split.
  - by apply common_list_elem.
  - unfold common_list. fold group. apply first_occurrences_before; [done|].
    apply candidates_before. intros e He. by apply Hgroup.
Qed.

Example ordered_context_group :
  group_of (settings ordered_context) "defines" (sln_configurations_map ordered_context)
    (Some "x64")
  = [(debug_x64, ["A"; "B"; "D"]); (release_x64, ["E"; "A"; "B"])].
Proof. vm_compute. reflexivity. Qed.

Lemma merge_keeps_relative_order_witness :
  NoDup ["defines"] ∧ wf_context (mkContext ordered_context None) ∧
  "defines" ∈ ["defines"] ∧
  (∃ s l, contributes ordered_context "defines" (Some "x64") s l) ∧
  (∀ s l, contributes ordered_context "defines" (Some "x64") s l →
          "A" ∈ l ∧ before "A" "B" l) ∧
  ∃ context' common,
    merge_data_settings ["defines"] baseline (mkContext ordered_context None) = Ok context' ∧
    stored_list (data context') (None, Some "x64") "defines" = Some common ∧
    "A" ∈ common ∧ before "A" "B" common.
Proof.
  assert (NoDup ["defines"]) as Hnd by (apply (bool_decide_unpack _); vm_compute; exact I).
  assert (wf_ctx ordered_context) as Hwfd
    by (apply (bool_decide_unpack _); vm_compute; exact I).
  assert (wf_context (mkContext ordered_context None)) as Hwf by (split; [exact Hwfd|exact I]).
  assert ("defines" ∈ ["defines"]) as Hkey
    by (apply (bool_decide_unpack _); vm_compute; exact I).
  assert (∃ s l, contributes ordered_context "defines" (Some "x64") s l) as Hex.
  { exists debug_x64, ["A"; "B"; "D"]. apply group_of_contributes; [exact Hwfd|].
    rewrite ordered_context_group. left. }
  assert (∀ s l, contributes ordered_context "defines" (Some "x64") s l →
                 "A" ∈ l ∧ before "A" "B" l) as Hall.
  { intros s l Hc. apply group_of_contributes in Hc; [|exact Hwfd].
    rewrite ordered_context_group in Hc.
    apply elem_of_cons in Hc as [[= -> ->]|Hc].
    { split; [left|]. by apply before_head. }
    apply list_elem_of_singleton in Hc as [= -> ->].
    split; [right; left|]. apply before_cons; [done|]. by apply before_head. }
  split; [exact Hnd|]. split; [exact Hwf|]. split; [exact Hkey|].
  split; [exact Hex|]. split; [exact Hall|].
  apply (merge_keeps_relative_order ["defines"] baseline (mkContext ordered_context None)
           "defines" (Some "x64") "A" "B" Hnd Hwf Hkey Hex Hall).
Defined.

Section single_facts.
Implicit Types (S : gset string) (l : list string).

Lemma first_occurrences_NoDup_id S l :
  NoDup l → (∀ x, x ∈ l → x ∈ S) → first_occurrences S l = l.
Proof.
  revert S. induction l as [|e l IH]; intros S Hnd HS; [done|].
  apply NoDup_cons in Hnd as [He Hnd]. cbn [first_occurrences].
  rewrite decide_True by (apply HS; left). f_equal. apply IH; [done|].
  intros x Hx. apply elem_of_difference. split; [apply HS; by right|].
  intros ->%elem_of_singleton. done.
Qed.

Lemma singleton_group (g : Group) (s : ConfigKey) l :
  NoDup g.*1 → (s, l) ∈ g → (∀ e, e ∈ g → e.1 = s) → g = [(s, l)].
Proof.
  intros Hnd Hin Hall. destruct g as [|e1 [|e2 g]].
  - by apply elem_of_nil in Hin.
  - by apply list_elem_of_singleton in Hin as <-.
  - exfalso. cbn in Hnd. apply NoDup_cons in Hnd as [Hn _]. apply Hn.
    rewrite (Hall e1) by left. rewrite <- (Hall e2) by (right; left). left.
Qed.

Lemma filter_none {A} (P : A → Prop) `{∀ x, Decision (P x)} (k : list A) :
  (∀ x, x ∈ k → ¬ P x) → filter P k = [].
Proof.
  induction k as [|x k IH]; intros Hk; [done|].
  rewrite filter_cons_False by (apply Hk; left). apply IH. intros y Hy. apply Hk. by right.
Qed.
End single_facts.

(** X7. With the hypotheses of X5: where one configuration alone contributes
    to an architecture, its whole list is hoisted: the common list is the
    list cut down to the first occurrence of each value (the list itself when
    it has no duplicates) and the configuration keeps the empty list. *)
Theorem merge_single_contributor (keys : list string)
    (init_record : ConfigKey → SettingsRecord) (context : Context)
    (key : string) (arch : Arch) (s : ConfigKey) (l : list string) :
  NoDup keys → wf_context context → key ∈ keys →
  contributes (data context) key arch s l →
  (∀ s' l', contributes (data context) key arch s' l' → s' = s) →
  ∃ context', merge_data_settings keys init_record context = Ok context' ∧
    stored_list (data context') (None, arch) key
      = Some (first_occurrences (list_to_set l) l) ∧
    (NoDup l → stored_list (data context') (None, arch) key = Some l) ∧
    stored_list (data context') s key = Some [].
Proof.
  intros Hnd Hwf Hkey Hc Hone.
  pose proof (wf_context_data context Hwf) as Hwfd.
  destruct (contributes_arch (data context) key arch s l Hwfd Hc) as [Ha1 Ha2].
  destruct (merge_data_settings_common keys init_record context key arch
              Hnd Hwf Hkey Ha1 Ha2) as (context' & Hrun & Hst).
  exists context'. split; [done|].
  assert (group_of (settings (data context)) key (sln_configurations_map (data context)) arch
          = [(s, l)]) as Hgroup.
  { apply singleton_group.
    - apply group_of_NoDup. apply Hwfd.
    - by apply group_of_contributes.
    - intros [s' l'] He. apply group_of_contributes in He; [|done]. by apply (Hone s' l'). }
  assert (stored_list (data context') (None, arch) key
          = Some (first_occurrences (list_to_set l) l)) as Hcommon.
  { rewrite Hst. unfold common_list. rewrite Hgroup. by rewrite candidates_singleton. }
  split; [done|]. split.
  - intros Hl. rewrite Hcommon. f_equal. apply first_occurrences_NoDup_id; [done|].
    intros x Hx. by apply elem_of_list_to_set.
  - assert (∀ s' l', contributes (data context) key arch s' l' → l' = l) as contributes_list.
    { intros s' l' Hc'. apply group_of_contributes in Hc'; [|done].
      rewrite Hgroup in Hc'. by apply list_elem_of_singleton in Hc' as [= _ ->]. }
    pose proof (merge_data_settings_data keys init_record context context' Hrun) as Hkeys.
    destruct (merge_keys_hoisting keys init_record (data context) (data context') key arch
                Hnd Hwfd Hkeys Hkey) as (common & Hst' & _ & Hmem & Hres).
    { by exists s, l. }
    destruct (Hres s l Hc) as (residual & Hstored & -> & _).
    rewrite Hstored. f_equal. apply filter_none. intros v Hv Hn. apply Hn.
    apply Hmem. intros s' l' Hc'. by rewrite (contributes_list s' l' Hc').
Qed.

Lemma merge_single_contributor_witness :
  NoDup ["defines"] ∧ wf_context (mkContext single_context None) ∧
  "defines" ∈ ["defines"] ∧
  contributes single_context "defines" (Some "x64") debug_x64 ["X"; "Y"; "X"] ∧
  (∀ s' l', contributes single_context "defines" (Some "x64") s' l' → s' = debug_x64) ∧
  ∃ context',
    merge_data_settings ["defines"] baseline (mkContext single_context None) = Ok context' ∧
    stored_list (data context') (None, Some "x64") "defines"
      = Some (first_occurrences (list_to_set ["X"; "Y"; "X"]) ["X"; "Y"; "X"]) ∧
    (NoDup ["X"; "Y"; "X"] →
     stored_list (data context') (None, Some "x64") "defines" = Some ["X"; "Y"; "X"]) ∧
    stored_list (data context') debug_x64 "defines" = Some [].
Proof.
  assert (NoDup ["defines"]) as Hnd by (apply (bool_decide_unpack _); vm_compute; exact I).
  assert (wf_ctx single_context) as Hwfd
    by (apply (bool_decide_unpack _); vm_compute; exact I).
  assert (wf_context (mkContext single_context None)) as Hwf by (split; [exact Hwfd|exact I]).
  assert ("defines" ∈ ["defines"]) as Hkey
    by (apply (bool_decide_unpack _); vm_compute; exact I).
  assert (group_of (settings single_context) "defines"
            (sln_configurations_map single_context) (Some "x64")
          = [(debug_x64, ["X"; "Y"; "X"])]) as Hgroup by (vm_compute; reflexivity).
  assert (contributes single_context "defines" (Some "x64") debug_x64 ["X"; "Y"; "X"]) as Hc.
  { apply group_of_contributes; [exact Hwfd|]. rewrite Hgroup. left. }
  assert (∀ s' l', contributes single_context "defines" (Some "x64") s' l' → s' = debug_x64)
    as Hone.
  { intros s' l' Hc'. apply group_of_contributes in Hc'; [|exact Hwfd].
    rewrite Hgroup in Hc'. by apply list_elem_of_singleton in Hc' as [= -> _]. }
  split; [exact Hnd|]. split; [exact Hwf|]. split; [exact Hkey|].
  split; [exact Hc|]. split; [exact Hone|].
  apply (merge_single_contributor ["defines"] baseline (mkContext single_context None)
           "defines" (Some "x64") debug_x64 ["X"; "Y"; "X"] Hnd Hwf Hkey Hc Hone).
Defined.

(** * Exceptions and frame of the merger *)

Section raise_inv_facts.
Context {A S : Type}.
Implicit Types (body : S → A → result S) (l : list A).

Lemma for_each_raises_inv (Inv : S → Prop) body l s (a : A) (e : exn) :
  Inv s → a ∈ l →
  (∀ s, Inv s → body s a = Raise e) →
  (∀ s a' s', Inv s → body s a' = Ok s' → Inv s') →
  (∀ s a' e', body s a' = Raise e' → e' = e) →
  for_each body l s = Raise e.
Proof.
  intros Hs Hin Ha Hinv Hall. revert s Hs. induction l as [|a' l IH]; intros s Hs.
  - by apply elem_of_nil in Hin.
  - cbn [for_each]. destruct (body s a') as [s'|e'] eqn:Hb.
    + change (for_each body l s' = Raise e).
      apply elem_of_cons in Hin as [->|Hin]; [by rewrite (Ha s Hs) in Hb|].
      apply IH; [done|]. by apply (Hinv s a').
    + change (@Raise S e' = Raise e). f_equal. by eapply Hall.
Qed.
End raise_inv_facts.

Section unresolved_facts.
Variable init_record : ConfigKey → SettingsRecord.

Lemma intersection_step_KeyError key st item e :
  intersection_step init_record key st item = Raise e → e = KeyError.
Proof.
  destruct st as [[c lists] sets]. destruct item as [s M].
  unfold intersection_step. cbv beta iota zeta.
  repeat (match goal with
          | |- context [getitem ?o] => destruct o; cbn
          | |- context [match ?o with Some _ => _ | None => _ end] => destruct o; cbn
          | |- context [decide ?P] => destruct (decide P); cbn
          end); try done; by intros [= <-].
Qed.

Lemma intersection_step_unresolved key st (s M : ConfigKey) :
  M.1 ≠ None → settings st.1.1 !! M = None →
  intersection_step init_record key st (s, M) = Raise KeyError.
Proof.
  intros HM Hnone. destruct st as [[c lists] sets]. cbn [fst] in Hnone.
  unfold intersection_step. cbv beta iota zeta.
  assert (settings (if decide ((None, s.2) ∉ dom (settings c))
                    then init_context_current_setting init_record (with_current (None, s.2) c)
                    else c) !! M = None) as ->; [|done].
  destruct (decide ((None, s.2) ∉ dom (settings c))); [|done]. cbn.
  rewrite lookup_insert_ne; [done|]. intros <-. by apply HM.
Qed.

Lemma intersection_step_keeps_unresolved key st item st' (M : ConfigKey) :
  M.1 ≠ None → settings st.1.1 !! M = None →
  intersection_step init_record key st item = Ok st' →
  settings st'.1.1 !! M = None.
Proof.
  intros HM Hnone. destruct st as [[c lists] sets]. destruct item as [s M']. cbn [fst] in Hnone.
  unfold intersection_step. cbv beta iota zeta.
  set (c1 := if decide ((None, s.2) ∉ dom (settings c))
             then init_context_current_setting init_record (with_current (None, s.2) c)
             else c).
  assert (settings c1 !! M = None) as Hc1.
  { unfold c1. destruct (decide ((None, s.2) ∉ dom (settings c))); [|done]. cbn.
    rewrite lookup_insert_ne; [done|]. intros <-. by apply HM. }
  clearbody c1.
  repeat (match goal with
          | |- context [getitem ?o] => destruct o; cbn
          | |- context [match ?o with Some _ => _ | None => _ end] => destruct o; cbn
          | |- context [decide ?P] => destruct (decide P); cbn
          end); try done; by intros [= <-].
Qed.
End unresolved_facts.

(** X8. Records are created lazily under wildcard keys only: when a solution
    configuration resolves to a non-wildcard key that has no record in the
    settings store, [merge_data_settings] with at least one mergeable key
    raises [KeyError]. *)
Theorem merge_data_settings_unresolved (key : string) (keys : list string)
    (init_record : ConfigKey → SettingsRecord) (context : Context) (s M : ConfigKey) :
  (s, M) ∈ sln_configurations_map (data context) → M.1 ≠ None →
  settings (data context) !! M = None →
  merge_data_settings (key :: keys) init_record context = Raise KeyError.
Proof.
  intros Hin HM Hnone. destruct context as [d files]. cbn [data] in *.
  assert (merge_key init_record d key = Raise KeyError) as Hkey.
  { unfold merge_key.
    rewrite (for_each_raises_inv (λ st, settings st.1.1 !! M = None)
               (intersection_step init_record key) (sln_configurations_map d)
               (d, [], ∅) (s, M) KeyError); [done|done|done|..].
    - intros st Hst. by apply intersection_step_unresolved.
    - intros st item st' Hst. by apply intersection_step_keeps_unresolved.
    - intros st item e'. apply intersection_step_KeyError. }
  cbn [merge_data_settings]. unfold merge_keys. cbn [for_each]. by rewrite Hkey.
Qed.

Lemma merge_data_settings_unresolved_witness :
  (debug_x64, release_x64) ∈ sln_configurations_map (data (mkContext dangling_context None)) ∧
  release_x64.1 ≠ None ∧
  settings (data (mkContext dangling_context None)) !! release_x64 = None ∧
  merge_data_settings ("defines" :: []) baseline (mkContext dangling_context None)
  = Raise KeyError.
Proof.
  assert ((debug_x64, release_x64)
            ∈ sln_configurations_map (data (mkContext dangling_context None))) as H1
    by (apply (bool_decide_unpack _); vm_compute; exact I).
  assert (release_x64.1 ≠ None) as H2 by discriminate.
  assert (settings (data (mkContext dangling_context None)) !! release_x64 = None) as H3
    by (apply (bool_decide_unpack _); vm_compute; exact I).
  split; [exact H1|]. split; [exact H2|]. split; [exact H3|].
  apply (merge_data_settings_unresolved "defines" [] baseline
           (mkContext dangling_context None) debug_x64 release_x64 H1 H2 H3).
Defined.

Section frame_facts.
Variable init_record : ConfigKey → SettingsRecord.

Lemma for_each_preserves {A S} (R : S → S → Prop) (body : S → A → result S)
    (l : list A) (s s' : S) :
  (∀ s, R s s) → (∀ s1 s2 s3, R s1 s2 → R s2 s3 → R s1 s3) →
  (∀ s a s', body s a = Ok s' → R s s') →
  for_each body l s = Ok s' → R s s'.
Proof.
  intros Hrefl Htrans Hbody. revert s. induction l as [|a l IH]; intros s.
  - intros [= <-]. apply Hrefl.
  - cbn [for_each]. destruct (body s a) as [s1|] eqn:Hb; [|done]. cbn.
    intros Hrun. apply (Htrans s s1 s'); [by apply (Hbody s a)|by apply IH].
Qed.

Lemma intersection_step_frame (key : string) (st : CtxData * ItemsToMerge * SetsOfItems)
    (item : ConfigKey * ConfigKey) (st' : CtxData * ItemsToMerge * SetsOfItems) :
  intersection_step init_record key st item = Ok st' → same_frame st.1.1 st'.1.1.
Proof.
  destruct st as [[c lists] sets]. destruct item as [s M].
  unfold intersection_step. cbv beta iota zeta.
  set (c1 := if decide ((None, s.2) ∉ dom (settings c))
             then init_context_current_setting init_record (with_current (None, s.2) c)
             else c).
  assert (same_frame c c1) as Hc1.
  { unfold c1. by destruct (decide ((None, s.2) ∉ dom (settings c))). }
  clearbody c1.
  repeat (match goal with
          | |- context [getitem ?o] => destruct o; cbn
          | |- context [match ?o with Some _ => _ | None => _ end] => destruct o; cbn
          | |- context [decide ?P] => destruct (decide P); cbn
          end); try done; by intros [= <-].
Qed.

Lemma update_settings_at_context_frame (c : CtxData) (s : ConfigKey) (key : string)
    (l : list string) (c' : CtxData) :
  update_settings_at_context c s key l = Ok c' → same_frame c c'.
Proof.
  unfold update_settings_at_context.
  repeat (match goal with
          | |- context [getitem ?o] => destruct o; cbn
          | |- context [decide ?P] => destruct (decide P); cbn
          end); try done; by intros [= <-].
Qed.

Lemma remove_common_settings_from_context_frame (c : CtxData) (lists : ItemsToMerge)
    (sets : SetsOfItems) (key : string) (c' : CtxData) :
  remove_common_settings_from_context c lists sets key = Ok c' → same_frame c c'.
Proof.
  apply for_each_preserves; [apply same_frame_refl|apply same_frame_trans|].
  intros c1 ag c2. apply for_each_preserves; [apply same_frame_refl|apply same_frame_trans|].
  intros c3 entry c4. destruct (result_settings_list sets ag.1 entry.2); [|done]. cbn.
  apply update_settings_at_context_frame.
Qed.

Lemma commit_merged_settings_frame (key : string) (c : CtxData) (al : Arch * list string)
    (c' : CtxData) :
  commit_merged_settings key c al = Ok c' → same_frame c c'.
Proof.
  destruct al as [a l]. unfold commit_merged_settings.
  destruct (settings c !! (None, a)); cbn; [|done]. by intros [= <-].
Qed.

Lemma merge_key_frame (c : CtxData) (key : string) (c' : CtxData) :
  merge_key init_record c key = Ok c' → same_frame c c'.
Proof.
  unfold merge_key.
  destruct (for_each (intersection_step init_record key) (sln_configurations_map c) (c, [], ∅))
    as [[[c1 lists] sets]|] eqn:H1; [|done]. cbn.
  assert (same_frame c c1) as Hc1.
  { apply (for_each_preserves (λ st st', same_frame st.1.1 st'.1.1)) in H1; [done|..].
    - intros st. apply same_frame_refl.
    - intros st1 st2 st3. apply same_frame_trans.
    - intros st item st'. apply intersection_step_frame. }
  destruct (remove_common_settings_from_context c1 lists sets key) as [c2|] eqn:H2; [|done]. cbn.
  apply remove_common_settings_from_context_frame in H2.
  destruct (get_order_of_common_settings lists) as [orders|]; [|done]. cbn.
  destruct (get_common_ordered_settings orders sets) as [merged|]; [|done]. cbn.
  intros H3. apply (for_each_preserves same_frame) in H3.
  - eapply same_frame_trans; [|exact H3]. by eapply same_frame_trans.
  - apply same_frame_refl.
  - apply same_frame_trans.
  - intros c3 al c4. apply commit_merged_settings_frame.
Qed.

Lemma merge_keys_frame (ks : list string) (c c' : CtxData) :
  merge_keys ks init_record c = Ok c' → same_frame c c'.
Proof.
  apply for_each_preserves; [apply same_frame_refl|apply same_frame_trans|].
  apply merge_key_frame.
Qed.
End frame_facts.

(** X9. Whatever the context, when [merge_data_settings] returns it has
    emitted no diagnostic and has left the project path and the set of
    requested configurations alone. *)
Theorem merge_data_settings_frame (keys : list string)
    (init_record : ConfigKey → SettingsRecord) (context context' : Context) :
  merge_data_settings keys init_record context = Ok context' →
  vcxproj_path (data context') = vcxproj_path (data context) ∧
  configurations_to_parse (data context') = configurations_to_parse (data context) ∧
  diagnostics (data context') = diagnostics (data context).
Proof.
  intros Hrun. apply merge_data_settings_data in Hrun.
  by apply (merge_keys_frame init_record keys).
Qed.

Lemma merge_data_settings_frame_witness :
  ∃ context',
    merge_data_settings ["defines"] baseline (mkContext scenario_context None) = Ok context' ∧
    vcxproj_path (data context') = vcxproj_path scenario_context ∧
    configurations_to_parse (data context') = configurations_to_parse scenario_context ∧
    diagnostics (data context') = diagnostics scenario_context.
Proof.
  assert (wf_context (mkContext scenario_context None)) as Hwf.
  { split; [|exact I]. apply (bool_decide_unpack _). vm_compute. exact I. }
  destruct (merge_data_settings_total ["defines"] baseline (mkContext scenario_context None) Hwf)
    as (context' & Hrun).
  exists context'. split; [exact Hrun|].
  apply (merge_data_settings_frame ["defines"] baseline (mkContext scenario_context None)
           context' Hrun).
Defined.

(** * Records and configuration map after a run *)

Section record_facts.
Variable init_record : ConfigKey → SettingsRecord.
Implicit Types (c : CtxData) (key : string) (s x : ConfigKey) (ks : list string).
Implicit Types (r : SettingsRecord).

Lemma pass_record key c c' x r :
  wf_ctx c → pass_post init_record key c c' → settings c !! x = Some r →
  ∃ r', settings c' !! x = Some r' ∧ target_type r' = target_type r ∧
        ∀ key2, key2 ≠ key → lists r' !! key2 = lists r !! key2.
Proof.
  intros Hwf Hpost Hx.
  assert (∀ l : list string,
            target_type (set_list key l r) = target_type r ∧
            ∀ key2, key2 ≠ key → lists (set_list key l r) !! key2 = lists r !! key2) as Hset.
  { intros l. split; [done|]. intros key2 Hne.
    rewrite lists_set_list. by rewrite decide_False by congruence. }
  rewrite (pass_settings_lookup init_record key c c' x Hwf Hpost).
  destruct (decide (x.1 = None ∧ x.2 ≠ None ∧ x.2 ∈ archs (sln_configurations_map c))).
  { rewrite Hx. cbn. eexists. split; [done|]. apply Hset. }
  destruct (rewritten_record (settings c) key (sln_configurations_map c) x) as [r0|] eqn:Hrw.
  - unfold rewritten_record in Hrw.
    destruct (dict_get x (sln_configurations_map c)) as [M|] eqn:Hget; [|done]. cbn in Hrw.
    apply dict_get_Some_elem in Hget.
    destruct (wf_ctx_item c x M Hwf Hget) as [_ (_ & _ & _ & Hown)].
    cbn [fst snd] in Hown. rewrite Hown in Hrw by (by rewrite Hx). rewrite Hx in Hrw.
    cbn in Hrw. destruct (residual_of _ _ _ _) as [l|]; [|done]. cbn in Hrw.
    injection Hrw as <-. eexists. split; [done|]. apply Hset.
  - exists r. by rewrite Hx.
Qed.

Lemma merge_list_record ks c c' x r :
  wf_ctx c → for_each (merge_key init_record) ks c = Ok c' → settings c !! x = Some r →
  ∃ r', settings c' !! x = Some r' ∧ target_type r' = target_type r ∧
        ∀ key2, key2 ∉ ks → lists r' !! key2 = lists r !! key2.
Proof.
  revert c r. induction ks as [|k ks IH]; intros c r Hwf Hrun Hx.
  - injection Hrun as <-. by exists r.
  - cbn [for_each] in Hrun.
    destruct (merge_key_spec init_record k c Hwf) as (c1 & Hk & Hpost).
    rewrite Hk in Hrun. cbn in Hrun.
    destruct (pass_record k c c1 x r Hwf Hpost Hx) as (r1 & Hx1 & Ht1 & Hl1).
    destruct (IH c1 r1 (pass_wf init_record k c c1 Hwf Hpost) Hrun Hx1)
      as (r' & Hx' & Ht' & Hl').
    exists r'. split; [done|]. split; [congruence|].
    intros key2 [Hne Hnin]%not_elem_of_cons. rewrite Hl' by done. by apply Hl1.
Qed.

Lemma merge_list_wildcard_created k ks c c' x :
  wf_ctx c → for_each (merge_key init_record) (k :: ks) c = Ok c' →
  x.1 = None → x.2 ≠ None → x.2 ∈ archs (sln_configurations_map c) →
  settings c !! x = None →
  ∃ r', settings c' !! x = Some r' ∧ target_type r' = target_type (init_record x) ∧
        ∀ key2, key2 ∉ k :: ks → lists r' !! key2 = lists (init_record x) !! key2.
Proof.
  intros Hwf Hrun Hx1 Hx2 Hx3 Hnone. cbn [for_each] in Hrun.
  destruct (merge_key_spec init_record k c Hwf) as (c1 & Hk & Hpost).
  rewrite Hk in Hrun. cbn in Hrun.
  pose proof (pass_settings_lookup init_record k c c1 x Hwf Hpost) as Hlook.
  rewrite decide_True in Hlook by done. rewrite Hnone in Hlook. cbn in Hlook.
  destruct (merge_list_record ks c1 c' x _ (pass_wf init_record k c c1 Hwf Hpost) Hrun Hlook)
    as (r' & Hx' & Ht' & Hl').
  exists r'. split; [done|]. split; [done|].
  intros key2 [Hne Hnin]%not_elem_of_cons. rewrite Hl' by done.
  rewrite lists_set_list. by rewrite decide_False by congruence.
Qed.

Lemma merge_list_unmapped ks c c' x :
  wf_ctx c → for_each (merge_key init_record) ks c = Ok c' →
  x.1 ≠ None → x ∉ (sln_configurations_map c).*1 →
  settings c' !! x = settings c !! x ∧ x ∉ (sln_configurations_map c').*1.
Proof.
  revert c. induction ks as [|k ks IH]; intros c Hwf Hrun Hx Hnin.
  - by injection Hrun as <-.
  - cbn [for_each] in Hrun.
    destruct (merge_key_spec init_record k c Hwf) as (c1 & Hk & Hpost).
    rewrite Hk in Hrun. cbn in Hrun.
    assert (x ∉ (sln_configurations_map c1).*1) as Hnin1.
    { destruct (pass_keys init_record k c c1 Hpost) as (extra & -> & Hextra).
      intros [Hin|Hin]%elem_of_app; [done|]. by apply Hx, Hextra. }
    destruct (IH c1 (pass_wf init_record k c c1 Hwf Hpost) Hrun Hx Hnin1) as [-> Hnin'].
    split; [|done]. apply (pass_unchanged init_record k c c1 x Hwf Hpost Hx).
    unfold resolved_list. by rewrite (proj2 (dict_get_None x (sln_configurations_map c))).
Qed.

Lemma merge_list_keys ks c c' :
  wf_ctx c → for_each (merge_key init_record) ks c = Ok c' →
  ∃ extra : list ConfigKey,
    (sln_configurations_map c').*1 = (sln_configurations_map c).*1 ++ extra ∧
    ∀ k, k ∈ extra → k.1 = None.
Proof.
  revert c. induction ks as [|k ks IH]; intros c Hwf Hrun.
  - injection Hrun as <-. exists []. split; [by rewrite app_nil_r|]. by intros k ?%elem_of_nil.
  - cbn [for_each] in Hrun.
    destruct (merge_key_spec init_record k c Hwf) as (c1 & Hk & Hpost).
    rewrite Hk in Hrun. cbn in Hrun.
    destruct (pass_keys init_record k c c1 Hpost) as (extra1 & Hkeys1 & Hextra1).
    destruct (IH c1 (pass_wf init_record k c c1 Hwf Hpost) Hrun) as (extra2 & Hkeys2 & Hextra2).
    exists (extra1 ++ extra2). split.
    + by rewrite Hkeys2, Hkeys1, (assoc_L (++)).
    + intros x [Hin|Hin]%elem_of_app; auto.
Qed.

Lemma merge_list_map ks c c' s :
  wf_ctx c → for_each (merge_key init_record) ks c = Ok c' →
  dict_get s (sln_configurations_map c') = Some s ∨
  dict_get s (sln_configurations_map c') = dict_get s (sln_configurations_map c).
Proof.
  revert c. induction ks as [|k ks IH]; intros c Hwf Hrun.
  - injection Hrun as <-. by right.
  - cbn [for_each] in Hrun.
    destruct (merge_key_spec init_record k c Hwf) as (c1 & Hk & Hpost).
    rewrite Hk in Hrun. cbn in Hrun.
    destruct (IH c1 (pass_wf init_record k c c1 Hwf Hpost) Hrun) as [Hself|Hsame]; [by left|].
    rewrite Hsame.
    destruct (pass_map_lookup init_record k c c1 Hwf Hpost) as [_ Hlook]. rewrite Hlook.
    destruct (decide _); [by left|]. destruct (decide _); [by left|by right].
Qed.

Lemma merge_list_self_mapped ks c c' s :
  wf_ctx c → for_each (merge_key init_record) ks c = Ok c' →
  (dict_get s (sln_configurations_map c) = Some s ∨
   ∃ key, key ∈ ks ∧ is_Some (resolved_list c s key)) →
  dict_get s (sln_configurations_map c') = Some s.
Proof.
  revert c. induction ks as [|k ks IH]; intros c Hwf Hrun Hs.
  - injection Hrun as <-. destruct Hs as [Hs|(key & Hin & _)]; [done|].
    by apply elem_of_nil in Hin.
  - cbn [for_each] in Hrun.
    destruct (merge_key_spec init_record k c Hwf) as (c1 & Hk & Hpost).
    rewrite Hk in Hrun. cbn in Hrun.
    apply (IH c1 (pass_wf init_record k c c1 Hwf Hpost) Hrun).
    destruct Hs as [Hs|(key & Hin & Hres)].
    + left. apply (pass_self_mapped init_record k c c1 s Hwf Hpost). by right.
    + destruct (decide (key = k)) as [->|Hne].
      * left. apply (pass_self_mapped init_record k c c1 s Hwf Hpost). by left.
      * right. exists key. apply elem_of_cons in Hin as [->|Hin]; [done|]. split; [done|].
        rewrite (pass_resolved_other init_record k key c c1 s Hwf Hpost); [done|congruence].
Qed.
End record_facts.

(** * What the merge leaves alone *)

(** X10. For a well-formed context, a record that the store holds before
    [merge_data_settings] is still there afterwards, under the same key, with
    its ['target_type'] entry and its list for every key that is not
    mergeable as they were: the merge rewrites lists of mergeable keys only. *)
Theorem merge_keeps_other_entries (keys : list string)
    (init_record : ConfigKey → SettingsRecord) (context : Context)
    (x : ConfigKey) (r : SettingsRecord) :
  wf_context context → settings (data context) !! x = Some r →
  ∃ context' r', merge_data_settings keys init_record context = Ok context' ∧
    settings (data context') !! x = Some r' ∧
    target_type r' = target_type r ∧
    ∀ key, key ∉ keys → lists r' !! key = lists r !! key.
Proof.
  intros Hwf Hx.
  destruct (merge_data_settings_total keys init_record context Hwf) as (context' & Hrun).
  pose proof (merge_data_settings_data keys init_record context context' Hrun) as Hkeys.
  destruct (merge_list_record init_record keys (data context) (data context') x r
              (wf_context_data context Hwf) Hkeys Hx) as (r' & Hr').
  by exists context', r'.
Qed.

Lemma merge_keeps_other_entries_witness :
  wf_context (mkContext scenario_context None) ∧
  settings scenario_context !! debug_x64
    = Some (record_of "Application" [("defines", ["X"; "Y"; "Z"])]) ∧
  ∃ context' r',
    merge_data_settings ["defines"] baseline (mkContext scenario_context None) = Ok context' ∧
    settings (data context') !! debug_x64 = Some r' ∧
    target_type r' = target_type (record_of "Application" [("defines", ["X"; "Y"; "Z"])]) ∧
    ∀ key, key ∉ ["defines"] →
      lists r' !! key = lists (record_of "Application" [("defines", ["X"; "Y"; "Z"])]) !! key.
Proof.
  assert (wf_context (mkContext scenario_context None)) as Hwf.
  { split; [|exact I]. apply (bool_decide_unpack _). vm_compute. exact I. }
  assert (settings scenario_context !! debug_x64
          = Some (record_of "Application" [("defines", ["X"; "Y"; "Z"])])) as Hx
    by (apply (bool_decide_unpack _); vm_compute; exact I).
  split; [exact Hwf|]. split; [exact Hx|].
  apply (merge_keeps_other_entries ["defines"] baseline (mkContext scenario_context None)
           debug_x64 _ Hwf Hx).
Defined.

(** X11. For a well-formed context and at least one mergeable key, an
    architecture of the configuration map whose wildcard key has no record
    gets one from the default-initialisation hook: after the merge the record
    under the wildcard key has the ['target_type'] entry of the hook's
    baseline record and its list for every key that is not mergeable. *)
Theorem merge_initialises_wildcard (key : string) (keys : list string)
    (init_record : ConfigKey → SettingsRecord) (context : Context) (arch : Arch) :
  wf_context context →
  arch ≠ None → arch ∈ archs (sln_configurations_map (data context)) →
  settings (data context) !! ((None, arch) : ConfigKey) = None →
  ∃ context' r',
    merge_data_settings (key :: keys) init_record context = Ok context' ∧
    settings (data context') !! ((None, arch) : ConfigKey) = Some r' ∧
    target_type r' = target_type (init_record (None, arch)) ∧
    ∀ key2, key2 ∉ key :: keys → lists r' !! key2 = lists (init_record (None, arch)) !! key2.
Proof.
  intros Hwf Ha1 Ha2 Hnone.
  destruct (merge_data_settings_total (key :: keys) init_record context Hwf)
    as (context' & Hrun).
  pose proof (merge_data_settings_data (key :: keys) init_record context context' Hrun) as Hkeys.
  destruct (merge_list_wildcard_created init_record key keys (data context) (data context')
              (None, arch) (wf_context_data context Hwf) Hkeys eq_refl Ha1 Ha2 Hnone)
    as (r' & Hr').
  by exists context', r'.
Qed.

Lemma merge_initialises_wildcard_witness :
  wf_context (mkContext scenario_context None) ∧ Some "x64" ≠ None ∧
  Some "x64" ∈ archs (sln_configurations_map scenario_context) ∧
  settings scenario_context !! ((None, Some "x64") : ConfigKey) = None ∧
  ∃ context' r',
    merge_data_settings ("defines" :: []) baseline (mkContext scenario_context None)
    = Ok context' ∧
    settings (data context') !! ((None, Some "x64") : ConfigKey) = Some r' ∧
    target_type r' = target_type (baseline (None, Some "x64")) ∧
    ∀ key2, key2 ∉ "defines" :: [] →
      lists r' !! key2 = lists (baseline (None, Some "x64")) !! key2.
Proof.
  assert (wf_context (mkContext scenario_context None)) as Hwf.
  { split; [|exact I]. apply (bool_decide_unpack _). vm_compute. exact I. }
  assert (Some "x64" ≠ (None : Arch)) as Ha1 by discriminate.
  assert (Some "x64" ∈ archs (sln_configurations_map scenario_context)) as Ha2
    by (apply (bool_decide_unpack _); vm_compute; exact I).
  assert (settings scenario_context !! ((None, Some "x64") : ConfigKey) = None) as Hnone
    by (apply (bool_decide_unpack _); vm_compute; exact I).
  split; [exact Hwf|]. split; [exact Ha1|]. split; [exact Ha2|]. split; [exact Hnone|].
  apply (merge_initialises_wildcard "defines" [] baseline (mkContext scenario_context None)
           (Some "x64") Hwf Ha1 Ha2 Hnone).
Defined.

(** X12. For a well-formed context, a non-wildcard key that is not a solution
    configuration of the configuration map is left alone by
    [merge_data_settings]: what the store holds under it (a record, or
    nothing) is what it held before, and the key does not enter the map. So a
    record that several solution configurations resolve to, without being one
    itself, keeps all its lists while each of them gets a rewritten copy. *)
Theorem merge_leaves_unmapped_records (keys : list string)
    (init_record : ConfigKey → SettingsRecord) (context : Context) (x : ConfigKey) :
  wf_context context → x.1 ≠ None →
  x ∉ (sln_configurations_map (data context)).*1 →
  ∃ context', merge_data_settings keys init_record context = Ok context' ∧
    settings (data context') !! x = settings (data context) !! x ∧
    x ∉ (sln_configurations_map (data context')).*1.
Proof.
  intros Hwf Hx Hnin.
  destruct (merge_data_settings_total keys init_record context Hwf) as (context' & Hrun).
  pose proof (merge_data_settings_data keys init_record context context' Hrun) as Hkeys.
  exists context'. split; [done|].
  by apply (merge_list_unmapped init_record keys (data context) (data context') x
              (wf_context_data context Hwf)).
Qed.

Lemma merge_leaves_unmapped_records_witness :
  wf_context (mkContext shared_context None) ∧ base_x64.1 ≠ None ∧
  (base_x64 ∉ (sln_configurations_map (data (mkContext shared_context None))).*1) ∧
  ∃ context',
    merge_data_settings ["defines"] baseline (mkContext shared_context None) = Ok context' ∧
    settings (data context') !! base_x64
      = settings (data (mkContext shared_context None)) !! base_x64 ∧
    base_x64 ∉ (sln_configurations_map (data context')).*1.
Proof.
  assert (wf_context (mkContext shared_context None)) as Hwf.
  { split; [|exact I]. apply (bool_decide_unpack _). vm_compute. exact I. }
  assert (base_x64.1 ≠ None) as Hx by discriminate.
  assert (base_x64 ∉ (sln_configurations_map (data (mkContext shared_context None))).*1)
    as Hnin by (apply (bool_decide_unpack _); vm_compute; exact I).
  split; [exact Hwf|]. split; [exact Hx|]. split; [exact Hnin|].
  apply (merge_leaves_unmapped_records ["defines"] baseline (mkContext shared_context None)
           base_x64 Hwf Hx Hnin).
Defined.

(** The run on [shared_context]: the shared record keeps its list, and each
    of the two solution configurations gets a record with the empty residual
    list. *)
Example shared_context_run :
  (context' ← merge_data_settings ["defines"] baseline (mkContext shared_context None);
   Ok (stored_list (data context') base_x64 "defines",
       stored_list (data context') debug_x64 "defines",
       stored_list (data context') release_x64 "defines",
       stored_list (data context') wildcard_x64 "defines",
       sln_configurations_map (data context')))
  = Ok (Some ["X"; "Y"], Some [], Some [], Some ["X"; "Y"],
        [(debug_x64, debug_x64); (release_x64, release_x64); (wildcard_x64, wildcard_x64)]).
Proof. vm_compute. reflexivity. Qed.

(** X13. For a well-formed context, [merge_data_settings] keeps the solution
    configurations of the configuration map in their order and adds wildcard
    keys only, at the end; every key resolves afterwards to itself or to what
    it resolved to before; a configuration that contributes to the merge of
    some mergeable key resolves to itself and has a record under its own key;
    and, with at least one mergeable key, so has the wildcard key of every
    architecture of the map. *)
Theorem merge_configuration_map (keys : list string)
    (init_record : ConfigKey → SettingsRecord) (context : Context) :
  wf_context context →
  ∃ context' (added : list ConfigKey),
    merge_data_settings keys init_record context = Ok context' ∧
    (sln_configurations_map (data context')).*1
      = (sln_configurations_map (data context)).*1 ++ added ∧
    (∀ k, k ∈ added → k.1 = None) ∧
    (∀ s, dict_get s (sln_configurations_map (data context')) = Some s ∨
          dict_get s (sln_configurations_map (data context'))
          = dict_get s (sln_configurations_map (data context))) ∧
    (∀ key arch s l, key ∈ keys → contributes (data context) key arch s l →
       dict_get s (sln_configurations_map (data context')) = Some s ∧
       is_Some (settings (data context') !! s)) ∧
    (keys ≠ [] → ∀ arch : Arch,
       arch ≠ None → arch ∈ archs (sln_configurations_map (data context)) →
       dict_get ((None, arch) : ConfigKey) (sln_configurations_map (data context'))
         = Some (None, arch) ∧
       is_Some (settings (data context') !! ((None, arch) : ConfigKey))).
Proof.
  intros Hwf. pose proof (wf_context_data context Hwf) as Hwfd.
  destruct (merge_data_settings_total keys init_record context Hwf) as (context' & Hrun).
  pose proof (merge_data_settings_data keys init_record context context' Hrun) as Hkeys.
  destruct (merge_list_keys init_record keys (data context) (data context') Hwfd Hkeys)
    as (added & Hadded & Hwild).
  destruct (merge_list_run init_record keys (data context) Hwfd)
    as (c' & Hrun' & Hwf' & _ & Harchs & _ & Hclosed & _).
  unfold merge_keys in Hkeys. rewrite Hkeys in Hrun'. injection Hrun' as <-.
  assert (∀ s, dict_get s (sln_configurations_map (data context')) = Some s →
               is_Some (settings (data context') !! s)) as Hrecord.
  { intros s Hs. apply dict_get_Some_elem in Hs.
    by destruct (wf_ctx_item (data context') s s Hwf' Hs) as [_ [? _]]. }
  exists context', added. split; [done|]. split; [done|]. split; [done|]. split.
  { intros s. by apply (merge_list_map init_record keys (data context)). }
  split.
  - intros key arch s l Hkey Hc.
    apply (contributes_resolved (data context) key arch s l Hwfd) in Hc as [_ Hres].
    assert (dict_get s (sln_configurations_map (data context')) = Some s) as Hs.
    { apply (merge_list_self_mapped init_record keys (data context) (data context') s Hwfd Hkeys).
      right. exists key. by rewrite Hres. }
    split; [done|by apply Hrecord].
  - intros Hne arch Ha1 Ha2.
    assert (dict_get ((None, arch) : ConfigKey) (sln_configurations_map (data context'))
            = Some (None, arch)) as Hs.
    { apply Hclosed; [by right|done|]. by apply Harchs. }
    split; [done|by apply Hrecord].
Qed.

Lemma merge_configuration_map_witness :
  wf_context (mkContext shared_context None) ∧
  ∃ context' (added : list ConfigKey),
    merge_data_settings ["defines"] baseline (mkContext shared_context None) = Ok context' ∧
    (sln_configurations_map (data context')).*1
      = (sln_configurations_map shared_context).*1 ++ added ∧
    (∀ k, k ∈ added → k.1 = None) ∧
    (∀ s, dict_get s (sln_configurations_map (data context')) = Some s ∨
          dict_get s (sln_configurations_map (data context'))
          = dict_get s (sln_configurations_map shared_context)) ∧
    (∀ key arch s l, key ∈ ["defines"] → contributes shared_context key arch s l →
       dict_get s (sln_configurations_map (data context')) = Some s ∧
       is_Some (settings (data context') !! s)) ∧
    (["defines"] ≠ [] → ∀ arch : Arch,
       arch ≠ None → arch ∈ archs (sln_configurations_map shared_context) →
       dict_get ((None, arch) : ConfigKey) (sln_configurations_map (data context'))
         = Some (None, arch) ∧
       is_Some (settings (data context') !! ((None, arch) : ConfigKey))).
Proof.
  assert (wf_context (mkContext shared_context None)) as Hwf.
  { split; [|exact I]. apply (bool_decide_unpack _). vm_compute. exact I. }
  split; [exact Hwf|].
  apply (merge_configuration_map ["defines"] baseline (mkContext shared_context None) Hwf).
Defined.

(** * The merge of a tree of contexts *)

(** X14. Merging a well-formed context yields a well-formed context, per-file
    contexts included: the result can be merged again, or handed to whatever
    expects the configuration map to be resolvable in the store. *)
Theorem merge_data_settings_well_formed (keys : list string)
    (init_record : ConfigKey → SettingsRecord) (context : Context) :
  wf_context context →
  ∃ context', merge_data_settings keys init_record context = Ok context' ∧
    wf_context context'.
Proof.
  intros Hwf.
  destruct (merge_data_settings_total keys init_record context Hwf) as (context' & Hrun).
  exists context'. split; [done|].
  by apply (merge_data_settings_wf keys init_record context context').
Qed.

Lemma merge_data_settings_well_formed_witness :
  wf_context nested_context ∧
  ∃ context', merge_data_settings ["defines"] baseline nested_context = Ok context' ∧
    wf_context context'.
Proof.
  assert (wf_context nested_context) as Hwf.
  { split; [apply (bool_decide_unpack _); vm_compute; exact I|].
    split; [|exact I]. split; [|exact I]. apply (bool_decide_unpack _). vm_compute. exact I. }
  split; [exact Hwf|].
  apply (merge_data_settings_well_formed ["defines"] baseline nested_context Hwf).
Defined.

(** X15. With no mergeable key [merge_data_settings] changes nothing, in the
    context and in all its per-file contexts: not even the wildcard keys are
    initialised, and no lookup is made that could raise. *)
Theorem merge_data_settings_no_keys (init_record : ConfigKey → SettingsRecord)
    (context : Context) :
  merge_data_settings [] init_record context = Ok context.
Proof.
  revert context. fix IH 1. intros [d files]. simpl.
  destruct files as [fs|]; [|done].
  assert ((fix merge_files (fs : list (string * Context)) : result (list (string * Context)) :=
             match fs with
             | [] => Ok []
             | (file, fc) :: rest =>
                 fc ← merge_data_settings [] init_record fc;
                 rest ← merge_files rest;
                 Ok ((file, fc) :: rest)
             end) fs = Ok fs) as ->; [|done].
  induction fs as [|[file fc] fs IHfs]; [done|].
  rewrite (IH fc). simpl. by rewrite IHfs.
Qed.


(** * Records without the key, and the update of one record *)

(** X17. For a well-formed context and pairwise distinct mergeable keys, a
    record under a non-wildcard key that has no list for a mergeable key is
    skipped by the merge of that key: it is not given a list, not even an
    empty one. *)
Theorem merge_skips_absent_key (keys : list string)
    (init_record : ConfigKey → SettingsRecord) (context : Context)
    (key : string) (x : ConfigKey) (r : SettingsRecord) :
  NoDup keys → wf_context context → key ∈ keys →
  x.1 ≠ None → settings (data context) !! x = Some r → lists r !! key = None →
  ∃ context' r', merge_data_settings keys init_record context = Ok context' ∧
    settings (data context') !! x = Some r' ∧ lists r' !! key = None.
Proof.
  intros Hnd Hwf Hkey Hx Hr Hnone.
  pose proof (wf_context_data context Hwf) as Hwfd.
  destruct (merge_data_settings_total keys init_record context Hwf) as (context' & Hrun).
  pose proof (merge_data_settings_data keys init_record context context' Hrun) as Hkeys.
  destruct (merge_list_record init_record keys (data context) (data context') x r
              Hwfd Hkeys Hr) as (r' & Hr' & _).
  exists context', r'. split; [done|]. split; [done|].
  destruct (merge_list_key init_record keys key (data context) Hwfd Hnd Hkey)
    as (c' & Hrun' & _ & Hsame & _).
  unfold merge_keys in Hkeys. rewrite Hkeys in Hrun'. injection Hrun' as <-.
  assert (resolved_list (data context) x key = None) as Hres.
  { unfold resolved_list.
    destruct (dict_get x (sln_configurations_map (data context))) as [M|] eqn:Hget; [|done].
    cbn. apply dict_get_Some_elem in Hget.
    destruct (wf_ctx_item (data context) x M Hwfd Hget) as [_ (_ & _ & _ & Hown)].
    cbn [fst snd] in Hown. rewrite Hown by (by rewrite Hr).
    rewrite (contribution_lookup (settings (data context)) key x x r Hr).
    by rewrite decide_False. }
  specialize (Hsame x Hx (ltac:(by rewrite Hr)) Hres).
  unfold stored_list in Hsame. rewrite Hr', Hr in Hsame. cbn in Hsame. congruence.
Qed.

Lemma merge_skips_absent_key_witness :
  NoDup ["defines"] ∧ wf_context (mkContext partial_context None) ∧
  "defines" ∈ ["defines"] ∧ release_x64.1 ≠ None ∧
  settings (data (mkContext partial_context None)) !! release_x64
    = Some (record_of "Application" []) ∧
  lists (record_of "Application" []) !! "defines" = None ∧
  ∃ context' r',
    merge_data_settings ["defines"] baseline (mkContext partial_context None) = Ok context' ∧
    settings (data context') !! release_x64 = Some r' ∧ lists r' !! "defines" = None.
Proof.
  assert (NoDup ["defines"]) as Hnd by (apply (bool_decide_unpack _); vm_compute; exact I).
  assert (wf_context (mkContext partial_context None)) as Hwf.
  { split; [|exact I]. apply (bool_decide_unpack _). vm_compute. exact I. }
  assert ("defines" ∈ ["defines"]) as Hkey
    by (apply (bool_decide_unpack _); vm_compute; exact I).
  assert (release_x64.1 ≠ None) as Hx by discriminate.
  assert (settings (data (mkContext partial_context None)) !! release_x64
          = Some (record_of "Application" [])) as Hr
    by (apply (bool_decide_unpack _); vm_compute; exact I).
  assert (lists (record_of "Application" []) !! "defines" = None) as Hnone
    by (vm_compute; reflexivity).
  split; [exact Hnd|]. split; [exact Hwf|]. split; [exact Hkey|]. split; [exact Hx|].
  split; [exact Hr|]. split; [exact Hnone|].
  apply (merge_skips_absent_key ["defines"] baseline (mkContext partial_context None)
           "defines" release_x64 _ Hnd Hwf Hkey Hx Hr Hnone).
Defined.

(** X18. [__update_settings_at_context] raises [KeyError] exactly when the
    solution configuration has no record of its own and resolves to no
    record. Otherwise it makes the configuration resolve to itself, gives it
    the new list for the key in a record that has everything else from the
    record it worked on (a copy of the resolved record where the
    configuration had none of its own), and leaves every other record and
    every other entry of the configuration map alone. *)
Theorem update_settings_at_context_contract (c : CtxData) (sln_setting : ConfigKey)
    (key : string) (settings_to_set : list string) :
  match update_settings_at_context c sln_setting key settings_to_set with
  | Raise e => e = KeyError ∧ effective_record c sln_setting = None
  | Ok c' =>
      ∃ r : SettingsRecord,
        effective_record c sln_setting = Some r ∧
        settings c' !! sln_setting = Some (set_list key settings_to_set r) ∧
        stored_list c' sln_setting key = Some settings_to_set ∧
        (∀ key2, key2 ≠ key → stored_list c' sln_setting key2 = lists r !! key2) ∧
        (∀ x : ConfigKey, x ≠ sln_setting → settings c' !! x = settings c !! x) ∧
        dict_get sln_setting (sln_configurations_map c') = Some sln_setting ∧
        (∀ s : ConfigKey, s ≠ sln_setting →
           dict_get s (sln_configurations_map c') = dict_get s (sln_configurations_map c)) ∧
        same_frame c c' ∧ current_setting c' = current_setting c
  end.
Proof.
  assert (∀ r, effective_record c sln_setting = Some r →
            (settings c !! sln_setting = Some r ∨
             (settings c !! sln_setting = None ∧
              ∃ M : ConfigKey, dict_get sln_setting (sln_configurations_map c) = Some M ∧
                               settings c !! M = Some r))) as Hcases.
  { intros r. unfold effective_record.
    destruct (settings c !! sln_setting) as [r0|]; [intros [= ->]; by left|].
    destruct (dict_get sln_setting (sln_configurations_map c)) as [M|]; [|done]. cbn.
    intros HM. right. split; [done|]. by exists M. }
  destruct (effective_record c sln_setting) as [r|] eqn:Heff.
  - rewrite (update_settings_at_context_spec c sln_setting key settings_to_set r r eq_refl
               (Hcases r eq_refl)).
    exists r. split; [done|]. cbn.
    assert (∀ key2, lists (set_list key settings_to_set r) !! key2
                    = if decide (key = key2) then Some settings_to_set else lists r !! key2)
      as Hlists by (intros; apply lists_set_list).
    split_and!.
    + by rewrite lookup_insert_eq.
    + unfold stored_list. cbn. rewrite lookup_insert_eq. cbn.
      rewrite Hlists. by rewrite decide_True.
    + intros key2 Hne. unfold stored_list. cbn. rewrite lookup_insert_eq. cbn.
      rewrite Hlists. by rewrite decide_False by congruence.
    + intros x Hne. by rewrite lookup_insert_ne.
    + apply dict_get_set_eq.
    + intros s Hne. by apply dict_get_set_ne.
    + done.
    + done.
  - unfold effective_record in Heff. unfold update_settings_at_context.
    destruct (settings c !! sln_setting) as [r0|] eqn:Hs; [done|].
    rewrite decide_True by (by apply not_elem_of_dom).
    destruct (dict_get sln_setting (sln_configurations_map c)) as [M|]; cbn in *; [|done].
    by rewrite Heff.
Qed.

(** * The filter to the common order *)

(** X19. [__get_common_ordered_settings], given for every architecture with a
    non-empty candidate sequence a set in [set_of_items], returns for each
    architecture the members of its set that occur in its candidate sequence,
    each once, in the order of their first occurrence in the sequence; the
    architectures keep their order. *)
Theorem get_common_ordered_settings_first_occurrences
    (merged_order_list_arch : list (Arch * list string)) (set_of_items : SetsOfItems) :
  NoDup merged_order_list_arch.*1 →
  (∀ arch l, (arch, l) ∈ merged_order_list_arch → l ≠ [] → is_Some (set_of_items !! arch)) →
  ∃ (common_ordered_lists : list (Arch * list string)) (set_of_items' : SetsOfItems),
    get_common_ordered_settings merged_order_list_arch set_of_items
    = Ok (common_ordered_lists, set_of_items') ∧
    common_ordered_lists.*1 = merged_order_list_arch.*1 ∧
    ∀ arch l, (arch, l) ∈ merged_order_list_arch →
      ∃ common : list string,
        dict_get arch common_ordered_lists = Some common ∧
        common = first_occurrences (default ∅ (set_of_items !! arch)) l ∧
        NoDup common ∧
        (∀ v, v ∈ common ↔ v ∈ default ∅ (set_of_items !! arch) ∧ v ∈ l) ∧
        (∀ v w, v ∈ default ∅ (set_of_items !! arch) → before v w l → before v w common).
Proof.
  intros Hnd Hsets.
  destruct (get_common_ordered_settings_spec merged_order_list_arch set_of_items Hnd Hsets)
    as (sets' & Hrun).
  set (out := (λ al : Arch * list string,
                 (al.1, first_occurrences (default ∅ (set_of_items !! al.1)) al.2))
              <$> merged_order_list_arch) in *.
  assert (out.*1 = merged_order_list_arch.*1) as Hkeys.
  { unfold out. rewrite <- list_fmap_compose. by apply list_fmap_ext. }
  exists out, sets'. split; [done|]. split; [done|].
  intros arch l Hin. eexists. split.
  - apply elem_of_dict_get; [by rewrite Hkeys|].
    apply list_elem_of_fmap. by exists (arch, l).
  - cbn [fst snd]. split; [done|]. split; [apply first_occurrences_NoDup|]. split.
    + intros v. apply first_occurrences_elem.
    + intros v w. apply first_occurrences_before.
Qed.

Lemma get_common_ordered_settings_first_occurrences_witness :
  NoDup [(Some "x64", ["X"; "Y"; "Y"; "X"; "Z"; "W"])].*1 ∧
  (∀ arch l, (arch, l) ∈ [(Some "x64", ["X"; "Y"; "Y"; "X"; "Z"; "W"])] → l ≠ [] →
     is_Some (({[ Some "x64" := {[ "X"; "Y" ]} ]} : SetsOfItems) !! arch)) ∧
  ∃ (common_ordered_lists : list (Arch * list string)) (set_of_items' : SetsOfItems),
    get_common_ordered_settings [(Some "x64", ["X"; "Y"; "Y"; "X"; "Z"; "W"])]
      {[ Some "x64" := {[ "X"; "Y" ]} ]}
    = Ok (common_ordered_lists, set_of_items') ∧
    common_ordered_lists.*1 = [(Some "x64", ["X"; "Y"; "Y"; "X"; "Z"; "W"])].*1 ∧
    ∀ arch l, (arch, l) ∈ [(Some "x64", ["X"; "Y"; "Y"; "X"; "Z"; "W"])] →
      ∃ common : list string,
        dict_get arch common_ordered_lists = Some common ∧
        common = first_occurrences
                   (default ∅ (({[ Some "x64" := {[ "X"; "Y" ]} ]} : SetsOfItems) !! arch)) l ∧
        NoDup common ∧
        (∀ v, v ∈ common ↔
              v ∈ default ∅ (({[ Some "x64" := {[ "X"; "Y" ]} ]} : SetsOfItems) !! arch) ∧
              v ∈ l) ∧
        (∀ v w, v ∈ default ∅ (({[ Some "x64" := {[ "X"; "Y" ]} ]} : SetsOfItems) !! arch) →
                before v w l → before v w common).
Proof.
  assert (NoDup [(Some "x64", ["X"; "Y"; "Y"; "X"; "Z"; "W"])].*1) as Hnd
    by (apply (bool_decide_unpack _); vm_compute; exact I).
  assert (∀ arch l, (arch, l) ∈ [(Some "x64", ["X"; "Y"; "Y"; "X"; "Z"; "W"])] → l ≠ [] →
            is_Some (({[ Some "x64" := {[ "X"; "Y" ]} ]} : SetsOfItems) !! arch)) as Hsets.
  { intros arch l Hin _. apply list_elem_of_singleton in Hin as [= -> _].
    apply (bool_decide_unpack _). vm_compute. exact I. }
  split; [exact Hnd|]. split; [exact Hsets|].
  apply (get_common_ordered_settings_first_occurrences _ _ Hnd Hsets).
Defined.

(** * The store after the merge, and after validation and merge *)

Section growth_facts.
Variable init_record : ConfigKey → SettingsRecord.
Implicit Types (c : CtxData) (key : string) (x : ConfigKey) (ks : list string).

Lemma pass_new_key key c c' x :
  wf_ctx c → pass_post init_record key c c' →
  settings c !! x = None → is_Some (settings c' !! x) →
  x.1 = None ∨ x ∈ (sln_configurations_map c).*1.
Proof.
  intros Hwf Hpost Hnone. rewrite (pass_settings_lookup init_record key c c' x Hwf Hpost).
  destruct (decide (x.1 = None ∧ x.2 ≠ None ∧ x.2 ∈ archs (sln_configurations_map c)))
    as [[? _]|_]; [by left|].
  destruct (rewritten_record (settings c) key (sln_configurations_map c) x) as [r|] eqn:Hrw.
  - intros _. right.
    destruct (rewritten_record_Some c key x) as (M & l & Hin & _); [by rewrite Hrw|].
    apply list_elem_of_fmap. by exists (x, M).
  - rewrite Hnone. by intros [? ?].
Qed.

Lemma merge_list_growth ks c c' x :
  wf_ctx c → for_each (merge_key init_record) ks c = Ok c' →
  settings c !! x = None → is_Some (settings c' !! x) →
  x.1 = None ∨ x ∈ (sln_configurations_map c).*1.
Proof.
  revert c. induction ks as [|k ks IH]; intros c Hwf Hrun Hnone Hsome.
  - injection Hrun as <-. rewrite Hnone in Hsome. by destruct Hsome.
  - cbn [for_each] in Hrun.
    destruct (merge_key_spec init_record k c Hwf) as (c1 & Hk & Hpost).
    rewrite Hk in Hrun. cbn in Hrun.
    destruct (settings c1 !! x) as [r|] eqn:Hx1.
    + apply (pass_new_key k c c1 x Hwf Hpost Hnone). by rewrite Hx1.
    + destruct (IH c1 (pass_wf init_record k c c1 Hwf Hpost) Hrun Hx1 Hsome) as [?|Hin];
        [by left|].
      destruct (pass_keys init_record k c c1 Hpost) as (extra & Hkeys & Hextra).
      rewrite Hkeys in Hin. apply elem_of_app in Hin as [Hin|Hin]; [by right|].
      left. by apply Hextra.
Qed.
End growth_facts.

(** X20. For a well-formed context, [merge_data_settings] removes no record
    from the settings store, and a key that gets a record is a wildcard key or
    one of the solution configurations of the configuration map. *)
Theorem merge_store_growth (keys : list string)
    (init_record : ConfigKey → SettingsRecord) (context : Context) :
  wf_context context →
  ∃ context', merge_data_settings keys init_record context = Ok context' ∧
    (∀ x : ConfigKey, is_Some (settings (data context) !! x) →
       is_Some (settings (data context') !! x)) ∧
    (∀ x : ConfigKey, settings (data context) !! x = None →
       is_Some (settings (data context') !! x) →
       x.1 = None ∨ x ∈ (sln_configurations_map (data context)).*1).
Proof.
  intros Hwf. pose proof (wf_context_data context Hwf) as Hwfd.
  destruct (merge_data_settings_total keys init_record context Hwf) as (context' & Hrun).
  pose proof (merge_data_settings_data keys init_record context context' Hrun) as Hkeys.
  exists context'. split; [done|]. split.
  - destruct (merge_list_run init_record keys (data context) Hwfd)
      as (c' & Hrun' & _ & _ & _ & Hsome & _).
    unfold merge_keys in Hkeys. rewrite Hkeys in Hrun'. by injection Hrun' as <-.
  - intros x. by apply (merge_list_growth init_record keys (data context) (data context')).
Qed.

Lemma merge_store_growth_witness :
  wf_context (mkContext shared_context None) ∧
  ∃ context',
    merge_data_settings ["defines"] baseline (mkContext shared_context None) = Ok context' ∧
    (∀ x : ConfigKey, is_Some (settings shared_context !! x) →
       is_Some (settings (data context') !! x)) ∧
    (∀ x : ConfigKey, settings shared_context !! x = None →
       is_Some (settings (data context') !! x) →
       x.1 = None ∨ x ∈ (sln_configurations_map shared_context).*1).
Proof.
  assert (wf_context (mkContext shared_context None)) as Hwf.
  { split; [|exact I]. apply (bool_decide_unpack _). vm_compute. exact I. }
  split; [exact Hwf|].
  apply (merge_store_growth ["defines"] baseline (mkContext shared_context None) Hwf).
Defined.

Section pipeline_facts.
Implicit Types (c : CtxData).

Lemma verify_data_store c :
  settings (verify_data c).1 = settings c ∧
  sln_configurations_map (verify_data c).1 = sln_configurations_map c.
Proof.
  unfold verify_data.
  destruct (verify_target_types_cases c) as [->|[->| ->]]; [done| |];
    unfold verify_configurations_to_parse; by destruct (decide _).
Qed.

Lemma wf_ctx_store c c' :
  settings c' = settings c → sln_configurations_map c' = sln_configurations_map c →
  wf_ctx c → wf_ctx c'.
Proof. unfold wf_ctx. by intros -> ->. Qed.
End pipeline_facts.

(** X21. Validation followed by the merge, as [convert_project] runs them:
    on a well-formed context on which [verify_data] returns,
    [merge_data_settings] returns too, leaves the requested set and the
    diagnostics as validation left them, and every configuration still
    requested has a record in the merged store. *)
Theorem verify_then_merge (keys : list string)
    (init_record : ConfigKey → SettingsRecord) (c : CtxData)
    (files : option (list (string * Context))) (ok : bool) :
  wf_context (mkContext c files) → (verify_data c).2 = Ok ok →
  ∃ context',
    merge_data_settings keys init_record (mkContext (verify_data c).1 files) = Ok context' ∧
    configurations_to_parse (data context') = configurations_to_parse (verify_data c).1 ∧
    diagnostics (data context') = diagnostics (verify_data c).1 ∧
    ∀ k : ConfigKey, k ∈ configurations_to_parse (data context') →
      is_Some (settings (data context') !! k).
Proof.
  intros [Hwfd Hfiles] Hok.
  destruct (verify_data_store c) as [Hs Hm].
  assert (wf_context (mkContext (verify_data c).1 files)) as Hwf1.
  { split; [|done]. by apply (wf_ctx_store c). }
  destruct (merge_data_settings_total keys init_record _ Hwf1) as (context' & Hrun).
  pose proof (merge_data_settings_data keys init_record _ context' Hrun) as Hkeys.
  cbn [data] in Hkeys.
  destruct (merge_list_run init_record keys (verify_data c).1 (wf_context_data _ Hwf1))
    as (c' & Hrun' & _ & (_ & Hreq & Hdiag) & _ & Hsome & _).
  unfold merge_keys in Hkeys. rewrite Hkeys in Hrun'. injection Hrun' as <-.
  exists context'. split; [done|]. split; [done|]. split; [done|].
  intros k Hk. apply Hsome. rewrite Hreq in Hk.
  apply elem_of_dom.
  apply (proj1 (absent_settings_empty _) (verify_data_complete c ok Hok) k Hk).
Qed.

(** On the scenario of the specification validation succeeds, and the merge
    that follows hoists the two shared values. *)
Example verify_then_merge_scenario :
  (verify_data scenario_context).2 = Ok true ∧
  (context' ← merge_data_settings ["defines"] baseline
                 (mkContext (verify_data scenario_context).1 None);
   Ok (stored_list (data context') wildcard_x64 "defines",
       stored_list (data context') debug_x64 "defines",
       stored_list (data context') release_x64 "defines"))
  = Ok (Some ["X"; "Y"], Some ["Z"], Some ["W"]).
Proof. split; vm_compute; reflexivity. Qed.

Lemma verify_then_merge_witness :
  wf_context (mkContext scenario_context None) ∧
  (verify_data scenario_context).2 = Ok true ∧
  ∃ context',
    merge_data_settings ["defines"] baseline (mkContext (verify_data scenario_context).1 None)
    = Ok context' ∧
    configurations_to_parse (data context')
    = configurations_to_parse (verify_data scenario_context).1 ∧
    diagnostics (data context') = diagnostics (verify_data scenario_context).1 ∧
    ∀ k : ConfigKey, k ∈ configurations_to_parse (data context') →
      is_Some (settings (data context') !! k).
Proof.
  assert (wf_context (mkContext scenario_context None)) as Hwf.
  { split; [|exact I]. apply (bool_decide_unpack _). vm_compute. exact I. }
  assert ((verify_data scenario_context).2 = Ok true) as Hok by (vm_compute; reflexivity).
  split; [exact Hwf|]. split; [exact Hok|].
  apply (verify_then_merge ["defines"] baseline scenario_context None true Hwf Hok).
Defined.

(** * The writers of the root CMake file *)

Section text_facts.
Implicit Types (a b c sep : string) (f g : CMakeFile).

Lemma append_nil_r a : a +:+ EmptyString = a.
Proof.
  induction a as [|x a IH]; [done|].
  change (String x (a +:+ EmptyString) = String x a). by rewrite IH.
Qed.

Lemma append_assoc a b c : (a +:+ b) +:+ c = a +:+ (b +:+ c).
Proof.
  induction a as [|x a IH]; [done|].
  change (String x ((a +:+ b) +:+ c) = String x (a +:+ (b +:+ c))). by rewrite IH.
Qed.

Lemma file_text_app f g : file_text (f ++ g) = file_text f +:+ file_text g.
Proof.
  induction f as [|a f IH]; [done|].
  change (a +:+ file_text (f ++ g) = (a +:+ file_text f) +:+ file_text g).
  by rewrite IH, append_assoc.
Qed.

Lemma file_text_singleton a : file_text [a] = a.
Proof. change (a +:+ EmptyString = a). apply append_nil_r. Qed.

Lemma file_text_cons a f : file_text (a :: f) = a +:+ file_text f.
Proof. done. Qed.

Lemma concat_cons sep a (l : list string) :
  String.concat sep (a :: l) = a +:+ file_text ((λ x, sep +:+ x) <$> l).
Proof.
  revert a. induction l as [|b l IH]; intros a.
  - change (a = a +:+ EmptyString). by rewrite append_nil_r.
  - change (String.concat sep (a :: b :: l)) with (a +:+ sep +:+ String.concat sep (b :: l)).
    by rewrite IH, fmap_cons, file_text_cons, append_assoc.
Qed.
End text_facts.

Section sort_facts.
Implicit Types (l : list string).

Lemma sort_strings_Permutation l : sort_strings l ≡ₚ l.
Proof. apply merge_sort_Permutation. Qed.

Lemma sort_strings_Sorted l : Sorted String.le (sort_strings l).
Proof. apply (Sorted_merge_sort String.le). Qed.

Lemma sort_strings_unique l1 l2 : l1 ≡ₚ l2 → sort_strings l1 = sort_strings l2.
Proof.
  intros Hperm. apply (Sorted_unique String.le); [apply sort_strings_Sorted..|].
  by rewrite !sort_strings_Permutation.
Qed.
End sort_facts.

Section architecture_check_facts.
Variable indent : string.

Lemma write_architecture_clauses_rest (arch_list : list string) (cmake_file : CMakeFile) :
  write_architecture_clauses indent false arch_list cmake_file =
  cmake_file ++ ((λ arch, (nl +:+ indent +:+ " OR ") +:+ platform_clause arch) <$> arch_list).
Proof.
  revert cmake_file. induction arch_list as [|arch rest IH]; intros cmake_file.
  - by rewrite app_nil_r.
  - cbn [write_architecture_clauses]. rewrite IH. csimpl.
    rewrite <- (assoc_L (++)). by rewrite !append_assoc.
Qed.

Lemma write_architecture_clauses_text (arch_list : list string) (cmake_file : CMakeFile) :
  file_text (write_architecture_clauses indent true arch_list cmake_file) =
  file_text cmake_file +:+
  String.concat (nl +:+ indent +:+ " OR ") (platform_clause <$> arch_list).
Proof.
  destruct arch_list as [|arch rest].
  - cbn. by rewrite append_nil_r.
  - cbn [write_architecture_clauses]. rewrite write_architecture_clauses_rest.
    rewrite fmap_cons, concat_cons, <- list_fmap_compose.
    by rewrite !file_text_app, file_text_singleton, append_assoc.
Qed.
End architecture_check_facts.

Example write_supported_architectures_check_sample :
  file_text (write_supported_architectures_check "    " ["x64"; "Win32"] [])
  = "if(NOT (" +:+ dq +:+ "${CMAKE_VS_PLATFORM_NAME}" +:+ dq +:+ " STREQUAL "
      +:+ dq +:+ "Win32" +:+ dq +:+ nl
      +:+ "     OR " +:+ dq +:+ "${CMAKE_VS_PLATFORM_NAME}" +:+ dq +:+ " STREQUAL "
      +:+ dq +:+ "x64" +:+ dq +:+ "))" +:+ nl
      +:+ "    message(FATAL_ERROR " +:+ dq
      +:+ "${CMAKE_VS_PLATFORM_NAME} arch is not supported!" +:+ dq +:+ ")" +:+ nl
      +:+ "endif()" +:+ nl +:+ nl.
Proof. vm_compute. reflexivity. Qed.

(** X22. The text that [__write_supported_architectures_check] appends to
    the file is the opening of the condition, the platform clauses of the
    architectures in ascending order joined by a line break, the indent and
    [OR], then the closing lines; with no architecture the condition is the
    empty [if(NOT ())]. What is written does not depend on the order in which
    the collection of architectures yields them. *)
Theorem write_supported_architectures_check_text (indent : string)
    (arch_list : list string) (cmake_file : CMakeFile) :
  file_text (write_supported_architectures_check indent arch_list cmake_file) =
  file_text cmake_file +:+ "if(NOT (" +:+
  String.concat (nl +:+ indent +:+ " OR ") (platform_clause <$> sort_strings arch_list) +:+
  "))" +:+ nl +:+
  indent +:+ "message(FATAL_ERROR " +:+ dq +:+
    "${CMAKE_VS_PLATFORM_NAME} arch is not supported!" +:+ dq +:+ ")" +:+ nl +:+
  "endif()" +:+ nl +:+ nl ∧
  Sorted String.le (sort_strings arch_list) ∧
  sort_strings arch_list ≡ₚ arch_list ∧
  ∀ arch_list' : list string, arch_list' ≡ₚ arch_list →
    write_supported_architectures_check indent arch_list' cmake_file =
    write_supported_architectures_check indent arch_list cmake_file.
Proof.
  split_and!.
  - unfold write_supported_architectures_check.
    rewrite !file_text_app, write_architecture_clauses_text, file_text_app.
    rewrite !file_text_singleton. by rewrite !append_assoc.
  - apply sort_strings_Sorted.
  - apply sort_strings_Permutation.
  - intros arch_list' Hperm. unfold write_supported_architectures_check.
    by rewrite (sort_strings_unique arch_list' arch_list).
Qed.

Section compile_options_facts.
Variable indent : string.
Variable upper : string → string.
Implicit Types (lang : string) (langs cts : list string) (f : CMakeFile).

Lemma foldl_append_lines {A} (line : A → string) (l : list A) f :
  foldl (λ (f : CMakeFile) (x : A), f ++ [line x]) f l = f ++ (line <$> l).
Proof.
  revert f. induction l as [|x l IH]; intros f; [by rewrite app_nil_r|].
  cbn [foldl]. rewrite IH. csimpl. by rewrite <- (assoc_L (++)).
Qed.

Lemma write_global_compile_options_language_app cts lang f :
  write_global_compile_options_language indent upper cts lang f =
  f ++ write_global_compile_options_language indent upper cts lang [].
Proof.
  unfold write_global_compile_options_language.
  rewrite !foldl_append_lines. by rewrite <- (assoc_L (++)).
Qed.

Lemma write_global_compile_options_language_length cts lang :
  length (write_global_compile_options_language indent upper cts lang []) = S (length cts).
Proof.
  unfold write_global_compile_options_language.
  rewrite foldl_append_lines. cbn. by rewrite length_fmap.
Qed.

Lemma compile_options_loop cts langs f (have_fortran : bool) :
  foldl
    (λ (st : CMakeFile * bool) (lang : string),
       if decide (lang = "Fortran") then (st.1, true)
       else (write_global_compile_options_language indent upper cts lang st.1, st.2))
    (f, have_fortran) langs
  = (f ++ mjoin ((λ lang, write_global_compile_options_language indent upper cts lang [])
                   <$> filter (λ lang, lang ≠ "Fortran") langs),
     have_fortran || bool_decide ("Fortran" ∈ langs)).
Proof.
  revert f have_fortran. induction langs as [|lang langs IH]; intros f have_fortran.
  - cbn. by rewrite app_nil_r, orb_false_r.
  - cbn [foldl]. destruct (decide (lang = "Fortran")) as [->|Hne].
    + rewrite IH. cbn [fst]. rewrite filter_cons_False by (by intros ?). f_equal.
      rewrite (bool_decide_eq_true_2 ("Fortran" ∈ "Fortran" :: langs)) by left.
      by rewrite orb_true_r.
    + rewrite IH. cbn [fst snd]. rewrite filter_cons_True by done. csimpl.
      rewrite write_global_compile_options_language_app, <- (assoc_L (++)). f_equal.
      f_equal. apply bool_decide_ext. rewrite elem_of_cons. naive_solver.
Qed.
End compile_options_facts.

(** X23. [__write_global_compile_options] resets the flags of every
    language but Fortran inside the [if(MSVC)] block, language by language in
    ascending order, and of Fortran in a block of its own under the Intel
    compiler check, written exactly when Fortran is among the languages; each
    language gets one line and one more per configuration type; and what is
    written does not depend on the order in which the collection of languages
    yields them. *)
Theorem write_global_compile_options_blocks (indent : string) (upper : string → string)
    (write_comment : string → list string)
    (solution_languages configuration_types_list : list string) (root_cmake : CMakeFile) :
  let block := λ lang : string,
    write_global_compile_options_language indent upper configuration_types_list lang [] in
  write_global_compile_options indent upper write_comment
    solution_languages configuration_types_list root_cmake =
  root_cmake ++ write_comment "Global compiler options" ++
  ["if(MSVC)" +:+ nl;
   indent +:+ "# remove default flags provided with CMake for MSVC" +:+ nl] ++
  mjoin (block <$> filter (λ lang, lang ≠ "Fortran") (sort_strings solution_languages)) ++
  ["endif()" +:+ nl +:+ nl] ++
  (if decide ("Fortran" ∈ solution_languages) then
     ["if(${CMAKE_Fortran_COMPILER_ID} STREQUAL " +:+ dq +:+ "Intel" +:+ dq +:+ ")" +:+ nl;
      indent +:+ "# remove default flags provided with CMake for ifort" +:+ nl] ++
     block "Fortran" ++ ["endif()" +:+ nl +:+ nl]
   else []) ∧
  (∀ lang, length (block lang) = S (length configuration_types_list)) ∧
  ∀ solution_languages' : list string, solution_languages' ≡ₚ solution_languages →
    write_global_compile_options indent upper write_comment
      solution_languages' configuration_types_list root_cmake =
    write_global_compile_options indent upper write_comment
      solution_languages configuration_types_list root_cmake.
Proof.
  intros block. split_and!.
  - unfold write_global_compile_options. rewrite compile_options_loop. cbn [orb].
    rewrite (bool_decide_ext _ ("Fortran" ∈ solution_languages))
      by (by rewrite sort_strings_Permutation).
    destruct (decide ("Fortran" ∈ solution_languages)) as [Hin|Hin].
    + rewrite bool_decide_eq_true_2 by done.
      rewrite (write_global_compile_options_language_app indent upper _ "Fortran").
      fold block. by rewrite <- !(assoc_L (++)).
    + rewrite bool_decide_eq_false_2 by done. fold block.
      by rewrite app_nil_r, <- !(assoc_L (++)).
  - intros lang. apply write_global_compile_options_language_length.
  - intros langs' Hperm. unfold write_global_compile_options.
    by rewrite (sort_strings_unique langs' solution_languages).
Qed.

Section subdirectory_facts.
Variable lower : string → string.
Variable set_unix_slash : string → string.
Implicit Types (x y : string) (l : list string) (names : gmap string string).
Implicit Types (f : CMakeFile).


Lemma insert_by_key_Permutation x l : insert_by_key lower x l ≡ₚ x :: l.
Proof.
  induction l as [|y l IH]; [done|]. cbn [insert_by_key].
  destruct (decide (String.le (lower x) (lower y))); [done|].
  rewrite IH. apply Permutation_swap.
Qed.

Lemma sort_by_key_Permutation l : sort_by_key lower l ≡ₚ l.
Proof.
  induction l as [|x l IH]; [done|]. unfold sort_by_key. cbn [foldr].
  rewrite insert_by_key_Permutation. by f_equiv.
Qed.



Lemma write_subdirectory_lines_spec l names f :
  ∃ (written : list string) (r : result unit),
    write_subdirectory_lines set_unix_slash l names f
    = (f ++ (subdirectory_line set_unix_slash names <$> written), r) ∧
    Forall (named names) written ∧
    ((r = Ok () ∧ written = l) ∨
     (r = Raise KeyError ∧
      ∃ sd post, l = written ++ sd :: post ∧
                 starts_with_dot sd = true ∧ names !! sd = None)).
Proof.
  revert f. induction l as [|sd l IH]; intros f.
  - exists [], (Ok ()). cbn. rewrite app_nil_r. split; [done|]. split; [constructor|by left].
  - cbn [write_subdirectory_lines]. unfold binary_dir.
    destruct (starts_with_dot sd) eqn:Hdot.
    + destruct (names !! sd) as [name|] eqn:Hname; cbn.
      * destruct (IH (f ++ ["add_subdirectory(" +:+ set_unix_slash sd +:+
                            (" ${CMAKE_BINARY_DIR}/" +:+ name) +:+ ")" +:+ nl]))
          as (written & r & -> & Hall & Hr).
        exists (sd :: written), r. split.
        { rewrite <- (assoc_L (++)). csimpl. unfold subdirectory_line at 2.
          by rewrite Hdot, Hname. }
        split. { constructor; [|done]. intros _. by rewrite Hname. }
        destruct Hr as [[-> ->]|[-> (sd' & post & -> & Hsd')]]; [by left|].
        right. split; [done|]. by exists sd', post.
      * exists [], (Raise KeyError). cbn. rewrite app_nil_r. split; [done|].
        split; [constructor|]. right. split; [done|]. by exists sd, l.
    + cbn.
      destruct (IH (f ++ ["add_subdirectory(" +:+ set_unix_slash sd +:+ EmptyString +:+
                          ")" +:+ nl]))
        as (written & r & -> & Hall & Hr).
      exists (sd :: written), r. split.
      { rewrite <- (assoc_L (++)). csimpl. unfold subdirectory_line at 2. by rewrite Hdot. }
      split. { constructor; [|done]. intros Hd. by rewrite Hdot in Hd. }
      destruct Hr as [[-> ->]|[-> (sd' & post & -> & Hsd')]]; [by left|].
      right. split; [done|]. by exists sd', post.
Qed.

End subdirectory_facts.

(** X24. [__write_subdirectories] writes the comment, then one
    [add_subdirectory] line per subdirectory, in sorted order, giving a binary
    directory exactly to the subdirectories whose name starts with a dot, and
    then a line feed. It raises [KeyError] exactly when such a subdirectory
    has no project name, and then the lines of the subdirectories that sort
    before the first such one are written, and the closing line feed is not. *)
Theorem write_subdirectories_outcome (lower set_unix_slash : string → string)
    (write_comment : string → list string) (root_cmake : CMakeFile)
    (subdirectories : list string) (subdirectories_to_project_name : gmap string string) :
  let run := write_subdirectories lower set_unix_slash write_comment root_cmake
               subdirectories subdirectories_to_project_name in
  let sorted := sort_by_key lower subdirectories in
  let lines := λ written : list string,
    subdirectory_line set_unix_slash subdirectories_to_project_name <$> written in
  ∃ written : list string,
    Forall (named subdirectories_to_project_name) written ∧
    ((run = (root_cmake ++ write_comment "Sub-projects" ++ lines written ++ [nl], Ok ()) ∧
      written = sorted ∧
      Forall (named subdirectories_to_project_name) subdirectories) ∨
     (run = (root_cmake ++ write_comment "Sub-projects" ++ lines written, Raise KeyError) ∧
      ∃ sd post, sorted = written ++ sd :: post ∧ sd ∈ subdirectories ∧
                 starts_with_dot sd = true ∧ subdirectories_to_project_name !! sd = None)).
Proof.
  intros run sorted lines. unfold run, write_subdirectories. fold sorted.
  destruct (write_subdirectory_lines_spec set_unix_slash sorted subdirectories_to_project_name
              (root_cmake ++ write_comment "Sub-projects"))
    as (written & r & -> & Hall & Hr).
  exists written. split; [done|].
  destruct Hr as [[-> ->]|[-> (sd & post & Hsorted & Hdot & Hname)]].
  - left. split; [by rewrite <- !(assoc_L (++))|]. split; [done|].
    unfold sorted in Hall. by rewrite sort_by_key_Permutation in Hall.
  - right. split; [by rewrite <- (assoc_L (++))|]. exists sd, post. split; [done|].
    split; [|done].
    rewrite <- (sort_by_key_Permutation lower subdirectories). fold sorted.
    rewrite Hsorted. apply elem_of_app. right. left.
Qed.

(** The run on one plain and one dotted subdirectory, with [str.lower] and
    [set_unix_slash] taken as the identity and a comment of one line. *)
Example write_subdirectories_sample :
  write_subdirectories id id (λ text, ["# " +:+ text +:+ nl]) []
    ["src"; ".hidden"] {[ ".hidden" := "tool" ]}
  = (["# Sub-projects" +:+ nl;
      "add_subdirectory(.hidden ${CMAKE_BINARY_DIR}/tool)" +:+ nl;
      "add_subdirectory(src)" +:+ nl;
      nl], Ok ()).
Proof. vm_compute. reflexivity. Qed.


(** * Hoisting on well-formed contexts *)

(** X26. For a well-formed context and pairwise distinct mergeable keys,
    [merge_data_settings] returns and, for every mergeable key and every
    architecture with at least one contributing configuration, the common list
    stored under the wildcard key [(None, arch)] holds exactly the values
    present in every contributing configuration's original list, each once,
    every contributing configuration's residual list is its original list
    without those values, and common and residual list together have the
    values of the original list. *)
Theorem merge_hoists_common_values (keys : list string)
    (init_record : ConfigKey → SettingsRecord) (context : Context) :
  NoDup keys → wf_context context →
  ∃ context', merge_data_settings keys init_record context = Ok context' ∧
    ∀ key arch, key ∈ keys →
      (∃ s l, contributes (data context) key arch s l) →
      hoisting_property (data context) (data context') key arch.
Proof.
  intros Hnd Hwf.
  destruct (merge_data_settings_total keys init_record context Hwf) as (context' & Hrun).
  exists context'. split; [done|]. intros key arch Hkey Hc.
  apply (merge_keys_hoisting keys init_record); try done.
  - by apply wf_context_data.
  - by apply merge_data_settings_data.
Qed.

Lemma merge_hoists_common_values_witness :
  NoDup ["defines"] ∧ wf_context (mkContext scenario_context None) ∧
  ∃ context', merge_data_settings ["defines"] baseline (mkContext scenario_context None)
                = Ok context' ∧
    ∀ key arch, key ∈ ["defines"] →
      (∃ s l, contributes scenario_context key arch s l) →
      hoisting_property scenario_context (data context') key arch.
Proof.
  assert (NoDup ["defines"]) as Hnd by (apply (bool_decide_unpack _); vm_compute; exact I).
  assert (wf_context (mkContext scenario_context None)) as Hwf.
  { split; [|exact I]. apply (bool_decide_unpack _). vm_compute. exact I. }
  split; [exact Hnd|]. split; [exact Hwf|].
  apply (merge_hoists_common_values ["defines"] baseline (mkContext scenario_context None) Hnd Hwf).
Defined.

(** X27. For a well-formed context and pairwise distinct mergeable keys,
    where the contributing configurations of an architecture share no
    value for a mergeable key, the common list stored for that key and
    architecture is empty, every contributing configuration's residual list
    is its original list, and every record that the store held under a
    concrete key of the architecture keeps its list for the key. *)
Theorem merge_keeps_unshared_lists (keys : list string)
    (init_record : ConfigKey → SettingsRecord) (context : Context) :
  NoDup keys → wf_context context →
  ∃ context', merge_data_settings keys init_record context = Ok context' ∧
    ∀ key arch, key ∈ keys →
      (∃ s l, contributes (data context) key arch s l) →
      (∀ v, ¬ ∀ s l, contributes (data context) key arch s l → v ∈ l) →
      nothing_hoisted (data context) (data context') key arch.
Proof.
  intros Hnd Hwfc.
  destruct (merge_data_settings_total keys init_record context Hwfc) as (context' & Hrun).
  exists context'. split; [done|]. intros key arch Hkey (s0 & l0 & Hc0) Hnone.
  pose proof (wf_context_data context Hwfc) as Hwf.
  pose proof (merge_data_settings_data keys init_record context context' Hrun) as Hkeys.
  set (c := data context) in *. set (c' := data context') in *.
  destruct (merge_list_key init_record keys key c Hwf Hnd Hkey)
    as (c2 & Hrun2 & _ & Hother & Harch).
  unfold merge_keys in Hkeys. rewrite Hkeys in Hrun2. injection Hrun2 as <-.
  destruct (contributes_arch c key arch s0 l0 Hwf Hc0) as [Ha1 Ha2].
  destruct (Harch arch Ha1 Ha2) as (common & Hst & Hndc & Hmem & Hres).
  assert (common = []) as ->.
  { apply elem_of_nil_inv. intros v Hv. apply Hmem in Hv as [_ Hall].
    apply (Hnone v). intros s l Hc.
    apply (contributes_resolved c key arch s l Hwf) in Hc as [Ha Hl]. by apply (Hall s l). }
  assert (∀ s l, contributes c key arch s l → stored_list c' s key = Some l) as Hsame.
  { intros s l Hc. apply (contributes_resolved c key arch s l Hwf) in Hc as [Ha Hl].
    rewrite (Hres s l Ha Hl). f_equal. apply filter_all. intros v _. apply not_elem_of_nil. }
  split_and!; [done|done|].
  intros x r Hx Hxa Hr.
  assert (stored_list c x key = lists r !! key) as Hsx.
  { unfold stored_list. by rewrite Hr. }
  destruct (resolved_list c x key) as [l|] eqn:Hl.
  - rewrite (Hsame x l); [|by apply (contributes_resolved c key arch x l Hwf)].
    unfold resolved_list in Hl.
    destruct (dict_get x (sln_configurations_map c)) as [M|] eqn:HM; [|done]. simpl in Hl.
    apply dict_get_Some_elem in HM.
    destruct (wf_ctx_item c x M Hwf HM) as (_ & _ & _ & _ & Hself). simpl in Hself.
    assert (M = x) as -> by (apply Hself; by rewrite Hr).
    unfold contribution in Hl. simpl in Hl. rewrite decide_False in Hl by done.
    rewrite Hr in Hl. simpl in Hl. by rewrite Hl.
  - rewrite <-Hsx. apply Hother; [done| |done]. by rewrite Hr.
Qed.

Lemma merge_keeps_unshared_lists_witness :
  NoDup ["defines"] ∧ wf_context (mkContext unshared_context None) ∧
  ∃ context', merge_data_settings ["defines"] baseline (mkContext unshared_context None)
                = Ok context' ∧
    nothing_hoisted unshared_context (data context') "defines" (Some "x64").
Proof.
  assert (NoDup ["defines"]) as Hnd by (apply (bool_decide_unpack _); vm_compute; exact I).
  assert (wf_context (mkContext unshared_context None)) as Hwf.
  { split; [|exact I]. apply (bool_decide_unpack _). vm_compute. exact I. }
  split; [exact Hnd|]. split; [exact Hwf|].
  destruct (merge_keeps_unshared_lists ["defines"] baseline (mkContext unshared_context None)
              Hnd Hwf) as (context' & Hrun & H).
  exists context'. split; [exact Hrun|].
  assert (contributes unshared_context "defines" (Some "x64") debug_x64 ["D"]) as Hd.
  { exists debug_x64, (record_of "Application" [("defines", ["D"])]).
    split_and!; [left|reflexivity|discriminate|vm_compute; reflexivity|vm_compute; reflexivity]. }
  assert (contributes unshared_context "defines" (Some "x64") profile_x64 ["E"]) as Hp.
  { exists profile_x64, (record_of "Application" [("defines", ["E"])]).
    split_and!; [right; left|reflexivity|discriminate|vm_compute; reflexivity
                |vm_compute; reflexivity]. }
  apply H.
  - left.
  - by exists debug_x64, ["D"].
  - intros v Hall. pose proof (Hall _ _ Hd) as H1. pose proof (Hall _ _ Hp) as H2.
    apply list_elem_of_singleton in H1. apply list_elem_of_singleton in H2.
    subst v. discriminate H2.
Defined.
